(** * proto-qm: hydrogen orbital visualiser (src/source/main.cpp)

    A shallow embedding of the host program of [namespace qm] and a small
    deep embedding of the device program it generates.

    Number model.  The C++ code computes with [float] and [double].  Here
    the slider and program-state arithmetic is carried out in exact
    rationals ([Q], executable) and the wave-function arithmetic in the
    real numbers ([R], needed for [exp], [sin], [cos], [sqrt]); a printf
    conversion [%e] is read as the exact value it prints.  Every statement
    below is therefore a statement about the arithmetic the code performs
    before rounding.  [int] values are modelled in [Z]; all integer
    expressions of the code stay far inside the 32-bit range on the inputs
    considered. *)

From Stdlib Require Import ZArith QArith Qround Qminmax Qabs Qpower Qreals.
From Stdlib Require Import Reals Ratan Rpower Lra Lia Psatz.
From Stdlib Require Import List String Bool.
Import ListNotations.

(* ================================================================= *)
(** ** Helpers declared in math.hpp / util.hpp *)

Module Util.

Local Open Scope Q_scope.

(** Modelled from the spec: the macro [CLAMP] (util.hpp) is not among the
    sources; section 3 of the spec says a slider value is "clamped to
    [min,max]".  It is read as min(max(v, lo), hi). *)
Definition CLAMP (v lo hi : Q) : Q := Qmin (Qmax v lo) hi.

(** [10^decimals] as a rational; [decimals] is a C [int]. *)
Definition pow10 (decimals : Z) : Q := (10 # 1) ^ decimals.

(** Modelled from the spec: [round(v, decimals)] (math.hpp) is not among
    the sources; the spec says a value is "rounded to the declared decimal
    precision".  It is read as the nearest multiple of [10^-decimals],
    halves going up: floor(v*10^d + 0.5)/10^d. *)
Definition round (v : Q) (decimals : Z) : Q :=
  inject_Z (Qfloor (v * pow10 decimals + (1 # 2))) / pow10 decimals.

(** Conversion of a [float] to [int]: truncation toward zero. *)
Definition to_int (v : Q) : Z := Z.quot (Qnum v) (Z.pos (Qden v)).

(** Conversion of a [float] to [bool]: non-zero is true. *)
Definition to_bool (v : Q) : bool := negb (Qeq_bool v 0).

End Util.

(* ================================================================= *)
(** ** Program state and the fields sliders point to *)

(** [Program::Wave]. *)
Module Wave.
Record t : Type := mk {
  amplitude : Q;
  phase : Q;            (* additional factor e^(i*phase) *)
  n : Q; l : Q; m : Q;  (* quantum numbers, stored as float *)
  translation : Q;
  particle : Z
}.

(** [Program::Wave w= {}]: every member zero. *)
Definition zero : t := mk 0 0 0 0 0 0 0.
End Wave.

(** A [float*] into the program state, as stored in [Slider::value]. *)
Inductive field : Type :=
| FPhase | FSampleCount | FResoMul | FFiltering
| FR | FG | FB | FComplexColor | FAbsorption | FCutoff | FDistance
| FWaveAmplitude (i : nat) | FWavePhase (i : nat)
| FWaveN (i : nat) | FWaveL (i : nat) | FWaveM (i : nat)
| FWaveTranslation (i : nat).

Module Slider.

Local Open Scope Q_scope.

Definition sliderHeight : Q := 5 # 100.
Definition sliderWidth : Q := 65 # 100.

Record t : Type := mk {
  title : string;
  min : Q;
  max : Q;
  value : field;
  decimals : Z;
  recompile : bool
}.

Definition top (i : nat) : Q := 1 - inject_Z (Z.of_nat i) * sliderHeight.
Definition bottom (i : nat) : Q := top (S i).

(** [pointInside(i, p)] with [p = (px, py)]. *)
Definition pointInside (i : nat) (px py : Q) : bool :=
  Qle_bool (-(1)) px && negb (Qle_bool (sliderWidth - 1) px) &&
  negb (Qle_bool py (bottom i)) && negb (Qle_bool (top i) py).

(** The argument of [CLAMP] in [coordToValue]. *)
Definition rawValue (s : t) (x : Q) : Q :=
  (1 + x) / sliderWidth * (max s - min s) + min s.

Definition coordToValue (s : t) (x : Q) : Q :=
  let v := Util.CLAMP (rawValue s x) (min s) (max s) in
  Util.round v (decimals s).

(** [fraction()], given the current value of the bound field. *)
Definition fraction (s : t) (cur : Q) : Q :=
  let f := (cur - min s) / (max s - min s) in
  if Qlt_le_dec f 1 then f else 1.

End Slider.

(* ================================================================= *)
(** ** Orbital model: HWaveFunc, createHWaveFunc, value *)

Module Math.

Local Open Scope R_scope.

(** Modelled from the spec: [fact] (math.hpp) is not among the sources;
    the spec writes the normalisation with factorials (n-l-1)! and (n+l)!. *)
Definition fact (k : Z) : R := INR (Factorial.fact (Z.to_nat k)).

(** Modelled from the spec: [laguerre(coeff, k, alpha)] (math.hpp) is not
    among the sources; the spec says it yields the "coefficients of the
    generalized Laguerre polynomial".  [laguerre k alpha i] is the entry
    written at index [i] of the caller's zeroed array: the coefficient of
    x^i in L_k^(alpha)(x) = sum_i (-1)^i C(k+alpha, k-i) x^i / i!. *)
Definition laguerre (k alpha : Z) (i : nat) : R :=
  let k' := Z.to_nat k in
  let a' := Z.to_nat alpha in
  if (i <=? k')%nat then
    (-1) ^ i * INR (Factorial.fact (k' + a'))
    / (INR (Factorial.fact (k' - i)) * INR (Factorial.fact (a' + i))
       * INR (Factorial.fact i))
  else 0.

(** Coefficient of x^j in the Legendre polynomial P_l:
    P_l(x) = 2^-l sum_k (-1)^k C(l,k) C(2l-2k,l) x^(l-2k). *)
Definition legendre (l j : nat) : R :=
  if ((j <=? l) && Nat.even (l - j))%nat then
    let k := ((l - j) / 2)%nat in
    (-1) ^ k * INR (Factorial.fact (2 * l - 2 * k))
    / (2 ^ l * INR (Factorial.fact k) * INR (Factorial.fact (l - k))
       * INR (Factorial.fact (l - 2 * k)))
  else 0.

(** Modelled from the spec: [sphericalHarmonics(coeff, l, m)] (math.hpp)
    is not among the sources; the spec says it yields the "coefficients of
    the associated-Legendre-derived polynomial in cos(theta) for degree l,
    order m", the factor sin^|m|(theta) and the azimuthal term being
    applied separately.  [sphericalHarmonics l m i] is the entry written
    at index [i]: the coefficient of x^i in the |m|-th derivative of P_l,
    times the normalisation sqrt((2l+1)/(4 pi) (l-|m|)!/(l+|m|)!).  The
    overall sign convention plays no role below. *)
Definition sphericalHarmonics (l m : Z) (i : nat) : R :=
  let l' := Z.to_nat l in
  let mu := Z.to_nat (Z.abs m) in
  sqrt (INR (2 * l' + 1) / (4 * PI)
        * INR (Factorial.fact (l' - mu)) / INR (Factorial.fact (l' + mu)))
  * (legendre l' (i + mu) * INR (Factorial.fact (i + mu))
     / INR (Factorial.fact i)).

End Math.

Definition maxHPolyTermCount : nat := 30.

(** A [double[maxHPolyTermCount]] filled by a coefficient routine: entry
    [i] is what the routine writes at index [i] (zero where it writes
    nothing, the array being zero-initialised by the caller). *)
Definition coeffArray (f : nat -> R) : list R :=
  map f (seq 0 maxHPolyTermCount).

Module Complex.
Record t : Type := mk { a : R; b : R }.
End Complex.

Module HWaveFunc.
Record t : Type := mk {
  normalization : R;        (* C *)
  laguerreCoeff : list R;   (* coefficients for rho^i in L(rho) *)
  spheCoeff : list R;       (* coefficients for cos(theta)^i in Y(theta) *)
  phase : R;                (* addition to complex phase in Y *)
  n : Z;
  l : Z;
  m : Z;
  a0 : R                    (* Bohr radius *)
}.
End HWaveFunc.

(** The loop [for (i= 0; i < maxHPolyTermCount; ++i) sum += c[i]*pow(x, i)]. *)
Definition polySum (c : list R) (x : R) : R :=
  fold_left (fun sum i => (sum + nth i c 0 * x ^ i)%R)
            (seq 0 maxHPolyTermCount) 0%R.

Section Orbital.

(** The coefficient routines of math.hpp, as parameters. *)
Variable laguerre : Z -> Z -> nat -> R.
Variable sphericalHarmonics : Z -> Z -> nat -> R.

Local Open Scope R_scope.

(** The normalisation factor, written identically in [createHWaveFunc]
    and in [hydrogenWaveFuncStr]. *)
Definition normalizationFactor (n l : Z) (bohr_radius : R) : R :=
  sqrt ((2 / (IZR n * bohr_radius)) ^ 3
        * Math.fact (n - l - 1) / (2 * IZR n * Math.fact (n + l))).

(** [createHWaveFunc]; [None] when one of its assertions fires. *)
Definition createHWaveFunc (n l m : Z) (phase bohr_radius : R)
  : option HWaveFunc.t :=
  if negb ((n >? 0) && (l >=? 0))%Z then None else
  if negb (Z.abs n >? Z.abs l)%Z then None else
  if negb (Z.abs l >=? Z.abs m)%Z then None else
  if negb (n - l <? Z.of_nat maxHPolyTermCount)%Z then None else
  if negb (l - 1 <? Z.of_nat maxHPolyTermCount)%Z then None else
  Some (HWaveFunc.mk
          (normalizationFactor n l bohr_radius)
          (coeffArray (laguerre (n - l - 1) (2 * l + 1)))
          (coeffArray (sphericalHarmonics l m))
          phase n l m bohr_radius).

(** The radial variable as [value] computes it: the local constant
    [a_0 = 1.0] is used, not the field [a0]. *)
Definition value_rho (w : HWaveFunc.t) (r : R) : R :=
  let a_0 := 1 in
  2 * r / (IZR (HWaveFunc.n w) * a_0).

(** The real amplitude accumulated by [value] (factors C, E, L, Y). *)
Definition value_amplitude (w : HWaveFunc.t) (r theta : R) : R :=
  let rho := value_rho w r in
  let amplitude := HWaveFunc.normalization w in
  let amplitude := amplitude * (exp (- rho / 2) * powerRZ rho (HWaveFunc.l w)) in
  let amplitude := amplitude * polySum (HWaveFunc.laguerreCoeff w) rho in
  let cos_theta := cos theta in
  let sum := polySum (HWaveFunc.spheCoeff w) cos_theta in
  amplitude * (powerRZ (sin theta) (HWaveFunc.m w) * sum).

(** The complex phase accumulated by [value]. *)
Definition value_phase (w : HWaveFunc.t) (phi : R) : R :=
  0 + (IZR (HWaveFunc.m w) * phi + HWaveFunc.phase w).

Definition value (w : HWaveFunc.t) (r theta phi : R) : Complex.t :=
  let amplitude := value_amplitude w r theta in
  let phase := value_phase w phi in
  Complex.mk (amplitude * cos phase) (amplitude * sin phase).

(** Modulus of a complex number. *)
Definition Cmod (z : Complex.t) : R :=
  sqrt (Complex.a z * Complex.a z + Complex.b z * Complex.b z).

End Orbital.

(* ================================================================= *)
(** ** The device language: expressions and statements the host emits *)

(** Scalar variables of the fragment shader that the generated text uses;
    [Va i] and [Vp i] are the identifiers printed as [a_%i] and [p_%i]. *)
Inductive svar : Type :=
| Vr | Vphi | Vcos_theta | Vtheta | Vsin_theta | Vdist
| Vtotal_real | Vtotal_imag
| Va (i : nat) | Vp (i : nat).

(** [vec3] variables. *)
Inductive vvar : Type := Vcart_p | Vv_pos | Vn.

Inductive axis : Type := AxX | AxY | AxZ.

(** One-argument functions called by the generated text. *)
Inductive fn1 : Type := Fexp | Fabs | Fsign | Fsin | Fcos | Fsqrt | Facos.

(** Expressions.  [Lit c] is a float literal (a constant of the format
    string or a [%e] conversion of [c]); [IntLit k] is the text [%i.0];
    [Sum ts] is the parenthesised text [(+t1+t2...)] that the coefficient
    loops produce, [Sum []] being the ill-formed text [()]. *)
#[local] Unset Elimination Schemes.
Inductive expr : Type :=
| Lit (c : R)
| IntLit (k : Z)
| Var (x : svar)
| Comp (v : vexpr) (ax : axis)
| Neg (e : expr)
| Add (e1 e2 : expr)
| Mul (e1 e2 : expr)
| Div (e1 e2 : expr)
| Sum (ts : list expr)
| Call (f : fn1) (e : expr)
| Pow (e1 e2 : expr)
| Atan2 (e1 e2 : expr)
| Dot (v1 v2 : vexpr)
with vexpr : Type :=
| VVar (x : vvar)
| VAdd (v1 v2 : vexpr)
| VScale (v : vexpr) (e : expr)
| Vec3 (e1 e2 e3 : expr).
#[local] Set Elimination Schemes.

(** Statements of the macro [CALC_TOTAL_WAVEFUNC]:
    [x= e;], [float x= (e);], [x += e;] and [v= ve;]. *)
Inductive stmt : Type :=
| SAssign (x : svar) (e : expr)
| SDecl (x : svar) (e : expr)
| SAddAssign (x : svar) (e : expr)
| VAssign (x : vvar) (v : vexpr).

Record vec3 : Type := V3 { vx : R; vy : R; vz : R }.

Module Glsl.

Local Open Scope R_scope.

Definition svar_eqb (x y : svar) : bool :=
  match x, y with
  | Vr, Vr | Vphi, Vphi | Vcos_theta, Vcos_theta | Vtheta, Vtheta
  | Vsin_theta, Vsin_theta | Vdist, Vdist
  | Vtotal_real, Vtotal_real | Vtotal_imag, Vtotal_imag => true
  | Va i, Va j | Vp i, Vp j => Nat.eqb i j
  | _, _ => false
  end.

Definition vvar_eqb (x y : vvar) : bool :=
  match x, y with
  | Vcart_p, Vcart_p | Vv_pos, Vv_pos | Vn, Vn => true
  | _, _ => false
  end.

(** The variables of one fragment-shader invocation. *)
Record state : Type := mkState { sv : svar -> R; vv : vvar -> vec3 }.

Definition set_s (st : state) (x : svar) (v : R) : state :=
  mkState (fun y => if svar_eqb x y then v else sv st y) (vv st).

Definition set_v (st : state) (x : vvar) (v : vec3) : state :=
  mkState (sv st) (fun y => if vvar_eqb x y then v else vv st y).

Definition bind {A B} (o : option A) (k : A -> option B) : option B :=
  match o with Some x => k x | None => None end.

Definition lift2 (f : R -> R -> R) (a b : option R) : option R :=
  bind a (fun x => bind b (fun y => Some (f x y))).

(** [sign(x)]. *)
Definition sign (x : R) : R :=
  if Rlt_dec 0 x then 1 else if Rlt_dec x 0 then -1 else 0.

(** [pow(x, y)]: x^y for x > 0, 0 for x = 0 and y > 0; the language
    leaves the result undefined for x < 0 and for x = 0, y <= 0. *)
Definition pow (x y : R) : option R :=
  if Rlt_dec 0 x then Some (Rpower x y)
  else if Req_dec_T x 0 then (if Rlt_dec 0 y then Some 0 else None)
  else None.

(** The built-in two-argument [atan(y, x)]: the angle of the point (x, y)
    in (-pi, pi]; undefined at the origin. *)
Definition atan_yx (y x : R) : option R :=
  if Rlt_dec 0 x then Some (atan (y / x))
  else if Rlt_dec x 0 then
    (if Rle_dec 0 y then Some (atan (y / x) + PI) else Some (atan (y / x) - PI))
  else if Rlt_dec 0 y then Some (PI / 2)
  else if Rlt_dec y 0 then Some (- PI / 2)
  else None.

(** [float atan2(float y, float x)] as the fragment template defines it. *)
Definition atan2 (y x : R) : option R :=
  if Rlt_dec (Rabs y) (Rabs x) then atan_yx y x
  else option_map (fun t => 31415927 / 10000000 / 2 - t) (atan_yx x y).

Definition call (f : fn1) (x : R) : option R :=
  match f with
  | Fexp => Some (exp x)
  | Fabs => Some (Rabs x)
  | Fsign => Some (sign x)
  | Fsin => Some (sin x)
  | Fcos => Some (cos x)
  | Fsqrt => if Rlt_dec x 0 then None else Some (sqrt x)
  | Facos => if Rlt_dec 1 (Rabs x) then None else Some (acos x)
  end.

Definition comp (v : vec3) (ax : axis) : R :=
  match ax with AxX => vx v | AxY => vy v | AxZ => vz v end.

Definition vadd (u v : vec3) : vec3 := V3 (vx u + vx v) (vy u + vy v) (vz u + vz v).
Definition vsub (u v : vec3) : vec3 := V3 (vx u - vx v) (vy u - vy v) (vz u - vz v).
Definition vscale (u : vec3) (k : R) : vec3 := V3 (vx u * k) (vy u * k) (vz u * k).
Definition dot (u v : vec3) : R := vx u * vx v + vy u * vy v + vz u * vz v.

(** Value of an expression; [None] when the text is ill-formed or the
    language leaves a result it needs undefined. *)
Fixpoint eval (st : state) (e : expr) {struct e} : option R :=
  match e with
  | Lit c => Some c
  | IntLit k => Some (IZR k)
  | Var x => Some (sv st x)
  | Comp v ax => option_map (fun u => comp u ax) (veval st v)
  | Neg e1 => option_map Ropp (eval st e1)
  | Add e1 e2 => lift2 Rplus (eval st e1) (eval st e2)
  | Mul e1 e2 => lift2 Rmult (eval st e1) (eval st e2)
  | Div e1 e2 =>
      bind (eval st e1) (fun x =>
      bind (eval st e2) (fun y =>
        if Req_dec_T y 0 then None else Some (x / y)))
  | Sum ts =>
      match ts with
      | [] => None
      | _ =>
        (fix go (l : list expr) : option R :=
           match l with
           | [] => Some 0
           | t :: l' => lift2 Rplus (eval st t) (go l')
           end) ts
      end
  | Call f e1 => bind (eval st e1) (call f)
  | Pow e1 e2 =>
      bind (eval st e1) (fun x => bind (eval st e2) (fun y => pow x y))
  | Atan2 e1 e2 =>
      bind (eval st e1) (fun y => bind (eval st e2) (fun x => atan2 y x))
  | Dot v1 v2 =>
      bind (veval st v1) (fun u => bind (veval st v2) (fun v => Some (dot u v)))
  end
with veval (st : state) (v : vexpr) {struct v} : option vec3 :=
  match v with
  | VVar x => Some (vv st x)
  | VAdd v1 v2 =>
      bind (veval st v1) (fun a => bind (veval st v2) (fun b => Some (vadd a b)))
  | VScale v1 e =>
      bind (veval st v1) (fun a => bind (eval st e) (fun k => Some (vscale a k)))
  | Vec3 e1 e2 e3 =>
      bind (eval st e1) (fun x => bind (eval st e2) (fun y =>
      bind (eval st e3) (fun z => Some (V3 x y z))))
  end.

(** The sum of a term list, as [eval] computes it for [Sum]. *)
Fixpoint evalTerms (st : state) (ts : list expr) : option R :=
  match ts with
  | [] => Some 0
  | t :: l' => lift2 Rplus (eval st t) (evalTerms st l')
  end.

Definition exec1 (st : state) (s : stmt) : option state :=
  match s with
  | SAssign x e | SDecl x e => option_map (set_s st x) (eval st e)
  | SAddAssign x e => option_map (fun v => set_s st x (sv st x + v)) (eval st e)
  | VAssign x v => option_map (set_v st x) (veval st v)
  end.

Fixpoint exec (st : state) (ss : list stmt) : option state :=
  match ss with
  | [] => Some st
  | s :: ss' => bind (exec1 st s) (fun st' => exec st' ss')
  end.

End Glsl.

(* ================================================================= *)
(** ** Formula compiler: hydrogenWaveFuncStr *)

Section Compiler.

Variable laguerre : Z -> Z -> nat -> R.
Variable sphericalHarmonics : Z -> Z -> nat -> R.

Local Open Scope R_scope.

(** The text [%e*r] held in [rho_str]. *)
Definition rho_str (n : Z) (bohr_radius : R) : expr :=
  Mul (Lit (2 / bohr_radius / IZR n)) (Var Vr).

(** The text [-%s] for a product text [%s]: the sign attaches to the
    leftmost factor. *)
Fixpoint neg_prefix (e : expr) : expr :=
  match e with
  | Mul e1 e2 => Mul (neg_prefix e1) e2
  | _ => Neg e
  end.

(** The cosmetic brightness factor [1.0 + 2.0*std::pow(n, 2.5)]. *)
Definition brightness (n : Z) : R := 1 + 2 * Rpower (IZR n) (5 / 2).

(** Terms appended by the Laguerre loop: one per non-zero coefficient,
    [+%e] followed, for i <> 0, by [*pow(%s, %i.0)]. *)
Definition laguerreTerms (rho : expr) (coeff : list R) : list expr :=
  flat_map (fun i =>
    let c := nth i coeff 0 in
    if Req_dec_T c 0 then []
    else [ if Nat.eqb i 0 then Lit c
           else Mul (Lit c) (Pow rho (IntLit (Z.of_nat i))) ])
    (seq 0 maxHPolyTermCount).

(** Terms appended by the spherical loop: [+(%e)] followed, for i <> 0,
    by [*%s*pow(abs(cos_theta), %i.0)] with [%s] being [sign(cos_theta)]
    for odd i and [1.0] for even i. *)
Definition sphericalTerms (coeff : list R) : list expr :=
  flat_map (fun i =>
    let c := nth i coeff 0 in
    if Req_dec_T c 0 then []
    else [ if Nat.eqb i 0 then Lit c
           else Mul (Mul (Lit c)
                         (if Nat.odd i then Call Fsign (Var Vcos_theta) else Lit 1))
                    (Pow (Call Fabs (Var Vcos_theta)) (IntLit (Z.of_nat i))) ])
    (seq 0 maxHPolyTermCount).

(** The factor [%s*pow(abs(sin_theta), %i.0)*] appended when m <> 0. *)
Definition sinFactors (m : Z) : list expr :=
  if (m =? 0)%Z then []
  else [ if Z.odd (Z.abs m) then Call Fsign (Var Vsin_theta) else Lit 1;
         Pow (Call Fabs (Var Vsin_theta)) (IntLit (Z.abs m)) ].

(** The quantum numbers after the clamping at the head of
    [hydrogenWaveFuncStr]. *)
Definition clamp_l (n l : Z) : Z := if (l >? n - 1)%Z then (n - 1)%Z else l.

Definition clamp_m (l m : Z) : Z :=
  let m := if ((m >? 0) && (m >? l))%Z then l else m in
  if ((m <? 0) && (m <? - l))%Z then (- l)%Z else m.

(** [hydrogenWaveFuncStr]: the amplitude and the phase expression, or
    [None] when an assertion fires.  (The first assertion, on the two
    string buffers, holds for every buffer made by [createString].) *)
Definition hydrogenWaveFuncStr (n l m : Z) (phase : R) : option (expr * expr) :=
  let bohr_radius := 1 in
  let poly_term_count := Z.of_nat maxHPolyTermCount in
  if negb ((n >? 0) && (l >=? 0))%Z then None else
  let l := clamp_l n l in
  let m := clamp_m l m in
  let rho := rho_str n bohr_radius in
  (* C *)
  let c_part := Mul (Lit (normalizationFactor n l bohr_radius)) (Lit (brightness n)) in
  (* E *)
  let e_part := [ Call Fexp (Div (neg_prefix rho) (Lit 2)); Pow rho (IntLit l) ] in
  (* L *)
  if negb (n - l <? poly_term_count)%Z then None else
  let l_part := Sum (laguerreTerms rho (coeffArray (laguerre (n - l - 1) (2 * l + 1)))) in
  (* Y *)
  if negb (l - 1 <? poly_term_count)%Z then None else
  let y_part := Sum (sphericalTerms (coeffArray (sphericalHarmonics l m))) in
  let amplitude :=
    fold_left Mul (e_part ++ [l_part] ++ sinFactors m ++ [y_part]) c_part in
  let phase_str := Add (Mul (IntLit m) (Var Vphi)) (Lit phase) in
  Some (amplitude, phase_str).

(* ================================================================= *)
(** ** Shader assembler: createVolumeShader *)

(** The statements appended to [CALC_TOTAL_WAVEFUNC] for wave [i]. *)
Definition waveStmts (i : nat) (w : Wave.t) (amp ph : expr) : list stmt :=
  [ VAssign Vcart_p
      (VAdd (VAdd (VVar Vv_pos) (VScale (VVar Vn) (Var Vdist)))
            (Vec3 (Lit 0) (Lit 0) (Lit (Q2R (Wave.translation w)))));
    SAssign Vr (Call Fsqrt (Dot (VVar Vcart_p) (VVar Vcart_p)));
    SAssign Vphi (Atan2 (Comp (VVar Vcart_p) AxY) (Comp (VVar Vcart_p) AxX));
    SAssign Vcos_theta (Div (Comp (VVar Vcart_p) AxZ) (Var Vr));
    SAssign Vtheta (Call Facos (Var Vcos_theta));
    SAssign Vsin_theta (Call Fsin (Var Vtheta));
    SDecl (Va i) amp;
    SDecl (Vp i) ph;
    SAddAssign Vtotal_real
      (Mul (Mul (Var (Va i)) (Call Fcos (Var (Vp i))))
           (Lit (Q2R (Wave.amplitude w))));
    SAddAssign Vtotal_imag (Mul (Var (Va i)) (Call Fsin (Var (Vp i)))) ].

(** A wave is left out of the macro when [amplitude <= 0.001]. *)
Definition skipped (w : Wave.t) : bool := Qle_bool (Wave.amplitude w) (1 # 1000).

(** The loop building [calc_total_wavefunc_define], from index [i] on;
    each wave comes with its two compiled strings. *)
Fixpoint calcTotalWavefunc (i : nat) (ws : list (Wave.t * (expr * expr)))
  : list stmt :=
  match ws with
  | [] => []
  | (w, (amp, ph)) :: rest =>
      (if skipped w then [] else waveStmts i w amp ph)
      ++ calcTotalWavefunc (S i) rest
  end.

(** The first loop of [createVolumeShader]: every wave is compiled, the
    [float] quantum numbers being converted to [int]. *)
Fixpoint compileWaves (ws : list Wave.t) : option (list (expr * expr)) :=
  match ws with
  | [] => Some []
  | w :: rest =>
      match hydrogenWaveFuncStr (Util.to_int (Wave.n w)) (Util.to_int (Wave.l w))
                                (Util.to_int (Wave.m w)) (Q2R (Wave.phase w)) with
      | None => None
      | Some f =>
          match compileWaves rest with
          | None => None
          | Some fs => Some (f :: fs)
          end
      end
  end.

End Compiler.

(** What [createVolumeShader] hands to the GL compiler: the four
    [#define]d constants and the macro; the fragment template is fixed.
    This stands for the compiled [VolumeShader]. *)
Module VolumeShader.
Record t : Type := mk {
  SAMPLE_COUNT : Z;
  COMPLEX_COLOR : Z;
  ABSORPTION_MUL : R;
  CUTOFF : R;
  CALC_TOTAL_WAVEFUNC : list stmt
}.
End VolumeShader.

(** [createVolumeShader]; [None] when an assertion fires.  [testMath()]
    and the GL compilation itself are outside the model. *)
Definition createVolumeShader (laguerre sphericalHarmonics : Z -> Z -> nat -> R)
    (sample_count : Z) (complex_color : bool) (absorption cutoff : Q)
    (waves : list Wave.t) : option VolumeShader.t :=
  if Nat.eqb (List.length waves) 0 then None else
  match compileWaves laguerre sphericalHarmonics waves with
  | None => None
  | Some frags =>
      Some (VolumeShader.mk sample_count (if complex_color then 1 else 0)%Z
              (Q2R absorption) (Q2R cutoff)
              (calcTotalWavefunc 0 (combine waves frags)))
  end.

(* ================================================================= *)
(** ** The fragment template of createVolumeShader *)

Module Fragment.

Import Glsl.
Local Open Scope R_scope.

Record uniforms : Type := mkUniforms {
  u_phase : R; u_time : R; u_rayLength : R; u_color : vec3
}.

(** [normalize(v)]; undefined for the zero vector. *)
Definition normalize (v : vec3) : option vec3 :=
  let len := sqrt (dot v v) in
  if Req_dec_T len 0 then None else Some (vscale v (/ len)).

(** [float rand(vec2 co)]. *)
Definition rand (cx cy : R) : R :=
  frac_part (sin (cx * (129898 / 10000) + cy * (78233 / 1000))
             * (437585453 / 10000)).

(** The three statements computing [P] from the totals:
    [total_amplitude= total_real*total_real + total_imag*total_imag;]
    [P= total_amplitude*total_amplitude;]  [if (P < CUTOFF) P= 0;]. *)
Definition sampleP (CUTOFF total_real total_imag : R) : R :=
  let total_amplitude := total_real * total_real + total_imag * total_imag in
  let P := total_amplitude * total_amplitude in
  if Rlt_dec P CUTOFF then 0 else P.

(** [emission], under [#if COMPLEX_COLOR == 1] or its [#else]. *)
Definition emission (shd : VolumeShader.t) (color : vec3)
    (P total_real total_imag : R) : option vec3 :=
  if (VolumeShader.COMPLEX_COLOR shd =? 1)%Z then
    bind (atan2 total_imag total_real) (fun total_complex_phase =>
    bind (normalize (V3 (1 / 2 - 1 / 2 * cos total_complex_phase) (2 / 10)
                        (1 / 2 + 1 / 2 * sin total_complex_phase)))
         (fun d => Some (vscale d P)))
  else Some (vscale color P).

(** [max(vec3(0.0, 0.0, 0.0), v)]. *)
Definition vmax0 (v : vec3) : vec3 :=
  V3 (Rmax 0 (vx v)) (Rmax 0 (vy v)) (Rmax 0 (vz v)).

(** One pass through the body of the sampling loop, for loop index [i];
    [st] holds [v_pos] and [n].  The result is the new [intensity] and
    the value of [P] (kept in [last_P]). *)
Definition sample (shd : VolumeShader.t) (u : uniforms) (st : state)
    (i : Z) (intensity : vec3) : option (vec3 * R) :=
  let SAMPLE_COUNT := VolumeShader.SAMPLE_COUNT shd in
  let color := u_color u in
  let dl := u_rayLength u / IZR SAMPLE_COUNT in
  let dist := u_rayLength u * IZR (SAMPLE_COUNT - i - 1) / IZR SAMPLE_COUNT in
  let st := set_s st Vdist dist in
  let st := set_s st Vtotal_real 0 in
  let st := set_s st Vtotal_imag 0 in
  bind (exec st (VolumeShader.CALC_TOTAL_WAVEFUNC shd)) (fun st' =>
  let total_real := sv st' Vtotal_real in
  let total_imag := sv st' Vtotal_imag in
  let P := sampleP (VolumeShader.CUTOFF shd) total_real total_imag in
  bind (emission shd color P total_real total_imag) (fun em =>
  let absorption := P * VolumeShader.ABSORPTION_MUL shd in
  let intensity :=
    vadd intensity (vscale (vsub em (vscale intensity absorption)) dl) in
  let intensity := vmax0 intensity in
  Some (intensity, P))).

(** [for (int i= 0; i < SAMPLE_COUNT; ++i)], with [k] passes left. *)
Fixpoint sampleLoop (shd : VolumeShader.t) (u : uniforms) (st : state)
    (k : nat) (i : Z) (intensity : vec3) (last_P : R) : option (vec3 * R) :=
  match k with
  | O => Some (intensity, last_P)
  | S k' =>
      bind (sample shd u st i intensity) (fun r =>
        sampleLoop shd u st k' (i + 1)%Z (fst r) (snd r))
  end.

(** [void main()]: the colour written to [gl_FragColor]; [st0] gives
    the values of the variables [main] declares without initialising. *)
Definition main (shd : VolumeShader.t) (u : uniforms)
    (v_pos v_normal : vec3) (v_uv : R * R) (st0 : state) : option vec3 :=
  bind (normalize v_normal) (fun n =>
  let st := set_v (set_v st0 Vv_pos v_pos) Vn n in
  bind (sampleLoop shd u st (Z.to_nat (VolumeShader.SAMPLE_COUNT shd)) 0%Z
                   (V3 0 0 0) 0)
       (fun r =>
  let noise := rand (fst v_uv * u_time u) (snd v_uv * u_time u) * (15 / 1000) in
  Some (vadd (fst r) (V3 noise noise noise)))).

End Fragment.

(* ================================================================= *)
(** ** Program state *)

Module Env.
(** The members of [Env] (env.hpp) that [init] and [frame] read. *)
Record t : Type := mk {
  dt : Q;
  anchorPos : Q * Q;
  cursorPos : Q * Q;
  cursorDelta : Q * Q;
  lmbDown : bool;
  winSize : Z * Z
}.
End Env.

Module VolumeFbo.
Record t : Type := mk { reso : Z * Z; filtering : bool }.
End VolumeFbo.

(** Calls that create or destroy GL objects, in the order made. *)
Inductive GlEvent : Type :=
| DestroyGlShaderProgram
| CreateVolumeShader (shd : VolumeShader.t)
| DestroyFbo
| CreateFbo (reso : Z * Z) (filtering : bool).

Definition Program_maxSliders : nat := 32.
Definition Program_maxWaves : nat := 2.

Module Program.

(** [struct Program]: the members the model follows, the two function
    statics of [frame] ([prev_delta], [rot]) and the list of GL calls made
    so far (newest first). *)
Record t : Type := mk {
  shader : VolumeShader.t;
  fbo : VolumeFbo.t;
  time : Q;
  phase : Q;
  sampleCount : Q;
  resoMul : Q;
  filtering : Q;
  r : Q; g : Q; b : Q;
  complexColor : Q;
  absorption : Q;
  cutoff : Q;
  distance : Q;
  waves : list Wave.t;
  sliders : list Slider.t;
  prev_delta : Q * Q;
  rot : Q * Q;
  glCalls : list GlEvent
}.

Definition set_shader (p : t) v : t :=
  mk v (fbo p) (time p) (phase p) (sampleCount p) (resoMul p) (filtering p) (r p) (g p) (b p) (complexColor p) (absorption p) (cutoff p) (distance p) (waves p) (sliders p) (prev_delta p) (rot p) (glCalls p).
Definition set_fbo (p : t) v : t :=
  mk (shader p) v (time p) (phase p) (sampleCount p) (resoMul p) (filtering p) (r p) (g p) (b p) (complexColor p) (absorption p) (cutoff p) (distance p) (waves p) (sliders p) (prev_delta p) (rot p) (glCalls p).
Definition set_time (p : t) v : t :=
  mk (shader p) (fbo p) v (phase p) (sampleCount p) (resoMul p) (filtering p) (r p) (g p) (b p) (complexColor p) (absorption p) (cutoff p) (distance p) (waves p) (sliders p) (prev_delta p) (rot p) (glCalls p).
Definition set_phase (p : t) v : t :=
  mk (shader p) (fbo p) (time p) v (sampleCount p) (resoMul p) (filtering p) (r p) (g p) (b p) (complexColor p) (absorption p) (cutoff p) (distance p) (waves p) (sliders p) (prev_delta p) (rot p) (glCalls p).
Definition set_sampleCount (p : t) v : t :=
  mk (shader p) (fbo p) (time p) (phase p) v (resoMul p) (filtering p) (r p) (g p) (b p) (complexColor p) (absorption p) (cutoff p) (distance p) (waves p) (sliders p) (prev_delta p) (rot p) (glCalls p).
Definition set_resoMul (p : t) v : t :=
  mk (shader p) (fbo p) (time p) (phase p) (sampleCount p) v (filtering p) (r p) (g p) (b p) (complexColor p) (absorption p) (cutoff p) (distance p) (waves p) (sliders p) (prev_delta p) (rot p) (glCalls p).
Definition set_filtering (p : t) v : t :=
  mk (shader p) (fbo p) (time p) (phase p) (sampleCount p) (resoMul p) v (r p) (g p) (b p) (complexColor p) (absorption p) (cutoff p) (distance p) (waves p) (sliders p) (prev_delta p) (rot p) (glCalls p).
Definition set_r (p : t) v : t :=
  mk (shader p) (fbo p) (time p) (phase p) (sampleCount p) (resoMul p) (filtering p) v (g p) (b p) (complexColor p) (absorption p) (cutoff p) (distance p) (waves p) (sliders p) (prev_delta p) (rot p) (glCalls p).
Definition set_g (p : t) v : t :=
  mk (shader p) (fbo p) (time p) (phase p) (sampleCount p) (resoMul p) (filtering p) (r p) v (b p) (complexColor p) (absorption p) (cutoff p) (distance p) (waves p) (sliders p) (prev_delta p) (rot p) (glCalls p).
Definition set_b (p : t) v : t :=
  mk (shader p) (fbo p) (time p) (phase p) (sampleCount p) (resoMul p) (filtering p) (r p) (g p) v (complexColor p) (absorption p) (cutoff p) (distance p) (waves p) (sliders p) (prev_delta p) (rot p) (glCalls p).
Definition set_complexColor (p : t) v : t :=
  mk (shader p) (fbo p) (time p) (phase p) (sampleCount p) (resoMul p) (filtering p) (r p) (g p) (b p) v (absorption p) (cutoff p) (distance p) (waves p) (sliders p) (prev_delta p) (rot p) (glCalls p).
Definition set_absorption (p : t) v : t :=
  mk (shader p) (fbo p) (time p) (phase p) (sampleCount p) (resoMul p) (filtering p) (r p) (g p) (b p) (complexColor p) v (cutoff p) (distance p) (waves p) (sliders p) (prev_delta p) (rot p) (glCalls p).
Definition set_cutoff (p : t) v : t :=
  mk (shader p) (fbo p) (time p) (phase p) (sampleCount p) (resoMul p) (filtering p) (r p) (g p) (b p) (complexColor p) (absorption p) v (distance p) (waves p) (sliders p) (prev_delta p) (rot p) (glCalls p).
Definition set_distance (p : t) v : t :=
  mk (shader p) (fbo p) (time p) (phase p) (sampleCount p) (resoMul p) (filtering p) (r p) (g p) (b p) (complexColor p) (absorption p) (cutoff p) v (waves p) (sliders p) (prev_delta p) (rot p) (glCalls p).
Definition set_waves (p : t) v : t :=
  mk (shader p) (fbo p) (time p) (phase p) (sampleCount p) (resoMul p) (filtering p) (r p) (g p) (b p) (complexColor p) (absorption p) (cutoff p) (distance p) v (sliders p) (prev_delta p) (rot p) (glCalls p).
Definition set_sliders (p : t) v : t :=
  mk (shader p) (fbo p) (time p) (phase p) (sampleCount p) (resoMul p) (filtering p) (r p) (g p) (b p) (complexColor p) (absorption p) (cutoff p) (distance p) (waves p) v (prev_delta p) (rot p) (glCalls p).
Definition set_prev_delta (p : t) v : t :=
  mk (shader p) (fbo p) (time p) (phase p) (sampleCount p) (resoMul p) (filtering p) (r p) (g p) (b p) (complexColor p) (absorption p) (cutoff p) (distance p) (waves p) (sliders p) v (rot p) (glCalls p).
Definition set_rot (p : t) v : t :=
  mk (shader p) (fbo p) (time p) (phase p) (sampleCount p) (resoMul p) (filtering p) (r p) (g p) (b p) (complexColor p) (absorption p) (cutoff p) (distance p) (waves p) (sliders p) (prev_delta p) v (glCalls p).
Definition set_glCalls (p : t) v : t :=
  mk (shader p) (fbo p) (time p) (phase p) (sampleCount p) (resoMul p) (filtering p) (r p) (g p) (b p) (complexColor p) (absorption p) (cutoff p) (distance p) (waves p) (sliders p) (prev_delta p) (rot p) v.

End Program.

(* ================================================================= *)
(** ** Reading and writing through a slider's pointer *)

Section Host.

Variable laguerre : Z -> Z -> nat -> R.
Variable sphericalHarmonics : Z -> Z -> nat -> R.

Local Open Scope Q_scope.

Definition waveGet (f : Wave.t -> Q) (i : nat) (p : Program.t) : Q :=
  f (nth i (Program.waves p) Wave.zero).

Fixpoint waveUpd (f : Wave.t -> Wave.t) (i : nat) (ws : list Wave.t)
  : list Wave.t :=
  match ws, i with
  | [], _ => []
  | w :: rest, O => f w :: rest
  | w :: rest, S i' => w :: waveUpd f i' rest
  end.

Definition waveSet (f : Wave.t -> Wave.t) (i : nat) (p : Program.t) : Program.t :=
  Program.set_waves p (waveUpd f i (Program.waves p)).

(** [*s.value]. *)
Definition getField (fld : field) (p : Program.t) : Q :=
  match fld with
  | FPhase => Program.phase p
  | FSampleCount => Program.sampleCount p
  | FResoMul => Program.resoMul p
  | FFiltering => Program.filtering p
  | FR => Program.r p
  | FG => Program.g p
  | FB => Program.b p
  | FComplexColor => Program.complexColor p
  | FAbsorption => Program.absorption p
  | FCutoff => Program.cutoff p
  | FDistance => Program.distance p
  | FWaveAmplitude i => waveGet Wave.amplitude i p
  | FWavePhase i => waveGet Wave.phase i p
  | FWaveN i => waveGet Wave.n i p
  | FWaveL i => waveGet Wave.l i p
  | FWaveM i => waveGet Wave.m i p
  | FWaveTranslation i => waveGet Wave.translation i p
  end.

(** [*s.value= v]. *)
Definition setField (fld : field) (v : Q) (p : Program.t) : Program.t :=
  match fld with
  | FPhase => Program.set_phase p v
  | FSampleCount => Program.set_sampleCount p v
  | FResoMul => Program.set_resoMul p v
  | FFiltering => Program.set_filtering p v
  | FR => Program.set_r p v
  | FG => Program.set_g p v
  | FB => Program.set_b p v
  | FComplexColor => Program.set_complexColor p v
  | FAbsorption => Program.set_absorption p v
  | FCutoff => Program.set_cutoff p v
  | FDistance => Program.set_distance p v
  | FWaveAmplitude i =>
      waveSet (fun w => Wave.mk v (Wave.phase w) (Wave.n w) (Wave.l w)
                                (Wave.m w) (Wave.translation w) (Wave.particle w)) i p
  | FWavePhase i =>
      waveSet (fun w => Wave.mk (Wave.amplitude w) v (Wave.n w) (Wave.l w)
                                (Wave.m w) (Wave.translation w) (Wave.particle w)) i p
  | FWaveN i =>
      waveSet (fun w => Wave.mk (Wave.amplitude w) (Wave.phase w) v (Wave.l w)
                                (Wave.m w) (Wave.translation w) (Wave.particle w)) i p
  | FWaveL i =>
      waveSet (fun w => Wave.mk (Wave.amplitude w) (Wave.phase w) (Wave.n w) v
                                (Wave.m w) (Wave.translation w) (Wave.particle w)) i p
  | FWaveM i =>
      waveSet (fun w => Wave.mk (Wave.amplitude w) (Wave.phase w) (Wave.n w)
                                (Wave.l w) v (Wave.translation w) (Wave.particle w)) i p
  | FWaveTranslation i =>
      waveSet (fun w => Wave.mk (Wave.amplitude w) (Wave.phase w) (Wave.n w)
                                (Wave.l w) (Wave.m w) v (Wave.particle w)) i p
  end.

(** Modelled from the spec: [push] on a [StackArray] (util.hpp) is not
    among the sources; section 7 of the spec says exceeding the fixed
    maximum count "must be rejected at the add operation".  [None] is
    that rejection. *)
Definition push {A : Type} (capacity : nat) (arr : list A) (x : A)
  : option (list A) :=
  if (List.length arr <? capacity)%nat then Some (arr ++ [x]) else None.

Fixpoint pushAll {A : Type} (capacity : nat) (arr : list A) (xs : list A)
  : option (list A) :=
  match xs with
  | [] => Some arr
  | x :: rest =>
      match push capacity arr x with
      | None => None
      | Some arr' => pushAll capacity arr' rest
      end
  end.

(** Modelled from the spec: the constant [tau] (math.hpp) is not among
    the sources; it is one full turn, 2*pi (section 4.5 of the spec clamps
    the vertical rotation to a quarter turn), given here to 16 digits. *)
Definition tau : Q := 6283185307179586 # 1000000000000000.

(* ================================================================= *)
(** ** addWave and init *)

(** The six sliders that [addWave] binds to the wave at index [k]. *)
Definition waveSliders (k : nat) : list Slider.t :=
  [ Slider.mk "Amplitude" 0 2 (FWaveAmplitude k) 3 true;
    Slider.mk "Complex phase" 0 tau (FWavePhase k) 3 true;
    Slider.mk "n" 1 12 (FWaveN k) 0 true;
    Slider.mk "l" 0 11 (FWaveL k) 0 true;
    Slider.mk "m" (-11) 11 (FWaveM k) 0 true;
    Slider.mk "translation" (-5) 5 (FWaveTranslation k) 3 true ].

Definition addWave (prog : Program.t) : option Program.t :=
  let w := Wave.mk 0 0 1 0 0 0 0 in
  let w := if Nat.eqb (List.length (Program.waves prog)) 0
           then Wave.mk 1 (Wave.phase w) (Wave.n w) (Wave.l w) (Wave.m w)
                        (Wave.translation w) (Wave.particle w)
           else w in
  match push Program_maxWaves (Program.waves prog) w with
  | None => None
  | Some ws =>
      let prog := Program.set_waves prog ws in
      let k := (List.length ws - 1)%nat in   (* last(prog.waves) *)
      match pushAll Program_maxSliders (Program.sliders prog) (waveSliders k) with
      | None => None
      | Some ss => Some (Program.set_sliders prog ss)
      end
  end.

Definition default_sliders : list Slider.t :=
  [ Slider.mk "Time" 0 5 FPhase 3 false;
    Slider.mk "Samples" 5 150 FSampleCount 0 true;
    Slider.mk "Resolution" (1 # 100) 1 FResoMul 2 false;
    Slider.mk "Filtering" 0 1 FFiltering 0 false;
    Slider.mk "R" 0 2 FR 3 false;
    Slider.mk "G" 0 2 FG 3 false;
    Slider.mk "B" 0 2 FB 3 false;
    Slider.mk "Complex color" 0 1 FComplexColor 0 true;
    Slider.mk "Absorption" 0 1 FAbsorption 3 true;
    Slider.mk "Cutoff" 0 (15 # 100) FCutoff 4 true;
    Slider.mk "Distance" (2 # 10) 150 FDistance 4 false ].

(** [createFbo(reso, filtering)] together with the record of the call. *)
Definition createFbo (reso : Z * Z) (filtering : bool) (prog : Program.t)
  : Program.t :=
  Program.set_glCalls (Program.set_fbo prog (VolumeFbo.mk reso filtering))
    (CreateFbo reso filtering :: Program.glCalls prog).

(** [prog.shader= createVolumeShader(prog.sampleCount, ...)] together
    with the record of the call; [None] when an assertion fires. *)
Definition recreateShader (prog : Program.t) : option Program.t :=
  match createVolumeShader laguerre sphericalHarmonics
          (Util.to_int (Program.sampleCount prog))
          (Util.to_bool (Program.complexColor prog))
          (Program.absorption prog) (Program.cutoff prog)
          (Program.waves prog) with
  | None => None
  | Some shd =>
      Some (Program.set_glCalls (Program.set_shader prog shd)
              (CreateVolumeShader shd :: Program.glCalls prog))
  end.

Definition scaleReso (winSize : Z * Z) (resoMul : Q) : Z * Z :=
  (Util.to_int (inject_Z (fst winSize) * resoMul),
   Util.to_int (inject_Z (snd winSize) * resoMul)).

(** The "Program state" block of [init], starting from [Program prog= {}];
    the font, GUI shader and vertex buffer set-up have no part in the
    model. *)
Definition init (env : Env.t) : option Program.t :=
  let prog :=
    Program.mk (VolumeShader.mk 0 0 0 0 []) (VolumeFbo.mk (0, 0)%Z false)
      0 0 40 (5 # 10) 0 1 (6 # 10) (4 # 10) 0 0 0 2 [] [] (0, 0) (0, 0) [] in
  match pushAll Program_maxSliders (Program.sliders prog) default_sliders with
  | None => None
  | Some ss =>
      let prog := Program.set_sliders prog ss in
      match addWave prog with
      | None => None
      | Some prog =>
          match addWave prog with
          | None => None
          | Some prog =>
              match recreateShader prog with
              | None => None
              | Some prog =>
                  Some (createFbo (scaleReso (Env.winSize env) (Program.resoMul prog))
                                  (negb (Qle_bool (Program.filtering prog) (5 # 10)))
                                  prog)
              end
          end
      end
  end.

(* ================================================================= *)
(** ** frame *)

(** The body of the slider loop for slider [i]; the result carries the
    program, [slider_activity] and [slider_hover] (newest first). *)
Definition sliderStep (env : Env.t) (i : nat) (s : Slider.t)
    (prog : Program.t) (slider_activity : bool) (slider_hover : list bool)
  : option (Program.t * bool * list bool) :=
  if Slider.pointInside i (fst (Env.anchorPos env)) (snd (Env.anchorPos env)) then
    let value_changed := false in
    let '(value_changed, prog) :=
      if Env.lmbDown env then
        let new_value := Slider.coordToValue s (fst (Env.cursorPos env)) in
        (negb (Qeq_bool new_value (getField (Slider.value s) prog)),
         setField (Slider.value s) new_value prog)
      else (value_changed, prog) in
    if value_changed && Slider.recompile s then
      let prog := Program.set_glCalls prog
                    (DestroyGlShaderProgram :: Program.glCalls prog) in
      match recreateShader prog with
      | None => None
      | Some prog => Some (prog, true, true :: slider_hover)
      end
    else Some (prog, true, true :: slider_hover)
  else Some (prog, slider_activity, false :: slider_hover).

(** [for (i= 0; i < prog.sliders.size; ++i)], from index [i] on. *)
Fixpoint sliderLoop (env : Env.t) (i : nat) (ss : list Slider.t)
    (prog : Program.t) (slider_activity : bool) (slider_hover : list bool)
  : option (Program.t * bool * list bool) :=
  match ss with
  | [] => Some (prog, slider_activity, slider_hover)
  | s :: rest =>
      match sliderStep env i s prog slider_activity slider_hover with
      | None => None
      | Some (prog, act, hov) => sliderLoop env (S i) rest prog act hov
      end
  end.

(** The camera rotation update of [frame]. *)
Definition rotate (env : Env.t) (prog : Program.t) : Program.t :=
  let '(px, py) := Program.prev_delta prog in
  let '(dx, dy) := Env.cursorDelta env in
  let smooth_delta := (px * (1 # 2) + dx * (1 # 2), py * (1 # 2) + dy * (1 # 2)) in
  let prog := Program.set_prev_delta prog smooth_delta in
  let '(rx, ry) := Program.rot prog in
  let rx := rx + fst smooth_delta * 2 in
  let ry := ry + snd smooth_delta * 2 in
  Program.set_rot prog (rx, Util.CLAMP ry (- tau / 4) (tau / 4)).

(** "Adjust FBO to resolution and filtering settings". *)
Definition adjustFbo (env : Env.t) (prog : Program.t) : Program.t :=
  let volume_reso := scaleReso (Env.winSize env) (Program.resoMul prog) in
  let volume_filtering := negb (Qle_bool (Program.filtering prog) (5 # 10)) in
  let cur := Program.fbo prog in
  if negb (Z.eqb (fst volume_reso) (fst (VolumeFbo.reso cur))
           && Z.eqb (snd volume_reso) (snd (VolumeFbo.reso cur)))
     || negb (Bool.eqb volume_filtering (VolumeFbo.filtering cur))
  then
    createFbo volume_reso volume_filtering
      (Program.set_glCalls prog (DestroyFbo :: Program.glCalls prog))
  else prog.

(** [frame], up to the draw passes (which change no program state);
    [None] when an assertion fires during a recompilation. *)
Definition frame (env : Env.t) (prog : Program.t) : option Program.t :=
  let prog := Program.set_time prog (Program.time prog + Env.dt env) in
  let prog := Program.set_phase prog (Program.phase prog + Env.dt env) in
  match sliderLoop env 0 (Program.sliders prog) prog false [] with
  | None => None
  | Some (prog, slider_activity, _) =>
      let prog := if Env.lmbDown env && negb slider_activity
                  then rotate env prog else prog in
      Some (adjustFbo env prog)
  end.

(** The loop of [main()]: one [frame] per element of [envs]. *)
Fixpoint frames (envs : list Env.t) (prog : Program.t) : option Program.t :=
  match envs with
  | [] => Some prog
  | env :: rest =>
      match frame env prog with
      | None => None
      | Some prog' => frames rest prog'
      end
  end.

End Host.

(* ================================================================= *)
(** ** Predicates used in the statements *)

(** A value is rounded to [d] decimals when it is an integer multiple of
    [10^-d]. *)
Definition is_rounded (d : Z) (v : Q) : Prop :=
  exists k : Z, (v == inject_Z k / Util.pow10 d)%Q.

(** Rounding the two bounds of a slider does not leave its range. *)
Definition boundsRoundInward (s : Slider.t) : bool :=
  Qle_bool (Slider.min s) (Util.round (Slider.min s) (Slider.decimals s))
  && Qle_bool (Util.round (Slider.max s) (Slider.decimals s)) (Slider.max s).

(** A slider with range [0.121, 0.129] and two decimals: no value of the
    range has two decimals, whatever the rounding rule. *)
Definition narrowSlider : Slider.t :=
  Slider.mk "narrow" (121 # 1000) (129 # 1000) FPhase 2 false.

(** The program as the slider loop of [frame] meets it: both clocks
    advanced by the frame time. *)
Definition advanceClocks (env : Env.t) (prog : Program.t) : Program.t :=
  let prog := Program.set_time prog (Program.time prog + Env.dt env)%Q in
  Program.set_phase prog (Program.phase prog + Env.dt env)%Q.

(** Row [k] of the slider panel is under the anchor position. *)
Definition inside (env : Env.t) (k : nat) : bool :=
  Slider.pointInside k (fst (Env.anchorPos env)) (snd (Env.anchorPos env)).

(** Slider [i] is under the pointer, the button is down and the value it
    computes differs from the bound value in [prog]. *)
Definition editChanges (env : Env.t) (prog : Program.t) (i : nat) (s : Slider.t)
  : bool :=
  inside env i
  && Env.lmbDown env
  && negb (Qeq_bool (Slider.coordToValue s (fst (Env.cursorPos env)))
                    (getField (Slider.value s) prog)).

(** Some slider among [ss] (numbered from [i]) with the recompile flag
    has its value changed by the pointer. *)
Fixpoint recompileTriggered (env : Env.t) (prog : Program.t) (i : nat)
    (ss : list Slider.t) : bool :=
  match ss with
  | [] => false
  | s :: rest =>
      (editChanges env prog i s && Slider.recompile s)
      || recompileTriggered env prog (S i) rest
  end.

(** The program component of a result of the slider loop. *)
Definition progOf (x : option (Program.t * bool * list bool)) : option Program.t :=
  option_map (fun y => fst (fst y)) x.

(** The GL calls of a frame that concern the volume shader. *)
Definition countCreate (evs : list GlEvent) : nat :=
  List.length (filter (fun e => match e with CreateVolumeShader _ => true | _ => false end) evs).

Definition countDestroy (evs : list GlEvent) : nat :=
  List.length (filter (fun e => match e with DestroyGlShaderProgram => true | _ => false end) evs).

(** Sum of [f i] over the indices of [l]. *)
Definition sumOver (f : nat -> R) (l : list nat) : R :=
  fold_right (fun i s => (f i + s)%R) 0%R l.

(** The amplitude as section 4.1 of the spec words it: normalisation,
    radial envelope, Laguerre sum, and the angular sum scaled by
    sin^|m|(theta).  It differs from [value_amplitude] in the exponent of
    the sine only: |m| here, the signed m there. *)
Definition spec_amplitude (w : HWaveFunc.t) (r theta : R) : R :=
  let rho := value_rho w r in
  (HWaveFunc.normalization w
   * (exp (- rho / 2) * powerRZ rho (HWaveFunc.l w))
   * polySum (HWaveFunc.laguerreCoeff w) rho
   * (sin theta ^ Z.abs_nat (HWaveFunc.m w)
      * polySum (HWaveFunc.spheCoeff w) (cos theta)))%R.

(** A shader state holding the spherical coordinates of one point. *)
Definition pointState (r theta phi : R) : Glsl.state :=
  Glsl.mkState
    (fun x => match x with
              | Vr => r
              | Vphi => phi
              | Vcos_theta => cos theta
              | Vtheta => theta
              | Vsin_theta => sin theta
              | _ => 0%R
              end)
    (fun _ => V3 0 0 0).

(** The statement assigns to the scalar variable [x]. *)
Definition writesTo (x : svar) (s : stmt) : bool :=
  match s with
  | SAssign y _ | SDecl y _ | SAddAssign y _ => Glsl.svar_eqb y x
  | VAssign _ _ => false
  end.

(** What the emitted waves (numbered from [i]) add to [total_real]: for
    each, a_i*cos(p_i) times its amplitude weight, read in state [st]. *)
Fixpoint realTotal (st : Glsl.state) (i : nat) (ws : list Wave.t) : R :=
  match ws with
  | [] => 0%R
  | w :: rest =>
      ((if skipped w then 0
        else Glsl.sv st (Va i) * cos (Glsl.sv st (Vp i)) * Q2R (Wave.amplitude w))
       + realTotal st (S i) rest)%R
  end.

(** What the emitted waves add to [total_imag]: a_i*sin(p_i), with no
    weight. *)
Fixpoint imagTotal (st : Glsl.state) (i : nat) (ws : list Wave.t) : R :=
  match ws with
  | [] => 0%R
  | w :: rest =>
      ((if skipped w then 0
        else Glsl.sv st (Va i) * sin (Glsl.sv st (Vp i)))
       + imagTotal st (S i) rest)%R
  end.

(** The first wave that [addWave] creates. *)
Definition firstWave : Wave.t := Wave.mk 1 0 1 0 0 0 0.

(** A shader state whose sample point is (1, 0, 0). *)
Definition unitXState : Glsl.state :=
  Glsl.mkState (fun _ => 0%R)
    (fun x => match x with Vv_pos => V3 1 0 0 | _ => V3 0 0 0 end).

(** The program state of [init] after its first call of [addWave]. *)
Definition demoProgram : Program.t :=
  Program.mk (VolumeShader.mk 0 0 0 0 []) (VolumeFbo.mk (0, 0)%Z false)
    0 0 40 (5 # 10) 0 1 (6 # 10) (4 # 10) 0 0 0 2
    [firstWave] (default_sliders ++ waveSliders 0) (0, 0)%Q (0, 0)%Q [].

(** A frame of 1/60 s in which the button is held on the row of the
    "Samples" slider (row 1, recompile flag set) at x = -0.9. *)
Definition dragSamplesEnv : Env.t :=
  Env.mk (1 # 60) (-9 # 10, 92 # 100)%Q (-9 # 10, 92 # 100)%Q (0, 0)%Q true
         (800, 600)%Z.

(** A frame of 1/60 s with the button up. *)
Definition idleEnv : Env.t :=
  Env.mk (1 # 60) (0, 0)%Q (0, 0)%Q (0, 0)%Q false (800, 600)%Z.

(* ================================================================= *)
(** ** The draw pass of frame: slider bars and the camera *)

(** The rectangle drawn for slider [i] in the "Slider backgrounds" loop
    of [frame]: its lower-left and its top-right corner. *)
Definition sliderBar (i : nat) (s : Slider.t) (p : Program.t) : (Q * Q) * (Q * Q) :=
  let top := Slider.top i in
  let bottom := Slider.bottom i in
  let width := (Slider.sliderWidth * Slider.fraction s (getField (Slider.value s) p))%Q in
  ((- (1), bottom)%Q, (- (1) + width, top)%Q).

(** The panel background drawn before the bars, for [n] sliders. *)
Definition panelBackground (n : nat) : (Q * Q) * (Q * Q) :=
  ((- (1), 1 - inject_Z (Z.of_nat n) * Slider.sliderHeight)%Q,
   (Slider.sliderWidth - 1, 1)%Q).

(** The array [transform] of [frame]: sixteen floats in the order
    written, which [glUniformMatrix4fv] with transpose [GL_FALSE] reads
    column by column. *)
Definition transform (prog : Program.t) : list R :=
  let rot := Program.rot prog in
  let s1 := sin (Q2R (fst rot)) in
  let s2 := sin (Q2R (snd rot)) in
  let c1 := cos (Q2R (fst rot)) in
  let c2 := cos (Q2R (snd rot)) in
  let r := Q2R (Program.distance prog) in
  [ c1;              0;        s1;            0;
    - s1 * s2;       c2;       c1 * s2;       0;
    - c2 * s1;       - s2;     c2 * c1;       0;
    - c2 * s1 * r;   - s2 * r; c2 * c1 * r;   1 ]%R.

(** The value passed for [u_rayLength]. *)
Definition rayLength (prog : Program.t) : R := (Q2R (Program.distance prog) * 2)%R.

Module Vertex.

(** The first three components of column [j] of a [mat4]. *)
Definition column (m : list R) (j : nat) : vec3 :=
  V3 (nth (4 * j) m 0%R) (nth (4 * j + 1) m 0%R) (nth (4 * j + 2) m 0%R).

(** [(m*vec4(x, y, z, w)).xyz]. *)
Definition mulVec4 (m : list R) (x y z w : R) : vec3 :=
  Glsl.vadd (Glsl.vadd (Glsl.vscale (column m 0) x) (Glsl.vscale (column m 1) y))
            (Glsl.vadd (Glsl.vscale (column m 2) z) (Glsl.vscale (column m 3) w)).

(** [mat3(m)*vec3(x, y, z)]. *)
Definition mulMat3 (m : list R) (x y z : R) : vec3 :=
  Glsl.vadd (Glsl.vadd (Glsl.vscale (column m 0) x) (Glsl.vscale (column m 1) y))
            (Glsl.vscale (column m 2) z).

(** [void main()] of the vertex shader: the varyings [v_pos] and
    [v_normal] at a point [a_pos] of the quad. *)
Definition main (u_transform : list R) (a_pos : R * R) : vec3 * vec3 :=
  let v_pos := mulVec4 u_transform 0 0 0 1 in
  let v_normal := mulMat3 u_transform (fst a_pos) (snd a_pos) (-1) in
  (v_pos, v_normal).

End Vertex.

(* ================================================================= *)
(** ** destroyFbo, quit and main *)

(** [destroyFbo(prog.fbo)], as a record of the call. *)
Definition destroyFbo (prog : Program.t) : Program.t :=
  Program.set_glCalls prog (DestroyFbo :: Program.glCalls prog).

(** [quit]: the framebuffer and the volume shader are destroyed.  (The
    GUI shader, the vertex buffer and the font texture, whose creation in
    [init] has no part in the model, are left out here as well.) *)
Definition quit (prog : Program.t) : Program.t :=
  let prog := destroyFbo prog in
  Program.set_glCalls prog (DestroyGlShaderProgram :: Program.glCalls prog).

(** [main()]: [init], one [frame] per pass of the loop ([envs] lists the
    environments that [envUpdate] produces until a quit is requested),
    then [quit]. *)
Definition main (laguerre sphericalHarmonics : Z -> Z -> nat -> R)
    (env0 : Env.t) (envs : list Env.t) : option Program.t :=
  match init laguerre sphericalHarmonics env0 with
  | None => None
  | Some prog => option_map quit (frames laguerre sphericalHarmonics envs prog)
  end.

(* ================================================================= *)
(** ** interferenceIntegral *)




(* ================================================================= *)
(** ** Further predicates used in the statements *)

(** Number of declarations [float x= (...);] of the variable [x] in a
    statement list. *)
Definition declCount (x : svar) (ss : list stmt) : nat :=
  List.length
    (filter (fun s => match s with SDecl y _ => Glsl.svar_eqb y x | _ => false end) ss).

(** The waves that the macro loop of [createVolumeShader] does not skip. *)
Definition emittedWaves (ws : list Wave.t) : list Wave.t :=
  filter (fun w => negb (skipped w)) ws.

(** The address a slider holds in [value] lies inside the wave array of
    the program (always so for the members of [Program] itself). *)
Definition fieldValid (fld : field) (p : Program.t) : bool :=
  match fld with
  | FWaveAmplitude i | FWavePhase i | FWaveN i | FWaveL i | FWaveM i
  | FWaveTranslation i => (i <? List.length (Program.waves p))%nat
  | _ => true
  end.

(** The program members that the two calls of [createVolumeShader] pass
    on: [sampleCount], [complexColor], [absorption], [cutoff] and the
    wave array. *)
Definition shaderInput (fld : field) : bool :=
  match fld with
  | FSampleCount | FComplexColor | FAbsorption | FCutoff
  | FWaveAmplitude _ | FWavePhase _ | FWaveN _ | FWaveL _ | FWaveM _
  | FWaveTranslation _ => true
  | _ => false
  end.

(** The call [createVolumeShader(prog.sampleCount, prog.complexColor,
    prog.absorption, prog.cutoff, prog.waves.data, prog.waves.size)] that
    [init] and [frame] make, for the current values of the members. *)
Definition requestedShader (laguerre sphericalHarmonics : Z -> Z -> nat -> R)
    (p : Program.t) : option VolumeShader.t :=
  createVolumeShader laguerre sphericalHarmonics
    (Util.to_int (Program.sampleCount p)) (Util.to_bool (Program.complexColor p))
    (Program.absorption p) (Program.cutoff p) (Program.waves p).

(** [prog.shader] is what [createVolumeShader] returns for the current
    values of its arguments. *)
Definition shaderInSync (laguerre sphericalHarmonics : Z -> Z -> nat -> R)
    (p : Program.t) : Prop :=
  requestedShader laguerre sphericalHarmonics p = Some (Program.shader p).

(** There is a wave, and every wave has 1 <= n <= 29 and l >= 0: the
    guards of [createVolumeShader] and [hydrogenWaveFuncStr] hold. *)
Definition wavesCompile (p : Program.t) : Prop :=
  Program.waves p <> []
  /\ forall w, In w (Program.waves p) ->
       (1 <= Wave.n w <= 29)%Q /\ (0 <= Wave.l w)%Q.

(** What a value written to a field must satisfy to keep [wavesCompile]. *)
Definition compilableValue (fld : field) (v : Q) : Prop :=
  match fld with
  | FWaveN _ => (1 <= v <= 29)%Q
  | FWaveL _ => (0 <= v)%Q
  | _ => True
  end.

(** The sliders bound to a quantum number n have a range inside
    [1, 29], those bound to a quantum number l a non-negative min. *)
Definition quantumSlidersSafe (p : Program.t) : Prop :=
  forall s, In s (Program.sliders p) ->
    match Slider.value s with
    | FWaveN _ => (1 <= Slider.min s)%Q /\ (Slider.max s <= 29)%Q
    | FWaveL _ => (0 <= Slider.min s)%Q
    | _ => True
    end.

(** Every slider bound to an argument of [createVolumeShader] carries
    the recompile flag. *)
Definition shaderInputsFlagged (p : Program.t) : Prop :=
  forall s, In s (Program.sliders p) ->
    shaderInput (Slider.value s) = true -> Slider.recompile s = true.

(** No two sliders share a field, and every slider points into the
    program. *)
Definition slidersWellBound (p : Program.t) : Prop :=
  NoDup (map Slider.value (Program.sliders p))
  /\ forall s, In s (Program.sliders p) -> fieldValid (Slider.value s) p = true.

(** Every slider has min <= max and bounds that round into the range. *)
Definition slidersRoundInward (p : Program.t) : Prop :=
  forall s, In s (Program.sliders p) ->
    boundsRoundInward s = true /\ (Slider.min s <= Slider.max s)%Q.

(** Every bound value is at least the slider's min and, except for the
    clock [prog.phase], at most its max. *)
Definition valuesInRange (p : Program.t) : Prop :=
  forall s, In s (Program.sliders p) ->
    (Slider.min s <= getField (Slider.value s) p)%Q
    /\ (Slider.value s <> FPhase -> (getField (Slider.value s) p <= Slider.max s)%Q).

(** Two programs agree on everything but the shader, the framebuffer,
    the camera statics and the record of GL calls. *)
Definition sameSettings (p q : Program.t) : Prop :=
  Program.time p = Program.time q /\ Program.phase p = Program.phase q
  /\ Program.sampleCount p = Program.sampleCount q
  /\ Program.resoMul p = Program.resoMul q
  /\ Program.filtering p = Program.filtering q
  /\ Program.r p = Program.r q /\ Program.g p = Program.g q
  /\ Program.b p = Program.b q
  /\ Program.complexColor p = Program.complexColor q
  /\ Program.absorption p = Program.absorption q
  /\ Program.cutoff p = Program.cutoff q
  /\ Program.distance p = Program.distance q
  /\ Program.waves p = Program.waves q
  /\ Program.sliders p = Program.sliders q.

(** Two waves with equal member values ([float] comparison). *)
Definition waveEq (w w' : Wave.t) : Prop :=
  (Wave.amplitude w == Wave.amplitude w')%Q /\ (Wave.phase w == Wave.phase w')%Q
  /\ (Wave.n w == Wave.n w')%Q /\ (Wave.l w == Wave.l w')%Q
  /\ (Wave.m w == Wave.m w')%Q /\ (Wave.translation w == Wave.translation w')%Q.

(** Calls that create or destroy the volume framebuffer. *)
Definition countCreateFbo (evs : list GlEvent) : nat :=
  List.length (filter (fun e => match e with CreateFbo _ _ => true | _ => false end) evs).

Definition countDestroyFbo (evs : list GlEvent) : nat :=
  List.length (filter (fun e => match e with DestroyFbo => true | _ => false end) evs).

(** What [init] establishes and every successful [frame] maintains. *)
Definition programInvariant (laguerre sphericalHarmonics : Z -> Z -> nat -> R)
    (p : Program.t) : Prop :=
  slidersWellBound p /\ slidersRoundInward p /\ shaderInputsFlagged p
  /\ quantumSlidersSafe p /\ wavesCompile p
  /\ shaderInSync laguerre sphericalHarmonics p.

(** The second wave that [init] adds: amplitude 0. *)
Definition secondWave : Wave.t := Wave.mk 0 0 1 0 0 0 0.

(** The program at the end of [init], for a window of size [winSize];
    [amp] and [ph] are the two texts compiled for the first wave. *)
Definition initialProgram (winSize : Z * Z) (amp ph : expr) : Program.t :=
  let shd := VolumeShader.mk 40 0 (Q2R 0) (Q2R 0) (waveStmts 0 firstWave amp ph) in
  let reso := scaleReso winSize (5 # 10) in
  Program.mk shd (VolumeFbo.mk reso false)
    0 0 40 (5 # 10) 0 1 (6 # 10) (4 # 10) 0 0 0 2
    [firstWave; secondWave]
    (default_sliders ++ waveSliders 0 ++ waveSliders 1)
    (0, 0)%Q (0, 0)%Q
    [CreateFbo reso false; CreateVolumeShader shd].

(** A frame of 1/60 s in which the button is held at the centre of the
    window, off the slider panel, while the pointer moves. *)
Definition dragCameraEnv : Env.t :=
  Env.mk (1 # 60) (0, 0)%Q (1 # 10, 1 # 10)%Q (1 # 10, 1 # 10)%Q true (800, 600)%Z.

(* ================================================================= *)
(** ** Slider::coordToValue *)

Section SliderFacts.

Local Open Scope Q_scope.

Lemma pow10_pos d : 0 < Util.pow10 d.
Proof.
  unfold Util.pow10. apply Qpower_0_lt. reflexivity.
Qed.

Lemma round_is_rounded v d : is_rounded d (Util.round v d).
Proof. eexists. unfold Util.round. reflexivity. Qed.

Lemma round_monotone v w d : v <= w -> Util.round v d <= Util.round w d.
Proof.
  intros Hvw. unfold Util.round.
  pose proof (pow10_pos d) as Hp.
  apply Qmult_le_compat_r.
  - rewrite <- Zle_Qle. apply Qfloor_resp_le.
    apply Qplus_le_l. apply Qmult_le_compat_r; [exact Hvw | apply Qlt_le_weak, Hp].
  - apply Qlt_le_weak, Qinv_lt_0_compat, Hp.
Qed.

Lemma round_fixes_rounded v d : is_rounded d v -> Util.round v d == v.
Proof.
  intros [k Hk]. unfold Util.round.
  pose proof (pow10_pos d) as Hp.
  assert (Hne : ~ Util.pow10 d == 0) by (intros E; rewrite E in Hp; discriminate).
  assert (E : v * Util.pow10 d + (1 # 2) == inject_Z k + (1 # 2)).
  { rewrite Hk. field. exact Hne. }
  rewrite (Qfloor_comp _ _ E).
  assert (Hf : Qfloor (inject_Z k + (1 # 2)) = k).
  { pose proof (Qfloor_le (inject_Z k + (1 # 2))) as H1.
    pose proof (Qlt_floor (inject_Z k + (1 # 2))) as H2.
    set (f := Qfloor (inject_Z k + (1 # 2))) in *.
    assert (inject_Z f < inject_Z (k + 1)).
    { rewrite inject_Z_plus. eapply Qle_lt_trans; [exact H1|].
      apply Qplus_lt_r. reflexivity. }
    assert (inject_Z k < inject_Z (f + 1)).
    { eapply Qle_lt_trans; [|exact H2].
      rewrite <- (Qplus_0_r (inject_Z k)) at 1. apply Qplus_le_r. discriminate. }
    rewrite <- Zlt_Qlt in *. lia. }
  rewrite Hf. symmetry. exact Hk.
Qed.

Lemma CLAMP_bounds v lo hi : lo <= hi -> lo <= Util.CLAMP v lo hi <= hi.
Proof.
  intros H. unfold Util.CLAMP. split.
  - apply Q.min_glb; [apply Q.le_max_r | exact H].
  - apply Q.le_min_r.
Qed.

End SliderFacts.

Section SliderClaims.

Local Open Scope Q_scope.

Lemma narrowSlider_no_rounded_value v :
  Slider.min narrowSlider <= v <= Slider.max narrowSlider ->
  ~ is_rounded (Slider.decimals narrowSlider) v.
Proof.
  simpl. intros [H1 H2] [k Hk].
  rewrite Hk in H1, H2. clear Hk.
  unfold Util.pow10 in *. simpl in H1, H2.
  unfold Qle, Qdiv, Qmult, Qinv in *. simpl in *. lia.
Qed.

(** C3, as stated, fails: for the slider [narrowSlider] (min < max) and
    pointer x = 0 the result 0.13 lies above max = 0.129. *)
Lemma coordToValue_leaves_range :
  ~ (forall (s : Slider.t) (x : Q),
       Slider.min s < Slider.max s ->
       (Slider.min s <= Slider.coordToValue s x <= Slider.max s)
       /\ is_rounded (Slider.decimals s) (Slider.coordToValue s x)).
Proof.
  intros H.
  destruct (H narrowSlider 0) as [[_ Hmax] _]; [reflexivity|].
  vm_compute in Hmax. apply Hmax. reflexivity.
Qed.

(** The result of [coordToValue] lies between the rounded bounds. *)
Lemma coordToValue_between_rounded_bounds (s : Slider.t) (x : Q) :
  Slider.min s <= Slider.max s ->
  Util.round (Slider.min s) (Slider.decimals s) <= Slider.coordToValue s x
    <= Util.round (Slider.max s) (Slider.decimals s).
Proof.
  intros Hle.
  pose proof (CLAMP_bounds (Slider.rawValue s x) _ _ Hle) as [Hlo Hhi].
  unfold Slider.coordToValue. split; apply round_monotone; assumption.
Qed.

(** Every slider that [init] and [addWave] create has bounds that round
    inward, so [coordToValue] keeps its value inside [min, max]. *)
Lemma program_sliders_stay_in_range (k : nat) (s : Slider.t) (x : Q) :
  In s (default_sliders ++ waveSliders k) ->
  Slider.min s <= Slider.coordToValue s x <= Slider.max s.
Proof.
  intros Hin.
  assert (Hall : forallb (fun s => boundsRoundInward s
                                   && Qle_bool (Slider.min s) (Slider.max s))
                   (default_sliders ++ waveSliders k) = true)
    by reflexivity.
  rewrite forallb_forall in Hall. specialize (Hall s Hin).
  apply andb_prop in Hall. destruct Hall as [Hb Hle].
  apply andb_prop in Hb. destruct Hb as [H1 H2].
  apply Qle_bool_iff in H1, H2, Hle.
  destruct (coordToValue_between_rounded_bounds s x Hle) as [G1 G2].
  split; [apply (Qle_trans _ _ _ H1 G1) | apply (Qle_trans _ _ _ G2 H2)].
Qed.

(** C3 (amended): for every slider with min < max and every pointer x,
    [coordToValue] clamps first and rounds second; its result has the
    declared number of decimals and lies between the rounded bounds
    round(min) and round(max), hence inside [min, max] whenever rounding
    the bounds does not leave the range, in particular whenever the two
    bounds themselves have that number of decimals.  For range [0,1] and
    two decimals a raw value of 1.236 gives 1.0, not 1.24. *)
Theorem coordToValue_clamps_then_rounds (s : Slider.t) (x : Q) :
  Slider.min s < Slider.max s ->
  Slider.coordToValue s x
    == Util.round (Util.CLAMP (Slider.rawValue s x) (Slider.min s) (Slider.max s))
                  (Slider.decimals s)
  /\ is_rounded (Slider.decimals s) (Slider.coordToValue s x)
  /\ Util.round (Slider.min s) (Slider.decimals s) <= Slider.coordToValue s x
       <= Util.round (Slider.max s) (Slider.decimals s)
  /\ (boundsRoundInward s = true ->
      Slider.min s <= Slider.coordToValue s x <= Slider.max s)
  /\ (is_rounded (Slider.decimals s) (Slider.min s) ->
      is_rounded (Slider.decimals s) (Slider.max s) ->
      Slider.min s <= Slider.coordToValue s x <= Slider.max s)
  /\ (let s01 := Slider.mk "" 0 1 (Slider.value s) 2 (Slider.recompile s) in
      let x1 := (1236 # 1000) * Slider.sliderWidth - 1 in
      Slider.rawValue s01 x1 == 1236 # 1000
      /\ Slider.coordToValue s01 x1 == 1
      /\ ~ Slider.coordToValue s01 x1 == 124 # 100).
Proof.
  intros Hlt.
  pose proof (coordToValue_between_rounded_bounds s x (Qlt_le_weak _ _ Hlt))
    as Hbetween.
  split; [reflexivity|].
  split; [apply round_is_rounded|].
  split; [exact Hbetween|].
  split; [|split].
  - intros Hb. apply andb_prop in Hb. destruct Hb as [H1 H2].
    apply Qle_bool_iff in H1, H2. destruct Hbetween as [G1 G2].
    split; [apply (Qle_trans _ _ _ H1 G1) | apply (Qle_trans _ _ _ G2 H2)].
  - intros Hmin Hmax. destruct Hbetween as [H1 H2].
    rewrite (round_fixes_rounded _ _ Hmin) in H1.
    rewrite (round_fixes_rounded _ _ Hmax) in H2.
    split; assumption.
  - cbv zeta. split; [reflexivity|]. split; [reflexivity|]. discriminate.
Qed.

Lemma coordToValue_clamps_then_rounds_witness :
  1 # 100 <= Slider.coordToValue (Slider.mk "Resolution" (1 # 100) 1 FResoMul 2 false) 3
          <= 1.
Proof.
  refine (proj1 (proj2 (proj2 (proj2
           (coordToValue_clamps_then_rounds
              (Slider.mk "Resolution" (1 # 100) 1 FResoMul 2 false) 3 _)))) _).
  - reflexivity.
  - reflexivity.
Defined.

End SliderClaims.

(* ================================================================= *)
(** ** Clamping of the quantum numbers in hydrogenWaveFuncStr *)

Section ClampClaims.

Variable laguerre : Z -> Z -> nat -> R.
Variable sphericalHarmonics : Z -> Z -> nat -> R.

Local Open Scope Z_scope.

Lemma clamp_l_spec n l :
  0 < n -> 0 <= l -> 0 <= clamp_l n l <= n - 1 /\ clamp_l n l <= l.
Proof.
  intros Hn Hl. unfold clamp_l.
  destruct (Z.gtb_spec l (n - 1)); lia.
Qed.

Lemma clamp_m_spec l m : 0 <= l -> Z.abs (clamp_m l m) <= l.
Proof.
  intros Hl. unfold clamp_m.
  destruct (Z.gtb_spec m 0), (Z.gtb_spec m l); simpl;
    repeat match goal with
           | |- context [(?a <? ?b)] => destruct (Z.ltb_spec a b); simpl
           end; lia.
Qed.

(** Closes the case in which an assertion has fired. *)
Ltac assert_fired :=
  let Hf := fresh "Hfired" in
  split; [ intros Hf; exfalso; apply Hf; reflexivity
         | intros; exfalso; lia ].

(** The result of [hydrogenWaveFuncStr] is decided by its three integer
    tests alone. *)
Lemma hydrogenWaveFuncStr_defined n l m phase :
  hydrogenWaveFuncStr laguerre sphericalHarmonics n l m phase <> None <->
  (0 < n /\ 0 <= l
   /\ n - clamp_l n l < Z.of_nat maxHPolyTermCount
   /\ clamp_l n l - 1 < Z.of_nat maxHPolyTermCount).
Proof.
  unfold hydrogenWaveFuncStr. cbv zeta.
  destruct (Z.gtb_spec n 0), (Z.geb_spec l 0); cbn [andb negb];
    try assert_fired.
  destruct (Z.ltb_spec (n - clamp_l n l) (Z.of_nat maxHPolyTermCount)); cbn [andb negb];
    try assert_fired.
  destruct (Z.ltb_spec (clamp_l n l - 1) (Z.of_nat maxHPolyTermCount)); cbn [andb negb];
    try assert_fired.
  split; [intros _; lia | intros _; discriminate].
Qed.

Lemma createHWaveFunc_defined n l m phase a :
  createHWaveFunc laguerre sphericalHarmonics n l m phase a <> None <->
  (0 < n /\ 0 <= l /\ Z.abs l < Z.abs n /\ Z.abs m <= Z.abs l
   /\ n - l < Z.of_nat maxHPolyTermCount
   /\ l - 1 < Z.of_nat maxHPolyTermCount).
Proof.
  unfold createHWaveFunc.
  destruct (Z.gtb_spec n 0), (Z.geb_spec l 0); cbn [andb negb];
    try assert_fired.
  destruct (Z.gtb_spec (Z.abs n) (Z.abs l)); cbn [andb negb];
    try assert_fired.
  destruct (Z.geb_spec (Z.abs l) (Z.abs m)); cbn [andb negb];
    try assert_fired.
  destruct (Z.ltb_spec (n - l) (Z.of_nat maxHPolyTermCount)); cbn [andb negb];
    try assert_fired.
  destruct (Z.ltb_spec (l - 1) (Z.of_nat maxHPolyTermCount)); cbn [andb negb];
    try assert_fired.
  split; [intros _; lia | intros _; discriminate].
Qed.

(** C4 (amended): for 1 <= n < 30, l >= 0 and any m, the clamping at the
    head of [hydrogenWaveFuncStr] establishes n > l >= |m| >= 0 and the
    degree bounds n - l < 30 and l - 1 < 30, so no assertion of the
    compilation path fires, and [createHWaveFunc] accepts the clamped
    numbers as well. *)
Theorem clamping_meets_contract (n l m : Z) (phase : R) :
  1 <= n < Z.of_nat maxHPolyTermCount -> 0 <= l ->
  let l' := clamp_l n l in
  let m' := clamp_m l' m in
  (n > l' /\ l' >= Z.abs m' /\ Z.abs m' >= 0)
  /\ n - l' < Z.of_nat maxHPolyTermCount
  /\ l' - 1 < Z.of_nat maxHPolyTermCount
  /\ hydrogenWaveFuncStr laguerre sphericalHarmonics n l m phase <> None
  /\ createHWaveFunc laguerre sphericalHarmonics n l' m' phase 1 <> None.
Proof.
  intros Hn Hl l' m'.
  destruct (clamp_l_spec n l) as [Hl1 Hl2]; [lia | lia |].
  pose proof (clamp_m_spec l' m (proj1 Hl1)) as Hm.
  fold l' in Hl1, Hl2. fold m' in Hm.
  assert (Hc : n > l' /\ l' >= Z.abs m' /\ Z.abs m' >= 0) by lia.
  split; [exact Hc|].
  split; [lia|]. split; [lia|].
  split.
  - apply hydrogenWaveFuncStr_defined. fold l'. lia.
  - apply createHWaveFunc_defined. lia.
Qed.

End ClampClaims.

(** C4, as stated, fails: with n = 30, l = 0, m = 0 the clamping changes
    nothing and the assertion n - l < 30 fires. *)
Lemma clamping_misses_degree_bound :
  ~ (forall n l m : Z, (1 <= n)%Z -> (0 <= l)%Z ->
       (n - clamp_l n l < Z.of_nat maxHPolyTermCount)%Z
       /\ hydrogenWaveFuncStr Math.laguerre Math.sphericalHarmonics n l m 0 <> None).
Proof.
  intros H. destruct (H 30%Z 0%Z 0%Z) as [Hb _]; [lia | lia |].
  vm_compute in Hb. discriminate.
Qed.

Lemma clamping_meets_contract_witness :
  hydrogenWaveFuncStr Math.laguerre Math.sphericalHarmonics 3 7 (-9) 0 <> None.
Proof.
  refine (proj1 (proj2 (proj2 (proj2
    (clamping_meets_contract Math.laguerre Math.sphericalHarmonics 3 7 (-9) 0 _ _))))).
  - simpl. lia.
  - lia.
Defined.

(* ================================================================= *)
(** ** addWave and the compile-out threshold *)

Section WaveClaims.

Variable laguerre : Z -> Z -> nat -> R.
Variable sphericalHarmonics : Z -> Z -> nat -> R.

Lemma compileWaves_length ws fs :
  compileWaves laguerre sphericalHarmonics ws = Some fs ->
  List.length fs = List.length ws.
Proof.
  revert fs. induction ws as [|w ws IH]; simpl; intros fs H.
  - injection H as <-. reflexivity.
  - destruct (hydrogenWaveFuncStr _ _ _ _ _ _) as [f|]; [|discriminate].
    destruct (compileWaves _ _ ws) as [fs'|]; [|discriminate].
    injection H as <-. simpl. f_equal. apply IH. reflexivity.
Qed.






End WaveClaims.

(* ================================================================= *)
(** ** frame: slider edits, recompilation and the clocks *)

Section FrameClaims.

Variable laguerre : Z -> Z -> nat -> R.
Variable sphericalHarmonics : Z -> Z -> nat -> R.

Local Open Scope Q_scope.

Lemma setField_glCalls f v p : Program.glCalls (setField f v p) = Program.glCalls p.
Proof. destruct f; reflexivity. Qed.

Lemma setField_shader f v p : Program.shader (setField f v p) = Program.shader p.
Proof. destruct f; reflexivity. Qed.

Lemma setField_time f v p : Program.time (setField f v p) = Program.time p.
Proof. destruct f; reflexivity. Qed.

Lemma top_antitone i j : (i <= j)%nat -> Slider.top j <= Slider.top i.
Proof.
  intros Hij. unfold Slider.top, Slider.sliderHeight.
  assert (H : inject_Z (Z.of_nat i) <= inject_Z (Z.of_nat j))
    by (rewrite <- Zle_Qle; lia).
  lra.
Qed.

(** The slider rows are disjoint: the pointer is inside at most one. *)
Lemma pointInside_unique i j px py :
  Slider.pointInside i px py = true ->
  Slider.pointInside j px py = true ->
  i = j.
Proof.
  unfold Slider.pointInside, Slider.bottom. intros Hi Hj.
  repeat (apply andb_prop in Hi; destruct Hi as [Hi ?]).
  repeat (apply andb_prop in Hj; destruct Hj as [Hj ?]).
  repeat match goal with
         | H : negb (Qle_bool ?a ?b) = true |- _ =>
             apply negb_true_iff in H;
             assert (~ a <= b)
               by (intros Hle; apply Qle_bool_iff in Hle; congruence);
             clear H
         end.
  destruct (Nat.lt_trichotomy i j) as [Hlt | [Heq | Hgt]]; [|exact Heq|]; exfalso.
  - pose proof (top_antitone (S i) j Hlt). lra.
  - pose proof (top_antitone (S j) i Hgt). lra.
Qed.

Lemma sliderStep_outside env i s prog act hov :
  Slider.pointInside i (fst (Env.anchorPos env)) (snd (Env.anchorPos env)) = false ->
  sliderStep laguerre sphericalHarmonics env i s prog act hov
  = Some (prog, act, false :: hov).
Proof. intros H. unfold sliderStep. rewrite H. reflexivity. Qed.

(** With the button up the slider loop changes nothing in the program. *)
Lemma sliderLoop_button_up env ss :
  Env.lmbDown env = false ->
  forall i prog act hov,
  exists act' hov',
    sliderLoop laguerre sphericalHarmonics env i ss prog act hov
    = Some (prog, act', hov').
Proof.
  intros Hup. induction ss as [|s ss IH]; intros i prog act hov; simpl.
  - eauto.
  - unfold sliderStep. rewrite Hup.
    destruct (Slider.pointInside i _ _); simpl; apply IH.
Qed.

(** Where no row is under the pointer the slider loop changes nothing. *)
Lemma sliderLoop_outside env ss :
  forall i prog act hov,
  (forall k, (k < List.length ss)%nat -> inside env (i + k) = false) ->
  progOf (sliderLoop laguerre sphericalHarmonics env i ss prog act hov) = Some prog
  /\ recompileTriggered env prog i ss = false.
Proof.
  induction ss as [|s ss IH]; intros i prog act hov Hout; simpl.
  - split; reflexivity.
  - assert (H0 : inside env i = false)
      by (rewrite <- (Nat.add_0_r i); apply Hout; simpl; lia).
    rewrite sliderStep_outside by exact H0.
    unfold editChanges. fold (inside env i). rewrite H0. simpl.
    apply IH. intros k Hk. rewrite Nat.add_succ_comm. apply Hout. simpl. lia.
Qed.

Lemma sliderStep_progOf env i s prog act hov act' hov' :
  progOf (sliderStep laguerre sphericalHarmonics env i s prog act hov)
  = progOf (sliderStep laguerre sphericalHarmonics env i s prog act' hov').
Proof.
  unfold sliderStep.
  destruct (Slider.pointInside i _ _); [|reflexivity].
  destruct (Env.lmbDown env); [|reflexivity].
  destruct (negb _ && Slider.recompile s); [|reflexivity].
  destruct (recreateShader _ _ _); reflexivity.
Qed.

(** With row [i + k] under the pointer, the slider loop does to the
    program what the loop body does for that one slider. *)
Lemma sliderLoop_inside env ss :
  forall i prog act hov k s,
  nth_error ss k = Some s ->
  inside env (i + k) = true ->
  progOf (sliderLoop laguerre sphericalHarmonics env i ss prog act hov)
  = progOf (sliderStep laguerre sphericalHarmonics env (i + k) s prog act hov)
  /\ recompileTriggered env prog i ss
     = editChanges env prog (i + k) s && Slider.recompile s.
Proof.
  induction ss as [|s0 ss IH]; intros i prog act hov k s Hk Hin.
  - destruct k; discriminate.
  - destruct k as [|k]; simpl in Hk.
    + injection Hk as ->. rewrite Nat.add_0_r in *. simpl.
      assert (Hrest : forall j, (j < List.length ss)%nat -> inside env (S i + j) = false).
      { intros j _. destruct (inside env (S i + j)) eqn:E; [|reflexivity].
        pose proof (pointInside_unique _ _ _ _ Hin E). lia. }
      split.
      * destruct (sliderStep _ _ env i s prog act hov) as [[[p a] h]|] eqn:Es.
        -- destruct (sliderLoop_outside env ss (S i) p a h Hrest) as [Hp _].
           rewrite Hp. reflexivity.
        -- reflexivity.
      * destruct (sliderLoop_outside env ss (S i) prog act hov Hrest) as [_ Ht].
        rewrite Ht. apply orb_false_r.
    + assert (H0 : inside env i = false).
      { destruct (inside env i) eqn:E; [|reflexivity].
        pose proof (pointInside_unique _ _ _ _ Hin E). lia. }
      simpl. rewrite sliderStep_outside by exact H0.
      unfold editChanges at 1. fold (inside env i). rewrite H0. simpl.
      rewrite <- Nat.add_succ_comm in *.
      destruct (IH (S i) prog act (false :: hov) k s Hk Hin) as [IH1 IH2].
      split; [|exact IH2].
      rewrite IH1. apply sliderStep_progOf.
Qed.

Lemma inside_cases env (ss : list Slider.t) i :
  (forall k, (k < List.length ss)%nat -> inside env (i + k) = false)
  \/ (exists k s, nth_error ss k = Some s /\ inside env (i + k) = true).
Proof.
  revert i. induction ss as [|s ss IH]; intros i.
  - left. simpl. intros k Hk. lia.
  - destruct (inside env i) eqn:E.
    + right. exists 0%nat, s. rewrite Nat.add_0_r. split; [reflexivity | exact E].
    + destruct (IH (S i)) as [Hout | (k & s' & Hk & Hin)].
      * left. intros [|k] Hk; [rewrite Nat.add_0_r; exact E|].
        rewrite <- Nat.add_succ_comm. apply Hout. simpl in Hk. lia.
      * right. exists (S k), s'. rewrite <- Nat.add_succ_comm. split; assumption.
Qed.

(** The loop body for the slider under the pointer. *)
Lemma sliderStep_inside env i s prog act hov :
  inside env i = true ->
  let trig := editChanges env prog i s && Slider.recompile s in
  match sliderStep laguerre sphericalHarmonics env i s prog act hov with
  | Some (p', _, _) =>
      Program.glCalls p'
      = (if trig then [CreateVolumeShader (Program.shader p'); DestroyGlShaderProgram]
         else []) ++ Program.glCalls prog
      /\ (trig = false -> Program.shader p' = Program.shader prog)
      /\ Program.time p' = Program.time prog
      /\ (Env.lmbDown env = true -> Slider.value s = FPhase ->
          Program.phase p' = Slider.coordToValue s (fst (Env.cursorPos env)))
      /\ (Env.lmbDown env = false -> p' = prog)
  | None => trig = true
  end.
Proof.
  intros Hin. unfold sliderStep, editChanges. fold (inside env i).
  rewrite Hin. cbn [andb].
  destruct (Env.lmbDown env); cbn [andb].
  - destruct (negb _ && Slider.recompile s) eqn:Et; cbv zeta.
    + unfold recreateShader.
      destruct (createVolumeShader _ _ _ _ _ _ _) as [shd|]; [|reflexivity].
      cbn. rewrite setField_glCalls, setField_time.
      repeat split; try discriminate.
      intros _ Hf. rewrite Hf. reflexivity.
    + rewrite setField_glCalls, setField_shader, setField_time.
      repeat split; try discriminate.
      intros _ Hf. rewrite Hf. reflexivity.
  - cbv zeta. repeat split; discriminate.
Qed.

Lemma adjustFbo_keeps env p :
  countCreate (Program.glCalls (adjustFbo env p)) = countCreate (Program.glCalls p)
  /\ countDestroy (Program.glCalls (adjustFbo env p)) = countDestroy (Program.glCalls p)
  /\ Program.shader (adjustFbo env p) = Program.shader p
  /\ Program.time (adjustFbo env p) = Program.time p
  /\ Program.phase (adjustFbo env p) = Program.phase p.
Proof.
  unfold adjustFbo. cbv zeta.
  destruct (negb _ || negb _); repeat split; reflexivity.
Qed.

Lemma rotate_keeps env p :
  Program.glCalls (rotate env p) = Program.glCalls p
  /\ Program.shader (rotate env p) = Program.shader p
  /\ Program.time (rotate env p) = Program.time p
  /\ Program.phase (rotate env p) = Program.phase p.
Proof.
  unfold rotate.
  destruct (Program.prev_delta p), (Env.cursorDelta env). cbn.
  destruct (Program.rot p). repeat split; reflexivity.
Qed.

(** What the steps of [frame] after the slider loop leave unchanged. *)
Lemma frame_tail_keeps env (b : bool) p :
  let p' := adjustFbo env (if b then rotate env p else p) in
  countCreate (Program.glCalls p') = countCreate (Program.glCalls p)
  /\ countDestroy (Program.glCalls p') = countDestroy (Program.glCalls p)
  /\ Program.shader p' = Program.shader p
  /\ Program.time p' = Program.time p
  /\ Program.phase p' = Program.phase p.
Proof.
  cbv zeta.
  destruct (adjustFbo_keeps env (if b then rotate env p else p))
    as (H1 & H2 & H3 & H4 & H5).
  rewrite H1, H2, H3, H4, H5.
  destruct b; [|repeat split; reflexivity].
  destruct (rotate_keeps env p) as (G1 & G2 & G3 & G4).
  rewrite G1, G2, G3, G4. repeat split; reflexivity.
Qed.

Lemma frame_unfold env prog :
  frame laguerre sphericalHarmonics env prog =
  match sliderLoop laguerre sphericalHarmonics env 0 (Program.sliders prog)
          (advanceClocks env prog) false [] with
  | None => None
  | Some (p, slider_activity, _) =>
      Some (adjustFbo env (if Env.lmbDown env && negb slider_activity
                           then rotate env p else p))
  end.
Proof. reflexivity. Qed.

(** The slider loop of a frame, summarised. *)
Lemma sliderLoop_summary env prog0 ss :
  let trig := recompileTriggered env prog0 0 ss in
  match sliderLoop laguerre sphericalHarmonics env 0 ss prog0 false [] with
  | Some (p', _, _) =>
      Program.glCalls p'
      = (if trig then [CreateVolumeShader (Program.shader p'); DestroyGlShaderProgram]
         else []) ++ Program.glCalls prog0
      /\ (trig = false -> Program.shader p' = Program.shader prog0)
      /\ Program.time p' = Program.time prog0
      /\ (Env.lmbDown env = false -> p' = prog0)
      /\ (forall i s, nth_error ss i = Some s -> inside env i = true ->
          Env.lmbDown env = true -> Slider.value s = FPhase ->
          Program.phase p' = Slider.coordToValue s (fst (Env.cursorPos env)))
  | None => trig = true
  end.
Proof.
  cbv zeta.
  destruct (inside_cases env ss 0) as [Hout | (k & s & Hk & Hin)].
  - destruct (sliderLoop_outside env ss 0 prog0 false [] Hout) as [Hp Ht].
    rewrite Ht.
    destruct (sliderLoop _ _ env 0 ss prog0 false []) as [[[p a] h]|];
      [|discriminate].
    injection Hp as ->. simpl.
    repeat split; try reflexivity.
    intros i s Hi Hin. exfalso.
    assert (Hlen : (i < List.length ss)%nat)
      by (apply nth_error_Some; congruence).
    specialize (Hout i Hlen). simpl in Hout. congruence.
  - destruct (sliderLoop_inside env ss 0 prog0 false [] k s Hk Hin) as [Hp Ht].
    simpl in Hp, Ht, Hin. rewrite Ht.
    pose proof (sliderStep_inside env k s prog0 false [] Hin) as Hs.
    cbv zeta in Hs.
    destruct (sliderLoop _ _ env 0 ss prog0 false []) as [[[p a] h]|];
      destruct (sliderStep _ _ env k s prog0 false []) as [[[p2 a2] h2]|];
      try discriminate; [|exact Hs].
    injection Hp as ->.
    destruct Hs as (H1 & H2 & H3 & H4 & H5).
    repeat split; try assumption.
    intros i s' Hi Hin' Hdown Hf.
    pose proof (pointInside_unique _ _ _ _ Hin Hin') as <-.
    rewrite Hk in Hi. injection Hi as <-. apply H4; assumption.
Qed.

Lemma recompileTriggered_iff env prog0 ss :
  recompileTriggered env prog0 0 ss = true <->
  (Env.lmbDown env = true /\
   exists i s, nth_error ss i = Some s /\ inside env i = true
     /\ Slider.recompile s = true
     /\ ~ Slider.coordToValue s (fst (Env.cursorPos env))
          == getField (Slider.value s) prog0).
Proof.
  assert (Hedit : forall k s,
    editChanges env prog0 k s && Slider.recompile s = true <->
    (Env.lmbDown env = true /\ inside env k = true /\ Slider.recompile s = true
     /\ ~ Slider.coordToValue s (fst (Env.cursorPos env))
          == getField (Slider.value s) prog0)).
  { intros k s. unfold editChanges. fold (inside env k).
    rewrite !andb_true_iff, negb_true_iff.
    assert (Hq : Qeq_bool (Slider.coordToValue s (fst (Env.cursorPos env)))
                   (getField (Slider.value s) prog0) = false
                 <-> ~ Slider.coordToValue s (fst (Env.cursorPos env))
                       == getField (Slider.value s) prog0).
    { split.
      - intros E H. apply Qeq_bool_iff in H. congruence.
      - intros H. destruct (Qeq_bool _ _) eqn:E; [|reflexivity].
        apply Qeq_bool_iff in E. contradiction. }
    rewrite Hq. tauto. }
  destruct (inside_cases env ss 0) as [Hout | (k & s & Hk & Hin)].
  - destruct (sliderLoop_outside env ss 0 prog0 false [] Hout) as [_ Ht].
    rewrite Ht. split; [discriminate|].
    intros (_ & i & s & Hi & Hin & _). exfalso.
    assert (Hlen : (i < List.length ss)%nat)
      by (apply nth_error_Some; congruence).
    specialize (Hout i Hlen). simpl in Hout. congruence.
  - destruct (sliderLoop_inside env ss 0 prog0 false [] k s Hk Hin) as [_ Ht].
    simpl in Ht, Hin. rewrite Ht, Hedit. split.
    + intros (H1 & H2 & H3 & H4). split; [exact H1|]. exists k, s. tauto.
    + intros (H1 & i & s' & Hi & Hin' & H3 & H4).
      pose proof (pointInside_unique _ _ _ _ Hin Hin') as <-.
      rewrite Hk in Hi. injection Hi as <-. tauto.
Qed.

(** C6: in a call of [frame] the volume shader is destroyed and created
    anew exactly when the pointer changes the value of a slider whose
    recompile flag is set (an assertion failure inside the recompilation
    can only occur in that case); a change on an unflagged slider and an
    edit that leaves the value as it was cause no recompilation. *)
Theorem frame_recompiles_iff_flagged_value_changes (env : Env.t) (prog : Program.t) :
  (recompileTriggered env (advanceClocks env prog) 0 (Program.sliders prog) = true
   <->
   (Env.lmbDown env = true /\
    exists i s, nth_error (Program.sliders prog) i = Some s
      /\ inside env i = true
      /\ Slider.recompile s = true
      /\ ~ Slider.coordToValue s (fst (Env.cursorPos env))
           == getField (Slider.value s) (advanceClocks env prog)))
  /\ (forall prog',
        frame laguerre sphericalHarmonics env prog = Some prog' ->
        countCreate (Program.glCalls prog')
          = (countCreate (Program.glCalls prog)
             + (if recompileTriggered env (advanceClocks env prog) 0
                     (Program.sliders prog) then 1 else 0))%nat
        /\ countDestroy (Program.glCalls prog')
          = (countDestroy (Program.glCalls prog)
             + (if recompileTriggered env (advanceClocks env prog) 0
                     (Program.sliders prog) then 1 else 0))%nat
        /\ (recompileTriggered env (advanceClocks env prog) 0
              (Program.sliders prog) = false ->
            Program.shader prog' = Program.shader prog))
  /\ (frame laguerre sphericalHarmonics env prog = None ->
      recompileTriggered env (advanceClocks env prog) 0 (Program.sliders prog)
      = true).
Proof.
  split; [apply recompileTriggered_iff|].
  rewrite frame_unfold.
  pose proof (sliderLoop_summary env (advanceClocks env prog) (Program.sliders prog)) as Hs.
  cbv zeta in Hs.
  destruct (sliderLoop _ _ env 0 _ _ false []) as [[[p a] h]|].
  - split; [|discriminate].
    intros prog' Hf. injection Hf as <-.
    destruct Hs as (H1 & H2 & _).
    destruct (frame_tail_keeps env (Env.lmbDown env && negb a) p) as (F1 & F2 & F3 & _).
    rewrite F1, F2, F3, H1.
    destruct (recompileTriggered _ _ _ _); simpl.
    + repeat split; try discriminate; unfold countCreate, countDestroy;
        simpl; lia.
    + repeat split; try lia. exact H2.
  - split; [discriminate|]. intros _. exact Hs.
Qed.



(** [init] runs through: no capacity is exceeded and no assertion
    fires; the "Time" slider is the first slider and is bound to
    [prog.phase]. *)
Lemma init_defined env :
  exists prog,
    init laguerre sphericalHarmonics env = Some prog
    /\ nth_error (Program.sliders prog) 0 = Some (Slider.mk "Time" 0 5 FPhase 3 false)
    /\ Program.sliders prog = default_sliders ++ waveSliders 0 ++ waveSliders 1
    /\ Program.phase prog = 0
    /\ map Wave.amplitude (Program.waves prog) = [1; 0]
    /\ countCreate (Program.glCalls prog) = 1%nat.
Proof.
  unfold init. cbn -[recreateShader createFbo scaleReso Qle_bool].
  unfold recreateShader, createVolumeShader.
  cbn [Program.waves Program.sampleCount Program.complexColor Program.absorption
       Program.cutoff Program.set_sliders Program.set_waves List.length Nat.eqb
       compileWaves].
  repeat match goal with
  | |- context [hydrogenWaveFuncStr laguerre sphericalHarmonics ?n ?l ?m ?p] =>
      let E := fresh "E" in
      destruct (hydrogenWaveFuncStr laguerre sphericalHarmonics n l m p)
        as [[? ?]|] eqn:E;
      [ | exfalso; revert E; apply hydrogenWaveFuncStr_defined;
          vm_compute; intuition discriminate ]
  end.
  eexists. split; [reflexivity|].
  repeat split.
Qed.

(** For every slider of the program that [init] builds, [coordToValue]
    stays inside the slider's range. *)
Lemma init_sliders_stay_in_range env prog s x :
  init laguerre sphericalHarmonics env = Some prog ->
  In s (Program.sliders prog) ->
  Slider.min s <= Slider.coordToValue s x <= Slider.max s.
Proof.
  intros Hi Hin.
  destruct (init_defined env) as (p0 & Hp0 & _ & Hs & _).
  rewrite Hp0 in Hi. injection Hi as <-. rewrite Hs in Hin.
  rewrite app_assoc in Hin. apply in_app_or in Hin. destruct Hin as [Hin|Hin].
  - apply (program_sliders_stay_in_range 0 s x Hin).
  - apply (program_sliders_stay_in_range 1 s x).
    apply in_or_app. right. exact Hin.
Qed.


End FrameClaims.

(* ================================================================= *)
(** ** The compiled formula against value *)

Local Open Scope R_scope.

Section EvalFacts.

Variable st : Glsl.state.

Lemma evalTerms_app a b :
  Glsl.evalTerms st (a ++ b) = Glsl.lift2 Rplus (Glsl.evalTerms st a) (Glsl.evalTerms st b).
Proof.
  induction a as [|t a IH]; simpl.
  - destruct (Glsl.evalTerms st b); simpl; [f_equal; lra | reflexivity].
  - rewrite IH. destruct (Glsl.eval st t), (Glsl.evalTerms st a), (Glsl.evalTerms st b);
      simpl; try reflexivity. f_equal. lra.
Qed.

Lemma eval_Sum ts :
  ts <> [] -> Glsl.eval st (Sum ts) = Glsl.evalTerms st ts.
Proof.
  intros Hne. destruct ts as [|t ts]; [contradiction|].
  change (Glsl.eval st (Sum (t :: ts)))
    with ((fix go (l : list expr) : option R :=
             match l with
             | [] => Some 0
             | t :: l' => Glsl.lift2 Rplus (Glsl.eval st t) (go l')
             end) (t :: ts)).
  generalize (t :: ts). intros l.
  induction l as [|x l IH]; [reflexivity|].
  cbn [Glsl.evalTerms]. rewrite <- IH. reflexivity.
Qed.

Lemma evalTerms_flat_map (F : nat -> list expr) (f : nat -> R) (l : list nat) :
  (forall i, In i l -> Glsl.evalTerms st (F i) = Some (f i)) ->
  Glsl.evalTerms st (flat_map F l) = Some (sumOver f l).
Proof.
  induction l as [|i l IH]; intros H; simpl; [reflexivity|].
  rewrite evalTerms_app, (H i) by (left; reflexivity).
  rewrite IH by (intros j Hj; apply H; right; exact Hj). reflexivity.
Qed.

End EvalFacts.

Lemma fold_left_sumOver (f : nat -> R) l acc :
  fold_left (fun sum i => sum + f i) l acc = acc + sumOver f l.
Proof.
  revert acc. induction l as [|i l IH]; intros acc; simpl; [lra|].
  rewrite IH. lra.
Qed.

Lemma polySum_sumOver c x :
  polySum c x = sumOver (fun i => nth i c 0 * x ^ i) (seq 0 maxHPolyTermCount).
Proof. unfold polySum. rewrite fold_left_sumOver. lra. Qed.

Lemma glsl_pow_nat x (k : nat) :
  0 <= x -> (0 < x \/ (0 < k)%nat) ->
  Glsl.pow x (IZR (Z.of_nat k)) = Some (x ^ k).
Proof.
  intros Hx Hd. unfold Glsl.pow.
  destruct (Rlt_dec 0 x) as [Hpos|Hnpos].
  - rewrite <- INR_IZR_INZ, Rpower_pow by exact Hpos. reflexivity.
  - assert (x = 0) by lra. subst x.
    destruct Hd as [Hd|Hk]; [lra|].
    destruct (Req_dec_T 0 0) as [_|Hne]; [|contradiction].
    destruct (Rlt_dec 0 (IZR (Z.of_nat k))) as [_|Hn].
    + rewrite pow_i by exact Hk. reflexivity.
    + exfalso. apply Hn. apply IZR_lt. lia.
Qed.

Lemma sign_abs x : Glsl.sign x * Rabs x = x.
Proof.
  unfold Glsl.sign.
  destruct (Rlt_dec 0 x); [rewrite Rabs_right; lra|].
  destruct (Rlt_dec x 0); [rewrite Rabs_left; lra|].
  assert (x = 0) by lra. subst. rewrite Rabs_R0. lra.
Qed.

Lemma sign_abs_pow x (i : nat) :
  (if Nat.odd i then Glsl.sign x else 1) * Rabs x ^ i = x ^ i.
Proof.
  destruct (Nat.Even_or_Odd i) as [[k ->] | [k ->]].
  - replace (Nat.odd (2 * k)) with false.
    + rewrite !pow_Rsqr, <- Rsqr_abs. lra.
    + symmetry. rewrite <- Nat.negb_even, Nat.even_mul. reflexivity.
  - replace (Nat.odd (2 * k + 1)) with true.
    + rewrite !pow_add, !pow_Rsqr, <- Rsqr_abs, !pow_1.
      transitivity (x² ^ k * (Glsl.sign x * Rabs x)); [ring|].
      rewrite sign_abs. reflexivity.
    + symmetry. rewrite Nat.add_1_r, Nat.odd_succ, Nat.even_mul. reflexivity.
Qed.

Lemma evalTerms_laguerre st rho x coeff :
  Glsl.eval st rho = Some x -> 0 <= x ->
  Glsl.evalTerms st (laguerreTerms rho coeff) = Some (polySum coeff x).
Proof.
  intros Hrho Hx. rewrite polySum_sumOver. unfold laguerreTerms.
  apply evalTerms_flat_map. intros i _. cbv zeta.
  destruct (Req_dec_T (nth i coeff 0) 0) as [E|E].
  - rewrite E. simpl. f_equal. lra.
  - destruct i as [|i].
    + simpl. f_equal. lra.
    + cbn [Nat.eqb Glsl.evalTerms Glsl.eval]. rewrite Hrho.
      cbn [Glsl.bind Glsl.lift2].
      rewrite glsl_pow_nat by (try assumption; right; lia).
      cbn [Glsl.bind Glsl.lift2]. f_equal. lra.
Qed.

Lemma evalTerms_spherical st coeff :
  Glsl.evalTerms st (sphericalTerms coeff)
  = Some (polySum coeff (Glsl.sv st Vcos_theta)).
Proof.
  rewrite polySum_sumOver. unfold sphericalTerms.
  apply evalTerms_flat_map. intros i _. cbv zeta.
  destruct (Req_dec_T (nth i coeff 0) 0) as [E|E].
  - rewrite E. simpl. f_equal. lra.
  - destruct i as [|i].
    + simpl. f_equal. lra.
    + cbn [Nat.eqb Glsl.evalTerms Glsl.eval Glsl.call Glsl.bind Glsl.lift2].
      rewrite glsl_pow_nat by (try apply Rabs_pos; right; lia).
      rewrite <- (sign_abs_pow (Glsl.sv st Vcos_theta) (S i)).
      destruct (Nat.odd (S i));
        cbn [Glsl.eval Glsl.call Glsl.bind Glsl.lift2]; f_equal; ring.
Qed.

Lemma laguerreTerms_nonempty rho coeff :
  (exists i, (i < maxHPolyTermCount)%nat /\ nth i coeff 0 <> 0) ->
  laguerreTerms rho coeff <> [].
Proof.
  intros (i & Hi & Hc) E.
  assert (Hin : In (if Nat.eqb i 0 then Lit (nth i coeff 0)
                    else Mul (Lit (nth i coeff 0)) (Pow rho (IntLit (Z.of_nat i))))
                   (laguerreTerms rho coeff)).
  { unfold laguerreTerms. apply in_flat_map. exists i. split.
    - apply in_seq. lia.
    - cbv zeta. destruct (Req_dec_T (nth i coeff 0) 0); [contradiction|].
      left. reflexivity. }
  rewrite E in Hin. exact Hin.
Qed.

Lemma sphericalTerms_nonempty coeff :
  (exists i, (i < maxHPolyTermCount)%nat /\ nth i coeff 0 <> 0) ->
  sphericalTerms coeff <> [].
Proof.
  intros (i & Hi & Hc) E.
  assert (Hin : exists t, In t (sphericalTerms coeff)).
  { unfold sphericalTerms. eexists. apply in_flat_map. exists i. split.
    - apply in_seq. lia.
    - cbv zeta. destruct (Req_dec_T (nth i coeff 0) 0); [contradiction|].
      left. reflexivity. }
  destruct Hin as [t Ht]. rewrite E in Ht. exact Ht.
Qed.

Lemma nth_coeffArray f i :
  (i < maxHPolyTermCount)%nat -> nth i (coeffArray f) 0 = f i.
Proof.
  intros Hi. unfold coeffArray.
  rewrite (nth_indep _ 0 (f 0%nat)) by (rewrite length_map, length_seq; exact Hi).
  rewrite map_nth, seq_nth by exact Hi. reflexivity.
Qed.

Lemma powerRZ_nat x (k : Z) : (0 <= k)%Z -> powerRZ x k = x ^ Z.to_nat k.
Proof.
  intros Hk. rewrite pow_powerRZ, Z2Nat.id by exact Hk. reflexivity.
Qed.

Section Agreement.

Variable laguerre : Z -> Z -> nat -> R.
Variable sphericalHarmonics : Z -> Z -> nat -> R.

Lemma createHWaveFunc_some n l m phase a w :
  createHWaveFunc laguerre sphericalHarmonics n l m phase a = Some w ->
  w = HWaveFunc.mk (normalizationFactor n l a)
        (coeffArray (laguerre (n - l - 1) (2 * l + 1)))
        (coeffArray (sphericalHarmonics l m)) phase n l m a
  /\ (0 < n /\ 0 <= l < n /\ Z.abs m <= l
      /\ n - l < Z.of_nat maxHPolyTermCount
      /\ l - 1 < Z.of_nat maxHPolyTermCount)%Z.
Proof.
  intros H.
  assert (Hd : createHWaveFunc laguerre sphericalHarmonics n l m phase a <> None)
    by (rewrite H; discriminate).
  apply createHWaveFunc_defined in Hd.
  split; [|lia].
  unfold createHWaveFunc in H.
  destruct (negb _); [discriminate|].
  destruct (negb _); [discriminate|].
  destruct (negb _); [discriminate|].
  destruct (negb _); [discriminate|].
  destruct (negb _); [discriminate|].
  injection H as <-. reflexivity.
Qed.

Lemma clamp_l_id n l : (l < n)%Z -> clamp_l n l = l.
Proof. intros H. unfold clamp_l. destruct (Z.gtb_spec l (n - 1)); lia. Qed.

Lemma clamp_m_id l m : (Z.abs m <= l)%Z -> clamp_m l m = m.
Proof.
  intros H. unfold clamp_m.
  destruct (Z.gtb_spec m 0), (Z.gtb_spec m l); cbn [andb]; try lia;
    destruct (Z.ltb_spec m 0), (Z.ltb_spec m (- l)); cbn [andb]; lia.
Qed.

Lemma hydrogenWaveFuncStr_some n l m phase :
  (0 < n)%Z -> (0 <= l < n)%Z -> (Z.abs m <= l)%Z ->
  (n - l < Z.of_nat maxHPolyTermCount)%Z ->
  (l - 1 < Z.of_nat maxHPolyTermCount)%Z ->
  hydrogenWaveFuncStr laguerre sphericalHarmonics n l m phase =
  Some (fold_left Mul
          ([ Call Fexp (Div (neg_prefix (rho_str n 1)) (Lit 2));
             Pow (rho_str n 1) (IntLit l) ]
           ++ [Sum (laguerreTerms (rho_str n 1)
                      (coeffArray (laguerre (n - l - 1) (2 * l + 1))))]
           ++ sinFactors m
           ++ [Sum (sphericalTerms (coeffArray (sphericalHarmonics l m)))])
          (Mul (Lit (normalizationFactor n l 1)) (Lit (brightness n))),
        Add (Mul (IntLit m) (Var Vphi)) (Lit phase)).
Proof.
  intros Hn Hl Hm Hd Hd'. unfold hydrogenWaveFuncStr. cbv zeta.
  rewrite (clamp_l_id n l) by lia. rewrite (clamp_m_id l m) by lia.
  destruct (Z.gtb_spec n 0); [|lia].
  destruct (Z.geb_spec l 0); [|lia].
  destruct (Z.ltb_spec (n - l) (Z.of_nat maxHPolyTermCount)); [|lia].
  destruct (Z.ltb_spec (l - 1) (Z.of_nat maxHPolyTermCount)); [|lia].
  reflexivity.
Qed.

Lemma odd_of_nat k : Z.odd (Z.of_nat k) = Nat.odd k.
Proof.
  destruct (Nat.Even_or_Odd k) as [[j ->] | [j ->]].
  - rewrite Nat2Z.inj_mul, Z.odd_mul. simpl (Z.odd (Z.of_nat 2)).
    rewrite <- Nat.negb_even, Nat.even_mul. reflexivity.
  - rewrite Nat2Z.inj_add, Nat2Z.inj_mul, Z.odd_add, Z.odd_mul.
    simpl (Z.odd (Z.of_nat 2)). simpl (Z.odd (Z.of_nat 1)).
    rewrite Nat.add_1_r, Nat.odd_succ, Nat.even_mul. reflexivity.
Qed.

Lemma eval_Mul st a b x y :
  Glsl.eval st a = Some x -> Glsl.eval st b = Some y ->
  Glsl.eval st (Mul a b) = Some (x * y).
Proof. intros Ha Hb. cbn [Glsl.eval]. rewrite Ha, Hb. reflexivity. Qed.

(** The sine factor of the compiled amplitude: sin^|m|, for either sign
    of m. *)
Lemma eval_sinFactors st (m : Z) (s : R) (e : expr) (v : R) :
  Glsl.sv st Vsin_theta = s ->
  Glsl.eval st e = Some v ->
  Glsl.eval st (fold_left Mul (sinFactors m) e) = Some (v * s ^ Z.abs_nat m).
Proof.
  intros Hs He. unfold sinFactors.
  destruct (Z.eqb_spec m 0) as [->|Hne].
  - simpl. rewrite He. f_equal. lra.
  - assert (Hk : Z.abs m = Z.of_nat (Z.abs_nat m))
      by (rewrite Zabs2Nat.id_abs; reflexivity).
    assert (HS : Glsl.eval st (if Z.odd (Z.abs m) then Call Fsign (Var Vsin_theta)
                               else Lit 1)
                 = Some (if Nat.odd (Z.abs_nat m) then Glsl.sign s else 1)).
    { rewrite Hk, odd_of_nat.
      destruct (Nat.odd _); cbn [Glsl.eval Glsl.call Glsl.bind]; rewrite ?Hs; reflexivity. }
    assert (Hp : Glsl.eval st (Pow (Call Fabs (Var Vsin_theta)) (IntLit (Z.abs m)))
                 = Some (Rabs s ^ Z.abs_nat m)).
    { cbn [Glsl.eval Glsl.call Glsl.bind]. rewrite Hs, Hk.
      apply glsl_pow_nat; [apply Rabs_pos | right; lia]. }
    cbn [fold_left].
    rewrite (eval_Mul st _ _ _ _ (eval_Mul st _ _ _ _ He HS) Hp).
    rewrite <- (sign_abs_pow s (Z.abs_nat m)). f_equal. ring.
Qed.

(** For every valid (n, l, m) the compiled amplitude is the brightness
    factor times [spec_amplitude], and the compiled phase is the phase of
    [value]. *)
Lemma compiled_is_spec_amplitude n l m phase w amp ph st r theta phi :
  createHWaveFunc laguerre sphericalHarmonics n l m phase 1 = Some w ->
  hydrogenWaveFuncStr laguerre sphericalHarmonics n l m phase = Some (amp, ph) ->
  Glsl.sv st Vr = r -> Glsl.sv st Vsin_theta = sin theta ->
  Glsl.sv st Vcos_theta = cos theta -> Glsl.sv st Vphi = phi ->
  0 <= r -> (0 < r \/ (0 < l)%Z) ->
  (exists i, (i < maxHPolyTermCount)%nat /\ laguerre (n - l - 1)%Z (2 * l + 1)%Z i <> 0) ->
  (exists i, (i < maxHPolyTermCount)%nat /\ sphericalHarmonics l m i <> 0) ->
  Glsl.eval st amp = Some (brightness n * spec_amplitude w r theta)
  /\ Glsl.eval st ph = Some (value_phase w phi).
Proof.
  intros Hw Hc Hr Hs Hcos Hphi Hr0 Hdef HL HY.
  apply createHWaveFunc_some in Hw. destruct Hw as (-> & Hn & Hl & Hml & Hd & Hd').
  rewrite hydrogenWaveFuncStr_some in Hc by assumption.
  injection Hc as <- <-.
  assert (HnR : 0 < IZR n) by (apply IZR_lt; lia).
  set (rho := 2 * r / (IZR n * 1)).
  assert (Hrho : Glsl.eval st (rho_str n 1) = Some rho).
  { unfold rho_str. cbn [Glsl.eval Glsl.lift2 Glsl.bind]. rewrite Hr.
    apply f_equal. unfold rho. field. lra. }
  assert (Hrho0 : 0 <= rho).
  { unfold rho. apply Rmult_le_pos; [lra|].
    apply Rlt_le, Rinv_0_lt_compat. lra. }
  assert (HE1 : Glsl.eval st (Call Fexp (Div (neg_prefix (rho_str n 1)) (Lit 2)))
                = Some (exp (- rho / 2))).
  { unfold rho_str. cbn [neg_prefix Glsl.eval Glsl.lift2 Glsl.bind option_map].
    rewrite Hr. destruct (Req_dec_T 2 0) as [E|_]; [lra|].
    cbn [Glsl.call Glsl.bind]. apply f_equal. apply f_equal. unfold rho. field. lra. }
  assert (HE2 : Glsl.eval st (Pow (rho_str n 1) (IntLit l))
                = Some (powerRZ rho l)).
  { cbn [Glsl.eval]. rewrite Hrho. cbn [Glsl.bind].
    rewrite powerRZ_nat by lia.
    rewrite <- (Z2Nat.id l) at 1 by lia.
    apply glsl_pow_nat; [exact Hrho0|].
    destruct Hdef as [Hpos|Hl0]; [left|right; lia].
    unfold rho. apply Rmult_lt_0_compat; [lra|].
    apply Rinv_0_lt_compat. lra. }
  assert (HLs : Glsl.eval st (Sum (laguerreTerms (rho_str n 1)
                   (coeffArray (laguerre (n - l - 1) (2 * l + 1)))))
                = Some (polySum (coeffArray (laguerre (n - l - 1) (2 * l + 1))) rho)).
  { rewrite eval_Sum.
    - apply evalTerms_laguerre; assumption.
    - apply laguerreTerms_nonempty. destruct HL as (i & Hi & Hne).
      exists i. split; [exact Hi|]. rewrite nth_coeffArray; assumption. }
  assert (HYs : Glsl.eval st (Sum (sphericalTerms (coeffArray (sphericalHarmonics l m))))
                = Some (polySum (coeffArray (sphericalHarmonics l m)) (cos theta))).
  { rewrite eval_Sum.
    - rewrite evalTerms_spherical, Hcos. reflexivity.
    - apply sphericalTerms_nonempty. destruct HY as (i & Hi & Hne).
      exists i. split; [exact Hi|]. rewrite nth_coeffArray; assumption. }
  split.
  - rewrite !fold_left_app. cbn [fold_left].
    etransitivity.
    + eapply eval_Mul; [|exact HYs].
      eapply eval_sinFactors; [exact Hs |].
      eapply eval_Mul; [|exact HLs].
      eapply eval_Mul; [|exact HE2].
      eapply eval_Mul; [|exact HE1].
      eapply eval_Mul; reflexivity.
    + apply f_equal. unfold spec_amplitude, value_rho.
      cbn [HWaveFunc.normalization HWaveFunc.laguerreCoeff HWaveFunc.spheCoeff
           HWaveFunc.n HWaveFunc.l HWaveFunc.m].
      fold rho. ring.
  - cbn [Glsl.eval Glsl.lift2 Glsl.bind]. rewrite Hphi.
    apply f_equal. unfold value_phase.
    cbn [HWaveFunc.m HWaveFunc.phase]. ring.
Qed.

(** [value] scales the angular sum by sin^m with the signed m: the two
    amplitudes agree for m >= 0 and differ by the factor sin^(2|m|) for
    m < 0. *)
Lemma value_amplitude_nonneg_m (w : HWaveFunc.t) r theta :
  (0 <= HWaveFunc.m w)%Z ->
  value_amplitude w r theta = spec_amplitude w r theta.
Proof.
  intros Hm. unfold value_amplitude, spec_amplitude. cbv zeta.
  rewrite (powerRZ_nat (sin theta)) by exact Hm.
  rewrite Zabs2Nat.abs_nat_nonneg by exact Hm. reflexivity.
Qed.

Lemma value_amplitude_neg_m (w : HWaveFunc.t) r theta :
  (HWaveFunc.m w < 0)%Z -> sin theta <> 0 ->
  spec_amplitude w r theta
  = value_amplitude w r theta * sin theta ^ (2 * Z.abs_nat (HWaveFunc.m w)).
Proof.
  intros Hm Hs. unfold value_amplitude, spec_amplitude. cbv zeta.
  assert (Hp : powerRZ (sin theta) (HWaveFunc.m w)
               = / sin theta ^ Z.abs_nat (HWaveFunc.m w)).
  { replace (HWaveFunc.m w) with (- Z.of_nat (Z.abs_nat (HWaveFunc.m w)))%Z at 1
      by (rewrite Zabs2Nat.id_abs; lia).
    rewrite powerRZ_neg', <- pow_powerRZ. reflexivity. }
  rewrite Hp.
  replace (2 * Z.abs_nat (HWaveFunc.m w))%nat
    with (Z.abs_nat (HWaveFunc.m w) + Z.abs_nat (HWaveFunc.m w))%nat by lia.
  rewrite pow_add. field. apply pow_nonzero. exact Hs.
Qed.

End Agreement.

Lemma sumOver_zero (g : nat -> R) l :
  (forall i, In i l -> g i = 0) -> sumOver g l = 0.
Proof.
  induction l as [|i l IH]; intros H; simpl; [reflexivity|].
  rewrite (H i) by (left; reflexivity).
  rewrite IH by (intros j Hj; apply H; right; exact Hj). lra.
Qed.

Lemma polySum_constant f x :
  (forall i, (1 <= i < maxHPolyTermCount)%nat -> f i = 0) ->
  polySum (coeffArray f) x = f 0%nat.
Proof.
  intros Hz. rewrite polySum_sumOver.
  change (seq 0 maxHPolyTermCount) with (0%nat :: seq 1 (maxHPolyTermCount - 1)).
  cbn [sumOver fold_right].
  fold (sumOver (fun i => nth i (coeffArray f) 0 * x ^ i) (seq 1 (maxHPolyTermCount - 1))).
  rewrite sumOver_zero.
  - rewrite nth_coeffArray by (unfold maxHPolyTermCount; lia). simpl. lra.
  - intros i Hi. apply in_seq in Hi.
    rewrite nth_coeffArray by (unfold maxHPolyTermCount in *; lia).
    rewrite Hz by (unfold maxHPolyTermCount in *; lia). lra.
Qed.

Lemma laguerre_0_3 i :
  Math.laguerre 0 3 i = if Nat.eqb i 0 then 1 else 0.
Proof.
  unfold Math.laguerre. destruct i as [|i]; simpl; [field | reflexivity].
Qed.

Lemma sphericalHarmonics_1_1 (m : Z) i :
  Z.abs m = 1%Z ->
  Math.sphericalHarmonics 1 m i
  = if Nat.eqb i 0 then sqrt (3 / (8 * PI)) else 0.
Proof.
  intros Hm. unfold Math.sphericalHarmonics. rewrite Hm.
  destruct i as [|i].
  - simpl. replace ((1 + 1 + 1) / (4 * PI) * 1 / (1 + 1)) with (3 / (8 * PI)).
    + unfold Math.legendre. simpl. field.
    + field. apply Rgt_not_eq, PI_RGT_0.
  - unfold Math.legendre.
    replace ((S i + Z.to_nat 1 <=? Z.to_nat 1)%nat) with false.
    + simpl. lra.
    + symmetry. apply Nat.leb_gt. simpl. lia.
Qed.

Lemma fact_pos k : 0 < Math.fact k.
Proof. unfold Math.fact. apply INR_fact_lt_0. Qed.

Lemma normalizationFactor_pos n l a :
  (0 < n)%Z -> 0 < a -> 0 < normalizationFactor n l a.
Proof.
  intros Hn Ha. unfold normalizationFactor.
  assert (HnR : 0 < IZR n) by (apply IZR_lt; lia).
  pose proof (fact_pos (n - l - 1)) as H1.
  pose proof (fact_pos (n + l)) as H2.
  apply sqrt_lt_R0.
  apply Rdiv_lt_0_compat.
  - apply Rmult_lt_0_compat; [|exact H1].
    apply pow_lt. apply Rdiv_lt_0_compat; [lra|].
    apply Rmult_lt_0_compat; assumption.
  - apply Rmult_lt_0_compat; [lra | exact H2].
Qed.

Lemma brightness_pos n : 0 < brightness n.
Proof.
  unfold brightness, Rpower.
  pose proof (exp_pos (5 / 2 * ln (IZR n))). lra.
Qed.

Lemma Cmod_value (w : HWaveFunc.t) r theta phi :
  Cmod (value w r theta phi) = Rabs (value_amplitude w r theta).
Proof.
  unfold Cmod, value. cbn [Complex.a Complex.b].
  set (a := value_amplitude w r theta). set (p := value_phase w phi).
  replace (a * cos p * (a * cos p) + a * sin p * (a * sin p))
    with (a² * ((sin p)² + (cos p)²)) by (unfold Rsqr; ring).
  rewrite sin2_cos2, Rmult_1_r. apply sqrt_Rsqr_abs.
Qed.

(** The orbital (n, l, m) = (2, 1, m) with |m| = 1 at r = 1, theta = pi/6. *)
Lemma spec_amplitude_2_1 (m : Z) phase :
  Z.abs m = 1%Z ->
  let w := HWaveFunc.mk (normalizationFactor 2 1 1)
             (coeffArray (Math.laguerre 0 3))
             (coeffArray (Math.sphericalHarmonics 1 m)) phase 2 1 m 1 in
  spec_amplitude w 1 (PI / 6)
  = normalizationFactor 2 1 1 * exp (- 1 / 2) * sqrt (3 / (8 * PI)) / 2
  /\ 0 < spec_amplitude w 1 (PI / 6).
Proof.
  intros Hm w.
  assert (E : spec_amplitude w 1 (PI / 6)
              = normalizationFactor 2 1 1 * exp (- 1 / 2) * sqrt (3 / (8 * PI)) / 2).
  { unfold spec_amplitude, value_rho. subst w.
    cbn [HWaveFunc.normalization HWaveFunc.laguerreCoeff HWaveFunc.spheCoeff
         HWaveFunc.n HWaveFunc.l HWaveFunc.m].
    replace (2 * 1 / (2 * 1)) with 1 by field.
    rewrite !polySum_constant.
    - rewrite laguerre_0_3, sphericalHarmonics_1_1 by exact Hm.
      replace (Z.abs_nat m) with 1%nat by lia.
      rewrite sin_PI6. simpl. replace (- (1) / 2) with (-1 / 2) by lra. field.
    - intros i Hi. rewrite sphericalHarmonics_1_1 by exact Hm.
      destruct i; [lia | reflexivity].
    - intros i Hi. rewrite laguerre_0_3. destruct i; [lia | reflexivity]. }
  split; [exact E|]. rewrite E.
  pose proof (normalizationFactor_pos 2 1 1 eq_refl Rlt_0_1) as HN.
  pose proof (exp_pos (- 1 / 2)) as He.
  assert (HY : 0 < sqrt (3 / (8 * PI))).
  { apply sqrt_lt_R0. apply Rdiv_lt_0_compat; [lra|].
    pose proof PI_RGT_0. lra. }
  apply Rdiv_lt_0_compat; [|lra].
  apply Rmult_lt_0_compat; [|exact HY].
  apply Rmult_lt_0_compat; assumption.
Qed.

Lemma pointState_coords r theta phi :
  Glsl.sv (pointState r theta phi) Vr = r
  /\ Glsl.sv (pointState r theta phi) Vsin_theta = sin theta
  /\ Glsl.sv (pointState r theta phi) Vcos_theta = cos theta
  /\ Glsl.sv (pointState r theta phi) Vphi = phi.
Proof. repeat split; reflexivity. Qed.

Lemma laguerre_constant_term k alpha : Math.laguerre k alpha 0 <> 0.
Proof.
  unfold Math.laguerre. cbn [Nat.leb].
  pose proof (INR_fact_lt_0 (Z.to_nat k + Z.to_nat alpha)) as H1.
  pose proof (INR_fact_lt_0 (Z.to_nat k - 0)) as H2.
  pose proof (INR_fact_lt_0 (Z.to_nat alpha + 0)) as H3.
  pose proof (INR_fact_lt_0 0) as H4.
  apply Rgt_not_eq. apply Rdiv_lt_0_compat.
  - simpl. lra.
  - apply Rmult_lt_0_compat; [apply Rmult_lt_0_compat|]; assumption.
Qed.

Lemma legendre_leading l : 0 < Math.legendre l l.
Proof.
  unfold Math.legendre.
  rewrite Nat.leb_refl, Nat.sub_diag. cbn [Nat.even andb Nat.div].
  replace (0 / 2)%nat with 0%nat by reflexivity.
  apply Rdiv_lt_0_compat.
  - simpl. rewrite Rmult_1_l. apply INR_fact_lt_0.
  - repeat apply Rmult_lt_0_compat; try apply INR_fact_lt_0.
    apply pow_lt. lra.
Qed.

Lemma sphericalHarmonics_leading l m :
  (0 <= l)%Z -> (Z.abs m <= l)%Z ->
  Math.sphericalHarmonics l m (Z.to_nat l - Z.to_nat (Z.abs m)) <> 0.
Proof.
  intros Hl Hm. unfold Math.sphericalHarmonics.
  set (l' := Z.to_nat l). set (mu := Z.to_nat (Z.abs m)).
  assert (Hmu : (mu <= l')%nat) by (subst l' mu; lia).
  replace (l' - mu + mu)%nat with l' by lia.
  pose proof (legendre_leading l') as HP.
  pose proof (INR_fact_lt_0 l') as H1.
  pose proof (INR_fact_lt_0 (l' - mu)) as H2.
  pose proof (INR_fact_lt_0 (l' + mu)) as H3.
  pose proof PI_RGT_0 as Hpi.
  apply Rgt_not_eq. apply Rmult_lt_0_compat.
  - apply sqrt_lt_R0. apply Rdiv_lt_0_compat; [|exact H3].
    apply Rmult_lt_0_compat; [|exact H2].
    apply Rdiv_lt_0_compat; [|lra].
    apply lt_0_INR. lia.
  - apply Rdiv_lt_0_compat; [|exact H2].
    apply Rmult_lt_0_compat; assumption.
Qed.

(** With the coefficient tables modelled from the spec, C1 holds for
    every valid (n, l, m) with m >= 0 and n <= 30, at every point with
    r > 0: the compiled text evaluates to the brightness factor times the
    amplitude of [value], and to the phase of [value]. *)
Lemma compiled_agrees_with_value_for_nonneg_m n l m phase w amp ph r theta phi :
  createHWaveFunc Math.laguerre Math.sphericalHarmonics n l m phase 1 = Some w ->
  hydrogenWaveFuncStr Math.laguerre Math.sphericalHarmonics n l m phase
    = Some (amp, ph) ->
  (n <= Z.of_nat maxHPolyTermCount)%Z -> (0 <= m)%Z -> 0 < r ->
  Glsl.eval (pointState r theta phi) amp
    = Some (brightness n * value_amplitude w r theta)
  /\ Glsl.eval (pointState r theta phi) ph = Some (value_phase w phi)
  /\ Complex.a (value w r theta phi)
     = brightness n * value_amplitude w r theta / brightness n
       * cos (value_phase w phi).
Proof.
  intros Hw Hc Hn Hm Hr.
  destruct (createHWaveFunc_some _ _ _ _ _ _ _ _ Hw) as (Ew & Hn0 & Hl & Hml & _).
  assert (Hwm : HWaveFunc.m w = m) by (rewrite Ew; reflexivity).
  rewrite (value_amplitude_nonneg_m w r theta) by (rewrite Hwm; exact Hm).
  destruct (pointState_coords r theta phi) as (C1 & C2 & C3 & C4).
  destruct (compiled_is_spec_amplitude Math.laguerre Math.sphericalHarmonics
              n l m phase w amp ph (pointState r theta phi) r theta phi
              Hw Hc C1 C2 C3 C4) as [HA HP].
  - lra.
  - left. exact Hr.
  - exists 0%nat. split; [unfold maxHPolyTermCount; lia|].
    apply laguerre_constant_term.
  - exists (Z.to_nat l - Z.to_nat (Z.abs m))%nat. split.
    + unfold maxHPolyTermCount in *. lia.
    + apply sphericalHarmonics_leading; lia.
  - split; [exact HA|]. split; [exact HP|].
    unfold value. cbn [Complex.a].
    rewrite (value_amplitude_nonneg_m w r theta) by (rewrite Hwm; exact Hm).
    pose proof (brightness_pos n). field. lra.
Qed.

(** The modulus of [value] under a sign flip of m > 0: the coefficient
    tables depend on |m| only, so the two moduli differ by the factor
    |sin(theta)|^(2m). *)
Lemma value_modulus_under_sign_flip n l m phase wp wm r theta phi :
  createHWaveFunc Math.laguerre Math.sphericalHarmonics n l m phase 1 = Some wp ->
  createHWaveFunc Math.laguerre Math.sphericalHarmonics n l (- m) phase 1 = Some wm ->
  (0 < m)%Z -> sin theta <> 0 ->
  Cmod (value wp r theta phi)
  = Cmod (value wm r theta phi) * Rabs (sin theta) ^ (2 * Z.to_nat m).
Proof.
  intros Hp Hm Hpos Hs.
  apply createHWaveFunc_some in Hp. destruct Hp as (-> & _).
  apply createHWaveFunc_some in Hm. destruct Hm as (-> & _).
  rewrite !Cmod_value.
  rewrite value_amplitude_nonneg_m by (simpl; lia).
  set (wm := HWaveFunc.mk _ _ (coeffArray (Math.sphericalHarmonics l (- m))) _ _ _ _ _).
  set (wp := HWaveFunc.mk _ _ (coeffArray (Math.sphericalHarmonics l m)) _ _ _ _ _).
  assert (Hspec : spec_amplitude wp r theta = spec_amplitude wm r theta).
  { unfold spec_amplitude, value_rho, wp, wm.
    cbn [HWaveFunc.normalization HWaveFunc.laguerreCoeff HWaveFunc.spheCoeff
         HWaveFunc.n HWaveFunc.l HWaveFunc.m].
    unfold Math.sphericalHarmonics.
    rewrite Z.abs_opp.
    replace (Z.abs_nat (- m)) with (Z.abs_nat m) by lia. reflexivity. }
  rewrite Hspec, (value_amplitude_neg_m wm r theta) by (simpl; assumption || lia).
  rewrite Rabs_mult, <- RPow_abs.
  replace (Z.abs_nat (HWaveFunc.m wm)) with (Z.to_nat m)
    by (unfold wm; cbn [HWaveFunc.m]; lia).
  reflexivity.
Qed.

(** C1, at a failing input: for (n, l, m) = (2, 1, -1), phase 0, at the
    point r = 1, theta = pi/6, phi = 0, the compiled amplitude divided by
    the brightness factor is a quarter of the amplitude of [value] (the
    compiled text scales by sin^|m|, [value] by sin^m), so the complex
    amplitudes differ. *)
Theorem compiled_differs_from_value_at_negative_m :
  exists w amp ph A P,
    createHWaveFunc Math.laguerre Math.sphericalHarmonics 2 1 (-1) 0 1 = Some w
    /\ hydrogenWaveFuncStr Math.laguerre Math.sphericalHarmonics 2 1 (-1) 0
       = Some (amp, ph)
    /\ Glsl.eval (pointState 1 (PI / 6) 0) amp = Some A
    /\ Glsl.eval (pointState 1 (PI / 6) 0) ph = Some P
    /\ value_amplitude w 1 (PI / 6) = 4 * (A / brightness 2)
    /\ A <> 0
    /\ Complex.a (value w 1 (PI / 6) 0) <> A / brightness 2 * cos P.
Proof.
  set (w := HWaveFunc.mk (normalizationFactor 2 1 1)
              (coeffArray (Math.laguerre 0 3))
              (coeffArray (Math.sphericalHarmonics 1 (-1))) 0 2 1 (-1) 1).
  assert (Hw : createHWaveFunc Math.laguerre Math.sphericalHarmonics 2 1 (-1) 0 1
               = Some w) by reflexivity.
  destruct (hydrogenWaveFuncStr Math.laguerre Math.sphericalHarmonics 2 1 (-1) 0)
    as [[amp ph]|] eqn:Hc.
  2:{ exfalso. revert Hc. apply hydrogenWaveFuncStr_defined. vm_compute.
      intuition discriminate. }
  destruct (pointState_coords 1 (PI / 6) 0) as (C1 & C2 & C3 & C4).
  destruct (compiled_is_spec_amplitude Math.laguerre Math.sphericalHarmonics
              2 1 (-1) 0 w amp ph (pointState 1 (PI / 6) 0) 1 (PI / 6) 0
              Hw Hc C1 C2 C3 C4) as [HA HP].
  - lra.
  - left. lra.
  - exists 0%nat. split; [unfold maxHPolyTermCount; lia|].
    change (2 - 1 - 1)%Z with 0%Z. change (2 * 1 + 1)%Z with 3%Z.
    rewrite laguerre_0_3. simpl. lra.
  - exists 0%nat. split; [unfold maxHPolyTermCount; lia|].
    rewrite sphericalHarmonics_1_1 by reflexivity. simpl.
    apply Rgt_not_eq, sqrt_lt_R0, Rdiv_lt_0_compat; [lra|].
    pose proof PI_RGT_0. lra.
  - destruct (spec_amplitude_2_1 (-1) 0 eq_refl) as [_ Hpos]. fold w in Hpos.
    pose proof (brightness_pos 2) as Hb.
    assert (Hneg : spec_amplitude w 1 (PI / 6)
                   = value_amplitude w 1 (PI / 6) * sin (PI / 6) ^ (2 * 1)).
    { apply (value_amplitude_neg_m w 1 (PI / 6)).
      - reflexivity.
      - rewrite sin_PI6. lra. }
    rewrite sin_PI6 in Hneg. simpl in Hneg.
    exists w, amp, ph, (brightness 2 * spec_amplitude w 1 (PI / 6)), (value_phase w 0).
    split; [exact Hw|]. split; [reflexivity|].
    split; [exact HA|]. split; [exact HP|].
    assert (Hq : brightness 2 * spec_amplitude w 1 (PI / 6) / brightness 2
                 = spec_amplitude w 1 (PI / 6)) by (field; lra).
    rewrite Hq.
    split; [lra|].
    split; [apply Rgt_not_eq, Rmult_lt_0_compat; assumption|].
    unfold value. cbn [Complex.a].
    replace (value_phase w 0) with 0
      by (unfold value_phase, w; cbn [HWaveFunc.m HWaveFunc.phase]; ring).
    rewrite cos_0. lra.
Qed.

(** C2, at a failing input: for (n, l) = (2, 1) at the point r = 1,
    theta = pi/6, phi = 0 the modulus returned by [value] for m = -1 is
    four times the modulus returned for m = 1, which is not zero. *)
Theorem value_modulus_changes_with_sign_of_m :
  exists wp wm,
    createHWaveFunc Math.laguerre Math.sphericalHarmonics 2 1 1 0 1 = Some wp
    /\ createHWaveFunc Math.laguerre Math.sphericalHarmonics 2 1 (-1) 0 1 = Some wm
    /\ Cmod (value wm 1 (PI / 6) 0) = 4 * Cmod (value wp 1 (PI / 6) 0)
    /\ 0 < Cmod (value wp 1 (PI / 6) 0)
    /\ Cmod (value wm 1 (PI / 6) 0) <> Cmod (value wp 1 (PI / 6) 0).
Proof.
  set (wp := HWaveFunc.mk (normalizationFactor 2 1 1)
               (coeffArray (Math.laguerre 0 3))
               (coeffArray (Math.sphericalHarmonics 1 1)) 0 2 1 1 1).
  set (wm := HWaveFunc.mk (normalizationFactor 2 1 1)
               (coeffArray (Math.laguerre 0 3))
               (coeffArray (Math.sphericalHarmonics 1 (-1))) 0 2 1 (-1) 1).
  exists wp, wm.
  split; [reflexivity|]. split; [reflexivity|].
  destruct (spec_amplitude_2_1 1 0 eq_refl) as [Ep Hp]. fold wp in Ep, Hp.
  destruct (spec_amplitude_2_1 (-1) 0 eq_refl) as [Em Hm]. fold wm in Em, Hm.
  assert (Hvp : value_amplitude wp 1 (PI / 6) = spec_amplitude wp 1 (PI / 6))
    by (apply value_amplitude_nonneg_m; simpl; lia).
  assert (Hvm : spec_amplitude wm 1 (PI / 6)
                = value_amplitude wm 1 (PI / 6) * sin (PI / 6) ^ (2 * 1)).
  { apply (value_amplitude_neg_m wm 1 (PI / 6)).
    - reflexivity.
    - rewrite sin_PI6. lra. }
  rewrite sin_PI6 in Hvm. simpl in Hvm.
  rewrite !Cmod_value, Hvp.
  assert (Hvm4 : value_amplitude wm 1 (PI / 6) = 4 * spec_amplitude wp 1 (PI / 6))
    by lra.
  rewrite Hvm4, !Rabs_right by lra.
  repeat split; lra.
Qed.

(* ================================================================= *)
(** ** The Bohr radius in value and in the normalisation *)

Section BohrRadius.

Variable laguerre : Z -> Z -> nat -> R.
Variable sphericalHarmonics : Z -> Z -> nat -> R.

Lemma normalizationFactor_scaling n l a :
  0 < a ->
  normalizationFactor n l a = normalizationFactor n l 1 / sqrt (a ^ 3).
Proof.
  intros Ha. unfold normalizationFactor.
  assert (Ha3 : 0 < a ^ 3) by (apply pow_lt; exact Ha).
  rewrite <- sqrt_div_alt by exact Ha3.
  f_equal.
  destruct (Req_dec_T (IZR n) 0) as [E|E].
  - rewrite E, !Rmult_0_l, !Rmult_0_r. unfold Rdiv.
    rewrite !Rmult_0_l, !Rinv_0, !Rmult_0_r, !Rmult_0_l. reflexivity.
  - destruct (Req_dec_T (Math.fact (n + l)) 0) as [F|F].
    + rewrite F, !Rmult_0_r. unfold Rdiv. rewrite !Rinv_0, !Rmult_0_r, !Rmult_0_l.
      reflexivity.
    + field. repeat split; try assumption; lra.
Qed.

(** C8: [value] computes rho = 2r/n with the local constant a_0 = 1.0
    and never reads the stored Bohr radius, whereas the stored
    normalisation is computed from [bohr_radius]; so for a wave function
    built with a Bohr radius other than 1 the radial variable of [value]
    is not the 2r/(n*a0) that belongs to its normalisation: [value]
    returns the shape of the Bohr-radius-1 orbital, rescaled. *)
Theorem value_ignores_stored_bohr_radius
    (n l m : Z) (phase a0 r theta phi : R) (w w1 : HWaveFunc.t) :
  createHWaveFunc laguerre sphericalHarmonics n l m phase a0 = Some w ->
  createHWaveFunc laguerre sphericalHarmonics n l m phase 1 = Some w1 ->
  HWaveFunc.a0 w = a0
  /\ HWaveFunc.normalization w = normalizationFactor n l a0
  /\ (0 < a0 ->
      HWaveFunc.normalization w = HWaveFunc.normalization w1 / sqrt (a0 ^ 3))
  /\ value_rho w r = 2 * r / IZR n
  /\ (a0 <> 1 -> r <> 0 -> value_rho w r <> 2 * r / (IZR n * HWaveFunc.a0 w))
  /\ value_amplitude w r theta * HWaveFunc.normalization w1
     = value_amplitude w1 r theta * HWaveFunc.normalization w
  /\ value_phase w phi = value_phase w1 phi.
Proof.
  intros Hw Hw1.
  apply createHWaveFunc_some in Hw. destruct Hw as (-> & Hn & _).
  apply createHWaveFunc_some in Hw1. destruct Hw1 as (-> & _).
  assert (HnR : 0 < IZR n) by (apply IZR_lt; lia).
  unfold value_rho, value_amplitude, value_phase, value_rho.
  cbn [HWaveFunc.normalization HWaveFunc.laguerreCoeff HWaveFunc.spheCoeff
       HWaveFunc.n HWaveFunc.l HWaveFunc.m HWaveFunc.a0 HWaveFunc.phase].
  split; [reflexivity|]. split; [reflexivity|].
  split; [apply normalizationFactor_scaling|].
  split; [field; lra|].
  split; [|split; [ring | reflexivity]].
  intros Ha Hr E.
  destruct (Req_dec_T a0 0) as [-> | Ha0].
  - rewrite Rmult_0_r in E. unfold Rdiv in E. rewrite Rinv_0, Rmult_0_r in E.
    assert (H : 2 * r * / (IZR n * 1) * IZR n = 2 * r) by (field; lra).
    rewrite E in H. lra.
  - assert (H1 : 2 * r / (IZR n * 1) * (IZR n * a0) = 2 * r * a0) by (field; lra).
    assert (H2 : 2 * r / (IZR n * a0) * (IZR n * a0) = 2 * r)
      by (field; split; [assumption | lra]).
    rewrite E in H1. rewrite H1 in H2.
    assert (r * (a0 - 1) = 0) by lra.
    destruct (Rmult_integral _ _ H); lra.
Qed.

End BohrRadius.

Lemma value_ignores_stored_bohr_radius_witness :
  value_rho (HWaveFunc.mk (normalizationFactor 1 0 2)
               (coeffArray (Math.laguerre 0 1))
               (coeffArray (Math.sphericalHarmonics 0 0)) 0 1 0 0 2) 1
  <> 2 * 1 / (IZR 1 * 2).
Proof.
  refine (proj1 (proj2 (proj2 (proj2 (proj2
    (value_ignores_stored_bohr_radius Math.laguerre Math.sphericalHarmonics
       1 0 0 0 2 1 0 0 _ _ eq_refl eq_refl))))) _ _); lra.
Defined.

(* ================================================================= *)
(** ** The probability of one sample *)

(** C7: in the sampling loop of the fragment program the probability P
    is the square of the total amplitude total_real^2 + total_imag^2, and
    a P strictly below CUTOFF is replaced by exactly zero, with no
    smoothing: P is either zero or the full square. *)
Theorem sample_probability_hard_threshold (CUTOFF total_real total_imag : R) :
  let total_amplitude := total_real * total_real + total_imag * total_imag in
  (total_amplitude * total_amplitude < CUTOFF ->
   Fragment.sampleP CUTOFF total_real total_imag = 0)
  /\ (CUTOFF <= total_amplitude * total_amplitude ->
      Fragment.sampleP CUTOFF total_real total_imag
      = total_amplitude * total_amplitude)
  /\ (Fragment.sampleP CUTOFF total_real total_imag = 0
      \/ Fragment.sampleP CUTOFF total_real total_imag
         = total_amplitude * total_amplitude)
  /\ (forall shd u st i intensity out,
        CUTOFF = VolumeShader.CUTOFF shd ->
        Fragment.sample shd u st i intensity = Some out ->
        exists st',
          Glsl.exec
            (Glsl.set_s (Glsl.set_s
               (Glsl.set_s st Vdist
                  (Fragment.u_rayLength u
                   * IZR (VolumeShader.SAMPLE_COUNT shd - i - 1)
                   / IZR (VolumeShader.SAMPLE_COUNT shd)))
               Vtotal_real 0) Vtotal_imag 0)
            (VolumeShader.CALC_TOTAL_WAVEFUNC shd) = Some st'
          /\ snd out = Fragment.sampleP CUTOFF (Glsl.sv st' Vtotal_real)
                                        (Glsl.sv st' Vtotal_imag)).
Proof.
  cbv zeta. unfold Fragment.sampleP.
  destruct (Rlt_dec ((total_real * total_real + total_imag * total_imag)
                     * (total_real * total_real + total_imag * total_imag)) CUTOFF)
    as [Hlt|Hge].
  - split; [reflexivity|]. split; [intros; lra|]. split; [left; reflexivity|].
    intros shd u st i intensity out -> Hs. unfold Fragment.sample in Hs.
    cbv zeta in Hs.
    destruct (Glsl.exec _ _) as [st'|]; [|discriminate].
    exists st'. split; [reflexivity|]. cbn [Glsl.bind] in Hs.
    destruct (Fragment.emission _ _ _ _ _); [|discriminate].
    cbn [Glsl.bind] in Hs. injection Hs as <-. reflexivity.
  - split; [intros; contradiction|]. split; [reflexivity|].
    split; [right; reflexivity|].
    intros shd u st i intensity out -> Hs. unfold Fragment.sample in Hs.
    cbv zeta in Hs.
    destruct (Glsl.exec _ _) as [st'|]; [|discriminate].
    exists st'. split; [reflexivity|]. cbn [Glsl.bind] in Hs.
    destruct (Fragment.emission _ _ _ _ _); [|discriminate].
    cbn [Glsl.bind] in Hs. injection Hs as <-. reflexivity.
Qed.

Lemma sample_probability_hard_threshold_witness :
  Fragment.sampleP 1 (1 / 2) (1 / 2) = 0.
Proof.
  apply (proj1 (sample_probability_hard_threshold 1 (1 / 2) (1 / 2))). lra.
Defined.

(* ================================================================= *)
(** ** The accumulation macro *)

Lemma exec_app st a b :
  Glsl.exec st (a ++ b) = Glsl.bind (Glsl.exec st a) (fun st' => Glsl.exec st' b).
Proof.
  revert st. induction a as [|s a IH]; intros st; simpl; [reflexivity|].
  destruct (Glsl.exec1 st s); simpl; [apply IH | reflexivity].
Qed.

Lemma exec1_frame st s st' x :
  Glsl.exec1 st s = Some st' -> writesTo x s = false ->
  Glsl.sv st' x = Glsl.sv st x.
Proof.
  destruct s as [y e | y e | y e | y v]; simpl; intros H Hw.
  - destruct (Glsl.eval st e); [|discriminate]. injection H as <-.
    simpl. rewrite Hw. reflexivity.
  - destruct (Glsl.eval st e); [|discriminate]. injection H as <-.
    simpl. rewrite Hw. reflexivity.
  - destruct (Glsl.eval st e); [|discriminate]. injection H as <-.
    simpl. rewrite Hw. reflexivity.
  - destruct (Glsl.veval st v); [|discriminate]. injection H as <-. reflexivity.
Qed.

Lemma exec_frame ss : forall st st' x,
  Glsl.exec st ss = Some st' -> existsb (writesTo x) ss = false ->
  Glsl.sv st' x = Glsl.sv st x.
Proof.
  induction ss as [|s ss IH]; intros st st' x H Hw; simpl in *.
  - injection H as <-. reflexivity.
  - apply orb_false_elim in Hw. destruct Hw as [Hs Hss].
    destruct (Glsl.exec1 st s) as [st1|] eqn:E; [|discriminate]. simpl in H.
    rewrite (IH _ _ _ H Hss). apply (exec1_frame _ _ _ _ E Hs).
Qed.

Lemma svar_eqb_refl x : Glsl.svar_eqb x x = true.
Proof. destruct x; simpl; try reflexivity; apply Nat.eqb_refl. Qed.

(** The statements of one wave: the two accumulations come last. *)
Lemma exec_waveStmts st i w amp ph st' :
  Glsl.exec st (waveStmts i w amp ph) = Some st' ->
  Glsl.sv st' Vtotal_real
  = Glsl.sv st Vtotal_real
    + Glsl.sv st' (Va i) * cos (Glsl.sv st' (Vp i)) * Q2R (Wave.amplitude w)
  /\ Glsl.sv st' Vtotal_imag
     = Glsl.sv st Vtotal_imag + Glsl.sv st' (Va i) * sin (Glsl.sv st' (Vp i))
  /\ (forall k, k <> i ->
        Glsl.sv st' (Va k) = Glsl.sv st (Va k)
        /\ Glsl.sv st' (Vp k) = Glsl.sv st (Vp k)).
Proof.
  intros H.
  change (waveStmts i w amp ph)
    with (firstn 8 (waveStmts i w amp ph) ++ skipn 8 (waveStmts i w amp ph)) in H.
  rewrite exec_app in H.
  destruct (Glsl.exec st (firstn 8 (waveStmts i w amp ph))) as [st1|] eqn:E1;
    [|discriminate].
  cbn [Glsl.bind] in H. cbn in H. injection H as <-.
  assert (Hfr : forall x, existsb (writesTo x) (firstn 8 (waveStmts i w amp ph)) = false ->
                Glsl.sv st1 x = Glsl.sv st x)
    by (intros x Hx; apply (exec_frame _ _ _ _ E1 Hx)).
  cbn [Glsl.sv Glsl.set_s Glsl.svar_eqb].
  rewrite (Hfr Vtotal_real) by reflexivity.
  rewrite (Hfr Vtotal_imag) by reflexivity.
  split; [reflexivity|]. split; [reflexivity|].
  intros k Hk. split; apply Hfr; simpl;
    rewrite (proj2 (Nat.eqb_neq i k)) by congruence; reflexivity.
Qed.

Lemma calcTotalWavefunc_frame ws : forall i k,
  (k < i)%nat ->
  existsb (writesTo (Va k)) (calcTotalWavefunc i ws) = false
  /\ existsb (writesTo (Vp k)) (calcTotalWavefunc i ws) = false.
Proof.
  induction ws as [|[w [amp ph]] ws IH]; intros i k Hk; simpl.
  - split; reflexivity.
  - rewrite !existsb_app.
    destruct (IH (S i) k) as [H1 H2]; [lia|]. rewrite H1, H2.
    destruct (skipped w); simpl;
      rewrite ?(proj2 (Nat.eqb_neq i k)) by lia; split; reflexivity.
Qed.

Lemma exec_calcTotalWavefunc ws : forall i st st',
  Glsl.exec st (calcTotalWavefunc i ws) = Some st' ->
  Glsl.sv st' Vtotal_real = Glsl.sv st Vtotal_real + realTotal st' i (map fst ws)
  /\ Glsl.sv st' Vtotal_imag = Glsl.sv st Vtotal_imag + imagTotal st' i (map fst ws).
Proof.
  induction ws as [|[w [amp ph]] ws IH]; intros i st st' H.
  - simpl in H. injection H as <-. simpl. split; lra.
  - cbn [calcTotalWavefunc] in H. rewrite exec_app in H.
    cbn [map fst realTotal imagTotal].
    destruct (skipped w) eqn:Hsk.
    + cbn in H. destruct (IH _ _ _ H) as [H1 H2]. rewrite H1, H2. split; lra.
    + destruct (Glsl.exec st (waveStmts i w amp ph)) as [st1|] eqn:E1;
        [|discriminate].
      cbn [Glsl.bind] in H.
      destruct (exec_waveStmts _ _ _ _ _ _ E1) as (R1 & I1 & _).
      destruct (IH _ _ _ H) as [H1 H2].
      destruct (calcTotalWavefunc_frame ws (S i) i (Nat.lt_succ_diag_r i)) as [Fa Fp].
      rewrite (exec_frame _ _ _ _ H Fa), (exec_frame _ _ _ _ H Fp).
      rewrite H1, H2, R1, I1. split; lra.
Qed.
Lemma atan_yx_defined y x :
  (y <> 0 \/ x <> 0) -> exists v, Glsl.atan_yx y x = Some v.
Proof.
  intros H. unfold Glsl.atan_yx.
  destruct (Rlt_dec 0 x); [eauto|].
  destruct (Rlt_dec x 0); [destruct (Rle_dec 0 y); eauto|].
  destruct (Rlt_dec 0 y); [eauto|].
  destruct (Rlt_dec y 0); [eauto|].
  exfalso. destruct H; lra.
Qed.

Lemma atan2_defined y x :
  (y <> 0 \/ x <> 0) -> exists v, Glsl.atan2 y x = Some v.
Proof.
  intros H. unfold Glsl.atan2.
  destruct (Rlt_dec (Rabs y) (Rabs x)).
  - apply atan_yx_defined. exact H.
  - destruct (atan_yx_defined x y) as [v Hv]; [tauto|].
    rewrite Hv. simpl. eauto.
Qed.

Lemma radius_pos (p : vec3) :
  (vx p <> 0 \/ vy p <> 0) -> 0 < Glsl.dot p p.
Proof.
  intros H. unfold Glsl.dot.
  pose proof (Rle_0_sqr (vx p)). pose proof (Rle_0_sqr (vy p)).
  pose proof (Rle_0_sqr (vz p)). unfold Rsqr in *.
  destruct H as [H|H].
  - pose proof (Rsqr_pos_lt _ H). unfold Rsqr in *. lra.
  - pose proof (Rsqr_pos_lt _ H). unfold Rsqr in *. lra.
Qed.

Lemma cos_theta_range (p : vec3) :
  0 < Glsl.dot p p -> Rabs (vz p / sqrt (Glsl.dot p p)) <= 1.
Proof.
  intros Hd.
  pose proof (sqrt_lt_R0 _ Hd) as Hs.
  unfold Rdiv. rewrite Rabs_mult, (Rabs_right (/ _))
    by (apply Rle_ge, Rlt_le, Rinv_0_lt_compat, Hs).
  apply (Rmult_le_reg_r (sqrt (Glsl.dot p p))); [exact Hs|].
  rewrite Rmult_assoc, Rinv_l, Rmult_1_r, Rmult_1_l by lra.
  rewrite <- sqrt_Rsqr_abs. apply sqrt_le_1_alt.
  unfold Glsl.dot, Rsqr.
  pose proof (Rle_0_sqr (vx p)). pose proof (Rle_0_sqr (vy p)).
  unfold Rsqr in *. lra.
Qed.

(** The six coordinate statements of a wave are defined wherever the
    sample point, shifted by the wave's translation, is off the z axis. *)
Lemma exec_coordinates st i w amp ph :
  let p := Glsl.vadd (Glsl.vadd (Glsl.vv st Vv_pos)
                        (Glsl.vscale (Glsl.vv st Vn) (Glsl.sv st Vdist)))
                     (V3 0 0 (Q2R (Wave.translation w))) in
  let r := sqrt (Glsl.dot p p) in
  (vx p <> 0 \/ vy p <> 0) ->
  exists st1,
    Glsl.exec st (firstn 6 (waveStmts i w amp ph)) = Some st1
    /\ Glsl.sv st1 Vr = r /\ 0 < r
    /\ Glsl.sv st1 Vcos_theta = cos (acos (vz p / r))
    /\ Glsl.sv st1 Vsin_theta = sin (acos (vz p / r)).
Proof.
  intros p r Hxy.
  pose proof (radius_pos p Hxy) as Hd.
  pose proof (sqrt_lt_R0 _ Hd) as Hr. fold r in Hr.
  pose proof (cos_theta_range p Hd) as Hc. fold r in Hc.
  destruct (atan2_defined (vy p) (vx p)) as [phi Hphi]; [tauto|].
  cbn [firstn waveStmts Glsl.exec Glsl.exec1 Glsl.veval Glsl.eval Glsl.bind
       option_map Glsl.vv Glsl.sv Glsl.set_v Glsl.set_s Glsl.vvar_eqb
       Glsl.svar_eqb Glsl.comp Glsl.call].
  fold p.
  destruct (Rlt_dec (Glsl.dot p p) 0); [lra|].
  cbn [Glsl.bind option_map Glsl.vv Glsl.sv Glsl.set_v Glsl.set_s Glsl.vvar_eqb
       Glsl.svar_eqb Glsl.comp Glsl.call].
  rewrite Hphi.
  cbn [Glsl.bind option_map Glsl.vv Glsl.sv Glsl.set_v Glsl.set_s Glsl.vvar_eqb
       Glsl.svar_eqb Glsl.comp Glsl.call].
  fold r.
  destruct (Req_dec_T r 0); [lra|].
  cbn [Glsl.bind option_map Glsl.vv Glsl.sv Glsl.set_v Glsl.set_s Glsl.vvar_eqb
       Glsl.svar_eqb Glsl.comp Glsl.call].
  destruct (Rlt_dec 1 (Rabs (vz p / r))); [lra|].
  cbn [Glsl.bind option_map Glsl.vv Glsl.sv Glsl.set_v Glsl.set_s Glsl.vvar_eqb
       Glsl.svar_eqb Glsl.comp Glsl.call].
  eexists. split; [reflexivity|].
  cbn [Glsl.sv]. repeat split; try assumption.
  rewrite cos_acos; [reflexivity|].
  pose proof (Rle_abs (vz p / r)) as H1.
  pose proof (Rle_abs (- (vz p / r))) as H2. rewrite Rabs_Ropp in H2.
  lra.
Qed.

Section MacroClaims.

Variable laguerre : Z -> Z -> nat -> R.
Variable sphericalHarmonics : Z -> Z -> nat -> R.

(** All statements of a compiled wave are defined at a sample point off
    its z axis. *)
Lemma exec_waveStmts_defined st i w n l m phase hw amp ph :
  createHWaveFunc laguerre sphericalHarmonics n l m phase 1 = Some hw ->
  hydrogenWaveFuncStr laguerre sphericalHarmonics n l m phase = Some (amp, ph) ->
  (exists j, (j < maxHPolyTermCount)%nat /\ laguerre (n - l - 1)%Z (2 * l + 1)%Z j <> 0) ->
  (exists j, (j < maxHPolyTermCount)%nat /\ sphericalHarmonics l m j <> 0) ->
  let p := Glsl.vadd (Glsl.vadd (Glsl.vv st Vv_pos)
                        (Glsl.vscale (Glsl.vv st Vn) (Glsl.sv st Vdist)))
                     (V3 0 0 (Q2R (Wave.translation w))) in
  (vx p <> 0 \/ vy p <> 0) ->
  exists st', Glsl.exec st (waveStmts i w amp ph) = Some st'.
Proof.
  intros Hw Hc HL HY p Hxy.
  destruct (exec_coordinates st i w amp ph Hxy) as (st1 & E1 & Hr & Hpos & Hcos & Hsin).
  fold p in Hr, Hpos, Hcos, Hsin.
  change (waveStmts i w amp ph)
    with (firstn 6 (waveStmts i w amp ph) ++ skipn 6 (waveStmts i w amp ph)).
  rewrite exec_app, E1. cbn [Glsl.bind skipn waveStmts].
  destruct (compiled_is_spec_amplitude laguerre sphericalHarmonics n l m phase hw
              amp ph st1 _ _ _ Hw Hc Hr Hsin Hcos eq_refl) as [Ha _];
    [lra | left; exact Hpos | exact HL | exact HY |].
  cbn [Glsl.exec Glsl.exec1]. rewrite Ha. cbn [option_map Glsl.bind].
  set (st2 := Glsl.set_s st1 (Va i) _).
  destruct (compiled_is_spec_amplitude laguerre sphericalHarmonics n l m phase hw
              amp ph st2 _ _ (Glsl.sv st2 Vphi) Hw Hc Hr Hsin Hcos eq_refl)
    as [_ Hp];
    [lra | left; exact Hpos | exact HL | exact HY |].
  rewrite Hp. cbn. eauto.
Qed.

Lemma calcTotalWavefunc_In ws : forall i0 k w amp ph,
  nth_error ws k = Some (w, (amp, ph)) -> skipped w = false ->
  forall s, In s (waveStmts (i0 + k) w amp ph) -> In s (calcTotalWavefunc i0 ws).
Proof.
  induction ws as [|[w0 [a0 p0]] ws IH]; intros i0 k w amp ph Hk Hsk s Hs.
  - destruct k; discriminate.
  - cbn [calcTotalWavefunc]. apply in_or_app. destruct k as [|k].
    + injection Hk as -> -> ->. rewrite Nat.add_0_r in Hs. rewrite Hsk.
      left. exact Hs.
    + right. apply (IH (S i0) k w amp ph Hk Hsk).
      rewrite Nat.add_succ_comm. exact Hs.
Qed.

Lemma nth_error_combine {A B : Type} (xs : list A) (ys : list B) :
  List.length ys = List.length xs ->
  forall k x, nth_error xs k = Some x ->
  exists y, nth_error (combine xs ys) k = Some (x, y).
Proof.
  revert ys. induction xs as [|x0 xs IH]; intros [|y0 ys] Hlen k x Hk;
    simpl in *; try discriminate; try (destruct k; discriminate).
  destruct k as [|k]; simpl in *.
  - injection Hk as <-. eauto.
  - apply IH; [lia | exact Hk].
Qed.

Lemma map_fst_combine {A B : Type} (xs : list A) (ys : list B) :
  List.length ys = List.length xs -> map fst (combine xs ys) = xs.
Proof.
  revert ys. induction xs as [|x0 xs IH]; intros [|y0 ys] Hlen;
    simpl in *; try discriminate; [reflexivity|].
  f_equal. apply IH. lia.
Qed.

(** C5: in the macro generated by [createVolumeShader] every emitted
    wave adds a_i*cos(p_i)*amplitude to total_real and a_i*sin(p_i),
    without the amplitude weight, to total_imag; after the macro has run,
    the two totals have grown by exactly these sums over the emitted
    waves. *)
Theorem amplitude_weight_on_real_part_only
    (sample_count : Z) (complex_color : bool) (absorption cutoff : Q)
    (waves : list Wave.t) (shd : VolumeShader.t) (st st' : Glsl.state) :
  createVolumeShader laguerre sphericalHarmonics sample_count complex_color
    absorption cutoff waves = Some shd ->
  Glsl.exec st (VolumeShader.CALC_TOTAL_WAVEFUNC shd) = Some st' ->
  Glsl.sv st' Vtotal_real = Glsl.sv st Vtotal_real + realTotal st' 0 waves
  /\ Glsl.sv st' Vtotal_imag = Glsl.sv st Vtotal_imag + imagTotal st' 0 waves
  /\ (forall i w,
        nth_error waves i = Some w -> skipped w = false ->
        In (SAddAssign Vtotal_real
              (Mul (Mul (Var (Va i)) (Call Fcos (Var (Vp i))))
                   (Lit (Q2R (Wave.amplitude w)))))
           (VolumeShader.CALC_TOTAL_WAVEFUNC shd)
        /\ In (SAddAssign Vtotal_imag (Mul (Var (Va i)) (Call Fsin (Var (Vp i)))))
              (VolumeShader.CALC_TOTAL_WAVEFUNC shd)).
Proof.
  unfold createVolumeShader. intros Hshd Hex.
  destruct (Nat.eqb (List.length waves) 0); [discriminate|].
  destruct (compileWaves laguerre sphericalHarmonics waves) as [frags|] eqn:Ef;
    [|discriminate].
  injection Hshd as <-. cbn [VolumeShader.CALC_TOTAL_WAVEFUNC] in *.
  pose proof (compileWaves_length laguerre sphericalHarmonics _ _ Ef) as Hlen.
  destruct (exec_calcTotalWavefunc _ _ _ _ Hex) as [H1 H2].
  rewrite (map_fst_combine waves frags Hlen) in H1, H2.
  split; [exact H1|]. split; [exact H2|].
  intros i w Hi Hsk.
  destruct (nth_error_combine waves frags Hlen i w Hi) as [[amp ph] Hc].
  split; apply (calcTotalWavefunc_In _ 0 i w amp ph Hc Hsk);
    unfold waveStmts; simpl; tauto.
Qed.

End MacroClaims.

Lemma firstWave_macro_runs :
  exists shd st',
    createVolumeShader Math.laguerre Math.sphericalHarmonics 40 false 0 0 [firstWave]
      = Some shd
    /\ Glsl.exec unitXState (VolumeShader.CALC_TOTAL_WAVEFUNC shd) = Some st'.
Proof.
  destruct (hydrogenWaveFuncStr Math.laguerre Math.sphericalHarmonics 1 0 0 (Q2R 0))
    as [[amp ph]|] eqn:Hc.
  2:{ exfalso. revert Hc. apply hydrogenWaveFuncStr_defined. vm_compute.
      intuition discriminate. }
  assert (Hshd : createVolumeShader Math.laguerre Math.sphericalHarmonics 40 false 0 0
                   [firstWave]
                 = Some (VolumeShader.mk 40 0 (Q2R 0) (Q2R 0)
                           (waveStmts 0 firstWave amp ph))).
  { unfold createVolumeShader. cbn [List.length Nat.eqb compileWaves].
    change (Util.to_int (Wave.n firstWave)) with 1%Z.
    change (Util.to_int (Wave.l firstWave)) with 0%Z.
    change (Util.to_int (Wave.m firstWave)) with 0%Z.
    change (Wave.phase firstWave) with 0%Q.
    rewrite Hc. cbn [combine calcTotalWavefunc]. rewrite app_nil_r. reflexivity. }
  destruct (exec_waveStmts_defined Math.laguerre Math.sphericalHarmonics
              unitXState 0 firstWave 1 0 0 (Q2R 0)
              (HWaveFunc.mk (normalizationFactor 1 0 1)
                 (coeffArray (Math.laguerre 0 1))
                 (coeffArray (Math.sphericalHarmonics 0 0)) (Q2R 0) 1 0 0 1)
              amp ph eq_refl Hc) as [st' Hst'].
  - exists 0%nat. split; [unfold maxHPolyTermCount; lia|].
    unfold Math.laguerre. simpl. intros E. field_simplify in E. lra.
  - exists 0%nat. split; [unfold maxHPolyTermCount; lia|].
    unfold Math.sphericalHarmonics, Math.legendre. simpl.
    apply Rmult_integral_contrapositive_currified; [|lra].
    apply Rgt_not_eq, sqrt_lt_R0.
    pose proof PI_RGT_0.
    match goal with
    | |- 0 < ?e => replace e with (1 / (4 * PI)) by (field; lra)
    end.
    apply Rdiv_lt_0_compat; lra.
  - left. simpl. lra.
  - eexists. exists st'. split; [exact Hshd | exact Hst'].
Qed.

Lemma amplitude_weight_on_real_part_only_witness :
  exists st',
    Glsl.sv st' Vtotal_imag
    = Glsl.sv unitXState Vtotal_imag + imagTotal st' 0 [firstWave].
Proof.
  destruct firstWave_macro_runs as (shd & st' & Hshd & Hex).
  exists st'.
  exact (proj1 (proj2 (amplitude_weight_on_real_part_only
                         Math.laguerre Math.sphericalHarmonics
                         40 false 0 0 [firstWave] shd unitXState st' Hshd Hex))).
Defined.

(* ================================================================= *)
(** ** The statements above at concrete inputs *)

Lemma frame_recompiles_iff_flagged_value_changes_witness :
  recompileTriggered dragSamplesEnv (advanceClocks dragSamplesEnv demoProgram) 0
    (Program.sliders demoProgram) = true.
Proof.
  apply (proj2 (proj1 (frame_recompiles_iff_flagged_value_changes
                         Math.laguerre Math.sphericalHarmonics
                         dragSamplesEnv demoProgram))).
  split; [reflexivity|].
  exists 1%nat, (Slider.mk "Samples" 5 150 FSampleCount 0 true).
  split; [reflexivity|]. split; [reflexivity|]. split; [reflexivity|].
  change (~ (Slider.coordToValue (Slider.mk "Samples" 5 150 FSampleCount 0 true)
               (-9 # 10) == 40)%Q).
  vm_compute. discriminate.
Defined.



(* ================================================================= *)
(** ** The slider panel: rows, bars and the pointer map *)

Section SliderPanel.

Local Open Scope Q_scope.




(** X2: [Slider::fraction] caps the bar at full width but has no lower
    cap.  For min < max the result is the position of the value in the
    range when the value is inside it, exactly 1 from max on, and
    negative below min. *)
Theorem fraction_capped_above_only (s : Slider.t) (cur : Q) :
  Slider.fraction s cur <= 1
  /\ (Slider.min s < Slider.max s ->
      (Slider.min s <= cur -> 0 <= Slider.fraction s cur)
      /\ (Slider.max s <= cur -> Slider.fraction s cur == 1)
      /\ (cur < Slider.min s -> Slider.fraction s cur < 0)
      /\ (cur <= Slider.max s ->
          Slider.fraction s cur * (Slider.max s - Slider.min s)
          == cur - Slider.min s)).
Proof.
  unfold Slider.fraction. cbv zeta.
  set (f := (cur - Slider.min s) / (Slider.max s - Slider.min s)).
  split.
  - destruct (Qlt_le_dec f 1) as [H | H]; [apply Qlt_le_weak, H | apply Qle_refl].
  - intros Hlt.
    assert (Hd : 0 < Slider.max s - Slider.min s) by lra.
    assert (Hne : ~ Slider.max s - Slider.min s == 0) by lra.
    assert (Hf : f * (Slider.max s - Slider.min s) == cur - Slider.min s)
      by (unfold f; field; exact Hne).
    assert (Hsign : forall c, c <= cur - Slider.min s ->
                              c / (Slider.max s - Slider.min s) <= f).
    { intros c Hc. unfold f. apply Qmult_le_compat_r; [exact Hc|].
      apply Qlt_le_weak, Qinv_lt_0_compat, Hd. }
    repeat split.
    + intros Hc. destruct (Qlt_le_dec f 1); [|discriminate].
      specialize (Hsign 0). 
      assert (E : 0 / (Slider.max s - Slider.min s) == 0) by (field; exact Hne).
      rewrite E in Hsign. apply Hsign. lra.
    + intros Hc. destruct (Qlt_le_dec f 1) as [H | H]; [|reflexivity].
      exfalso. specialize (Hsign (Slider.max s - Slider.min s)).
      assert (E : (Slider.max s - Slider.min s) / (Slider.max s - Slider.min s) == 1)
        by (field; exact Hne).
      rewrite E in Hsign. assert (1 <= f) by (apply Hsign; lra). lra.
    + intros Hc.
      assert (Hneg : f < 0).
      { unfold f. setoid_replace 0 with (0 * / (Slider.max s - Slider.min s)) by ring.
        apply Qmult_lt_compat_r; [apply Qinv_lt_0_compat, Hd | lra]. }
      destruct (Qlt_le_dec f 1) as [H | H]; [exact Hneg | lra].
    + intros Hc. destruct (Qlt_le_dec f 1) as [H | H]; [exact Hf|].
      assert (Hle : f <= 1).
      { unfold f.
        setoid_replace 1 with ((Slider.max s - Slider.min s) / (Slider.max s - Slider.min s))
          by (field; exact Hne).
        apply Qmult_le_compat_r; [lra | apply Qlt_le_weak, Qinv_lt_0_compat, Hd]. }
      assert (E1 : f == 1) by (apply Qle_antisym; assumption).
      rewrite <- Hf. rewrite E1. reflexivity.
Qed.

Lemma fraction_capped_above_only_witness :
  Slider.fraction (Slider.mk "Time" 0 5 FPhase 3 false) 7 == 1.
Proof.
  apply (proj2 (fraction_capped_above_only (Slider.mk "Time" 0 5 FPhase 3 false) 7));
    simpl; lra.
Defined.

Lemma rawValue_monotone (s : Slider.t) (x y : Q) :
  Slider.min s <= Slider.max s -> x <= y ->
  Slider.rawValue s x <= Slider.rawValue s y.
Proof.
  intros Hle Hxy. unfold Slider.rawValue.
  apply Qplus_le_l. apply Qmult_le_compat_r; [|lra].
  apply Qmult_le_compat_r; [lra|]. unfold Slider.sliderWidth. discriminate.
Qed.

Lemma CLAMP_monotone v w lo hi : v <= w -> Util.CLAMP v lo hi <= Util.CLAMP w lo hi.
Proof.
  intros H. unfold Util.CLAMP.
  apply Q.min_le_compat_r. apply Q.max_le_compat_r. exact H.
Qed.

Lemma round_comp v w d : v == w -> Util.round v d == Util.round w d.
Proof.
  intros E. unfold Util.round.
  assert (E' : v * Util.pow10 d + (1 # 2) == w * Util.pow10 d + (1 # 2))
    by (rewrite E; reflexivity).
  rewrite (Qfloor_comp _ _ E'). reflexivity.
Qed.

(** X3: [coordToValue] is a monotone map of the pointer's x-coordinate
    that saturates at both ends of the row: the left edge x = -1 gives
    the raw value min, the right edge x = sliderWidth - 1 the raw value
    max, and every x at or beyond an edge gives the rounded bound. *)
Theorem coordToValue_monotone_saturating (s : Slider.t) :
  Slider.min s <= Slider.max s ->
  Slider.rawValue s (-(1)) == Slider.min s
  /\ Slider.rawValue s (Slider.sliderWidth - 1) == Slider.max s
  /\ (forall x y, x <= y -> Slider.coordToValue s x <= Slider.coordToValue s y)
  /\ (forall x, x <= -(1) ->
        Slider.coordToValue s x == Util.round (Slider.min s) (Slider.decimals s))
  /\ (forall x, Slider.sliderWidth - 1 <= x ->
        Slider.coordToValue s x == Util.round (Slider.max s) (Slider.decimals s)).
Proof.
  intros Hle.
  assert (E1 : Slider.rawValue s (-(1)) == Slider.min s)
    by (unfold Slider.rawValue, Slider.sliderWidth; field).
  assert (E2 : Slider.rawValue s (Slider.sliderWidth - 1) == Slider.max s)
    by (unfold Slider.rawValue, Slider.sliderWidth; field).
  split; [exact E1|]. split; [exact E2|]. split; [|split].
  - intros x y Hxy. unfold Slider.coordToValue. cbv zeta.
    apply round_monotone, CLAMP_monotone, rawValue_monotone; assumption.
  - intros x Hx. unfold Slider.coordToValue. cbv zeta. apply round_comp.
    pose proof (rawValue_monotone s x (-(1)) Hle Hx) as Hm. rewrite E1 in Hm.
    unfold Util.CLAMP. rewrite (Q.max_r _ _ Hm). apply Q.min_l. exact Hle.
  - intros x Hx. unfold Slider.coordToValue. cbv zeta. apply round_comp.
    pose proof (rawValue_monotone s _ x Hle Hx) as Hm. rewrite E2 in Hm.
    unfold Util.CLAMP.
    assert (Hmax : Slider.max s <= Qmax (Slider.rawValue s x) (Slider.min s)).
    { eapply Qle_trans; [exact Hm | apply Q.le_max_l]. }
    apply Q.min_r. exact Hmax.
Qed.

Lemma coordToValue_monotone_saturating_witness :
  Slider.coordToValue (Slider.mk "Samples" 5 150 FSampleCount 0 true) 2
  == Util.round 150 0.
Proof.
  apply (proj2 (proj2 (proj2 (proj2
    (coordToValue_monotone_saturating
       (Slider.mk "Samples" 5 150 FSampleCount 0 true)
       ltac:(simpl; lra))))) 2).
  unfold Slider.sliderWidth. lra.
Defined.

End SliderPanel.

(* ================================================================= *)
(** ** The formula compiler: clamping, guards and emitted sums *)

Section CompilerFacts.

Variable laguerre : Z -> Z -> nat -> R.
Variable sphericalHarmonics : Z -> Z -> nat -> R.

Lemma clamp_l_idem n l : (0 < n)%Z -> clamp_l n (clamp_l n l) = clamp_l n l.
Proof.
  intros Hn. unfold clamp_l.
  destruct (Z.gtb_spec l (n - 1)).
  - destruct (Z.gtb_spec (n - 1) (n - 1)); lia.
  - destruct (Z.gtb_spec l (n - 1)); lia.
Qed.

Lemma clamp_l_nonneg n l : (0 < n)%Z -> (0 <= l)%Z -> (0 <= clamp_l n l < n)%Z.
Proof.
  intros Hn Hl. unfold clamp_l. destruct (Z.gtb_spec l (n - 1)); lia.
Qed.

Lemma clamp_m_opp l m : (0 <= l)%Z -> clamp_m l (- m) = (- clamp_m l m)%Z.
Proof.
  intros Hl. unfold clamp_m.
  destruct (Z.gtb_spec m 0), (Z.gtb_spec m l),
           (Z.gtb_spec (- m) 0), (Z.gtb_spec (- m) l); cbn [andb]; try lia;
    repeat match goal with
           | |- context [Z.ltb ?a ?b] => destruct (Z.ltb_spec a b)
           end; cbn [andb]; lia.
Qed.

Lemma hydrogenWaveFuncStr_clamped_eq (n l m : Z) (phase : R) :
  hydrogenWaveFuncStr laguerre sphericalHarmonics n l m phase
  = hydrogenWaveFuncStr laguerre sphericalHarmonics n
      (clamp_l n l) (clamp_m (clamp_l n l) m) phase.
Proof.
  unfold hydrogenWaveFuncStr. cbv zeta.
  destruct (Z.gtb_spec n 0) as [Hn|Hn]; cbn [andb negb]; [|reflexivity].
  destruct (Z.geb_spec l 0) as [Hl|Hl]; cbn [negb].
  - pose proof (clamp_l_nonneg n l ltac:(lia) Hl) as Hc.
    destruct (Z.geb_spec (clamp_l n l) 0) as [_|Hc']; [|lia]. cbn [negb].
    rewrite (clamp_l_idem n l) by lia.
    rewrite (clamp_m_id (clamp_l n l) (clamp_m (clamp_l n l) m))
      by (apply clamp_m_spec; lia).
    reflexivity.
  - assert (E : clamp_l n l = l).
    { unfold clamp_l. destruct (Z.gtb_spec l (n - 1)); lia. }
    rewrite E. destruct (Z.geb_spec l 0); [lia|]. reflexivity.
Qed.

(** X4: [hydrogenWaveFuncStr] depends on l and m through their clamped
    values only: out-of-range quantum numbers produce the text of the
    nearest admissible ones.  Every l >= n - 1 gives the text of
    l = n - 1, and for n = 1 every l >= 0 and every m give the text of
    the state (1, 0, 0). *)
Theorem hydrogenWaveFuncStr_reads_clamped_numbers (n l m : Z) (phase : R) :
  hydrogenWaveFuncStr laguerre sphericalHarmonics n l m phase
  = hydrogenWaveFuncStr laguerre sphericalHarmonics n
      (clamp_l n l) (clamp_m (clamp_l n l) m) phase
  /\ ((0 < n)%Z -> (n - 1 <= l)%Z ->
      hydrogenWaveFuncStr laguerre sphericalHarmonics n l m phase
      = hydrogenWaveFuncStr laguerre sphericalHarmonics n (n - 1)
          (clamp_m (n - 1) m) phase)
  /\ ((0 <= l)%Z ->
      hydrogenWaveFuncStr laguerre sphericalHarmonics 1 l m phase
      = hydrogenWaveFuncStr laguerre sphericalHarmonics 1 0 0 phase).
Proof.
  pose proof (hydrogenWaveFuncStr_clamped_eq) as Hmain.
  split; [apply Hmain|]. split.
  - intros Hn Hl. rewrite Hmain.
    assert (E : clamp_l n l = (n - 1)%Z).
    { unfold clamp_l. destruct (Z.gtb_spec l (n - 1)); lia. }
    rewrite E. rewrite (Hmain n (n - 1)%Z (clamp_m (n - 1) m)).
    rewrite (clamp_l_id n (n - 1)) by lia.
    rewrite (clamp_m_id (n - 1) (clamp_m (n - 1) m)) by (apply clamp_m_spec; lia).
    reflexivity.
  - intros Hl. rewrite Hmain.
    assert (E : clamp_l 1 l = 0%Z).
    { unfold clamp_l. destruct (Z.gtb_spec l (1 - 1)); lia. }
    rewrite E.
    assert (E' : clamp_m 0 m = 0%Z).
    { pose proof (clamp_m_spec 0 m ltac:(lia)). lia. }
    rewrite E'. reflexivity.
Qed.

(** X5: the guards of [createHWaveFunc] accept exactly the triples with
    |m| <= l < n < l + 30 and l <= 30.  Whatever it accepts,
    [hydrogenWaveFuncStr] compiles without altering l or m; the compiler
    also accepts triples the constructor rejects, such as (1, 5, 7).
    The degree guard l - 1 < 30 lets l = 30 through. *)
Theorem createHWaveFunc_acceptance (n l m : Z) (phase a : R) :
  (createHWaveFunc laguerre sphericalHarmonics n l m phase a <> None
   <-> (Z.abs m <= l /\ l < n /\ n < l + Z.of_nat maxHPolyTermCount
        /\ l <= Z.of_nat maxHPolyTermCount)%Z)
  /\ (createHWaveFunc laguerre sphericalHarmonics n l m phase a <> None ->
      exists amp,
        hydrogenWaveFuncStr laguerre sphericalHarmonics n l m phase
        = Some (amp, Add (Mul (IntLit m) (Var Vphi)) (Lit phase)))
  /\ (createHWaveFunc laguerre sphericalHarmonics 1 5 7 phase a = None
      /\ hydrogenWaveFuncStr laguerre sphericalHarmonics 1 5 7 phase <> None)
  /\ createHWaveFunc laguerre sphericalHarmonics 31 30 0 phase a <> None.
Proof.
  split; [|split; [|split]].
  - rewrite createHWaveFunc_defined. lia.
  - intros H. apply createHWaveFunc_defined in H.
    eexists. apply hydrogenWaveFuncStr_some; lia.
  - split; [reflexivity|].
    apply hydrogenWaveFuncStr_defined. vm_compute. repeat split; discriminate.
  - apply createHWaveFunc_defined. vm_compute. repeat split; discriminate.
Qed.

Lemma coeffArray_ext (f g : nat -> R) :
  (forall i, f i = g i) -> coeffArray f = coeffArray g.
Proof. intros H. unfold coeffArray. apply map_ext. exact H. Qed.

(** X7: the amplitude text does not depend on the sign of m.  When the
    coefficient routine writes the same table for m and for -m, the
    texts compiled for (n, l, m) and (n, l, -m) have identical amplitude
    expressions, and their phase expressions differ only in the sign of
    the factor of phi. *)
Theorem compiled_amplitude_ignores_sign_of_m (n l m : Z) (phase : R)
    (ampP phP ampM phM : expr) :
  (forall l' m' i, sphericalHarmonics l' (- m') i = sphericalHarmonics l' m' i) ->
  hydrogenWaveFuncStr laguerre sphericalHarmonics n l m phase = Some (ampP, phP) ->
  hydrogenWaveFuncStr laguerre sphericalHarmonics n l (- m) phase = Some (ampM, phM) ->
  ampM = ampP
  /\ phP = Add (Mul (IntLit (clamp_m (clamp_l n l) m)) (Var Vphi)) (Lit phase)
  /\ phM = Add (Mul (IntLit (- clamp_m (clamp_l n l) m)) (Var Vphi)) (Lit phase).
Proof.
  intros Hsym HP HM.
  assert (Hd : hydrogenWaveFuncStr laguerre sphericalHarmonics n l m phase <> None)
    by (rewrite HP; discriminate).
  apply hydrogenWaveFuncStr_defined in Hd. destruct Hd as (Hn & Hl & Hd1 & Hd2).
  pose proof (clamp_l_nonneg n l Hn Hl) as Hc.
  pose proof (clamp_m_spec (clamp_l n l) m ltac:(lia)) as Hcm.
  rewrite (hydrogenWaveFuncStr_clamped_eq n l m phase) in HP.
  rewrite (hydrogenWaveFuncStr_clamped_eq n l (- m) phase) in HM.
  rewrite clamp_m_opp in HM by lia.
  rewrite hydrogenWaveFuncStr_some in HP by lia.
  rewrite hydrogenWaveFuncStr_some in HM by lia.
  injection HP as <- <-. injection HM as <- <-.
  split; [|split; reflexivity].
  set (mc := clamp_m (clamp_l n l) m).
  assert (Es : sinFactors (- mc) = sinFactors mc).
  { unfold sinFactors. rewrite Z.abs_opp.
    destruct (Z.eqb_spec mc 0), (Z.eqb_spec (- mc) 0); try lia; reflexivity. }
  rewrite Es.
  rewrite (coeffArray_ext (sphericalHarmonics (clamp_l n l) (- mc))
                          (sphericalHarmonics (clamp_l n l) mc))
    by (intros i; apply Hsym).
  reflexivity.
Qed.

End CompilerFacts.

Lemma hydrogenWaveFuncStr_reads_clamped_numbers_witness :
  hydrogenWaveFuncStr Math.laguerre Math.sphericalHarmonics 1 11 (-11) 0
  = hydrogenWaveFuncStr Math.laguerre Math.sphericalHarmonics 1 0 0 0.
Proof.
  apply (proj2 (proj2 (hydrogenWaveFuncStr_reads_clamped_numbers Math.laguerre Math.sphericalHarmonics 1 11 (-11) 0))).
  lia.
Defined.

Lemma createHWaveFunc_acceptance_witness :
  exists amp,
    hydrogenWaveFuncStr Math.laguerre Math.sphericalHarmonics 3 2 (-1) 0
    = Some (amp, Add (Mul (IntLit (-1)) (Var Vphi)) (Lit 0)).
Proof.
  apply (proj1 (proj2 (createHWaveFunc_acceptance Math.laguerre Math.sphericalHarmonics 3 2 (-1) 0 1))).
  apply createHWaveFunc_defined. vm_compute. repeat split; discriminate.
Defined.

Lemma sphericalHarmonics_even_in_m l m i :
  Math.sphericalHarmonics l (- m) i = Math.sphericalHarmonics l m i.
Proof. unfold Math.sphericalHarmonics. rewrite Z.abs_opp. reflexivity. Qed.

Lemma compiled_amplitude_ignores_sign_of_m_witness :
  exists amp phP phM,
    hydrogenWaveFuncStr Math.laguerre Math.sphericalHarmonics 2 1 1 0 = Some (amp, phP)
    /\ hydrogenWaveFuncStr Math.laguerre Math.sphericalHarmonics 2 1 (-1) 0
       = Some (amp, phM).
Proof.
  destruct (hydrogenWaveFuncStr Math.laguerre Math.sphericalHarmonics 2 1 1 0)
    as [[ampP phP]|] eqn:HP.
  - destruct (hydrogenWaveFuncStr Math.laguerre Math.sphericalHarmonics 2 1 (-1) 0)
      as [[ampM phM]|] eqn:HM.
    + exists ampP, phP, phM. split; [reflexivity|].
      destruct (compiled_amplitude_ignores_sign_of_m Math.laguerre Math.sphericalHarmonics
                  2 1 1 0 ampP phP ampM phM sphericalHarmonics_even_in_m HP HM)
        as (-> & _ & _).
      reflexivity.
    + exfalso. revert HM. apply hydrogenWaveFuncStr_defined.
      vm_compute. repeat split; discriminate.
  - exfalso. revert HP. apply hydrogenWaveFuncStr_defined.
    vm_compute. repeat split; discriminate.
Defined.

(* ================================================================= *)
(** ** The emitted sums and the radial power at the nucleus *)

Lemma flat_map_all_nil {A B : Type} (F : A -> list B) (l : list A) :
  (forall a, In a l -> F a = []) -> flat_map F l = [].
Proof.
  induction l as [|a l IH]; intros H; [reflexivity|].
  cbn [flat_map]. rewrite (H a) by (left; reflexivity).
  apply IH. intros b Hb. apply H. right. exact Hb.
Qed.

Lemma terms_empty_when_all_zero rho coeff :
  (forall i, (i < maxHPolyTermCount)%nat -> nth i coeff 0 = 0) ->
  sphericalTerms coeff = [] /\ laguerreTerms rho coeff = [].
Proof.
  intros H. split.
  - unfold sphericalTerms. apply flat_map_all_nil. intros i Hi.
    apply in_seq in Hi. cbv zeta. rewrite H by lia.
    destruct (Req_dec_T 0 0) as [_|Hne]; [reflexivity | exfalso; apply Hne; reflexivity].
  - unfold laguerreTerms. apply flat_map_all_nil. intros i Hi.
    apply in_seq in Hi. cbv zeta. rewrite H by lia.
    destruct (Req_dec_T 0 0) as [_|Hne]; [reflexivity | exfalso; apply Hne; reflexivity].
Qed.

(** X6: the two coefficient loops of [hydrogenWaveFuncStr] leave out the
    zero coefficients without changing the sum.  With at least one
    non-zero coefficient the emitted sum evaluates to the full
    30-term polynomial: in cos_theta for every value of cos_theta (the
    sign factor restores odd powers of a negative cosine), in rho for
    every rho >= 0.  With all 30 coefficients zero both loops emit
    nothing, and the text between the parentheses is empty. *)
Theorem coefficient_loops_skip_zero_terms (st : Glsl.state) (rho : expr) (x : R)
    (coeff : list R) :
  ((exists i, (i < maxHPolyTermCount)%nat /\ nth i coeff 0 <> 0) ->
   Glsl.eval st (Sum (sphericalTerms coeff))
   = Some (polySum coeff (Glsl.sv st Vcos_theta))
   /\ (Glsl.eval st rho = Some x -> 0 <= x ->
       Glsl.eval st (Sum (laguerreTerms rho coeff)) = Some (polySum coeff x)))
  /\ ((forall i, (i < maxHPolyTermCount)%nat -> nth i coeff 0 = 0) ->
      sphericalTerms coeff = [] /\ laguerreTerms rho coeff = []
      /\ Glsl.eval st (Sum (sphericalTerms coeff)) = None
      /\ Glsl.eval st (Sum (laguerreTerms rho coeff)) = None).
Proof.
  split.
  - intros Hex. split.
    + rewrite eval_Sum by (apply sphericalTerms_nonempty; exact Hex).
      apply evalTerms_spherical.
    + intros Hrho Hx.
      rewrite eval_Sum by (apply laguerreTerms_nonempty; exact Hex).
      apply evalTerms_laguerre; assumption.
  - intros Hz. destruct (terms_empty_when_all_zero rho coeff Hz) as [E1 E2].
    rewrite E1, E2. repeat split; reflexivity.
Qed.

Lemma coefficient_loops_skip_zero_terms_witness :
  Glsl.eval (pointState 1 PI 0) (Sum (sphericalTerms [0; 2]))
  = Some (polySum [0; 2] (Glsl.sv (pointState 1 PI 0) Vcos_theta)).
Proof.
  apply (proj1 (coefficient_loops_skip_zero_terms (pointState 1 PI 0) (Var Vr) 1 [0; 2])).
  exists 1%nat. split; [unfold maxHPolyTermCount; lia | simpl; lra].
Defined.

Lemma eval_fold_left_Mul_None st es : forall e,
  Glsl.eval st e = None -> Glsl.eval st (fold_left Mul es e) = None.
Proof.
  induction es as [|f es IH]; intros e He; [exact He|].
  cbn [fold_left]. apply IH. cbn [Glsl.eval]. rewrite He. reflexivity.
Qed.

Lemma eval_Mul_None_r st a b :
  Glsl.eval st b = None -> Glsl.eval st (Mul a b) = None.
Proof.
  intros Hb. cbn [Glsl.eval]. rewrite Hb.
  destruct (Glsl.eval st a); reflexivity.
Qed.

Lemma eval_Mul_None_l st a b :
  Glsl.eval st a = None -> Glsl.eval st (Mul a b) = None.
Proof. intros Ha. cbn [Glsl.eval]. rewrite Ha. reflexivity. Qed.

Section Nucleus.

Variable laguerre : Z -> Z -> nat -> R.
Variable sphericalHarmonics : Z -> Z -> nat -> R.

(** X8: at the nucleus the compiled amplitude of an s-state has no
    defined value.  When the clamped l is 0 (always so for n = 1) the
    text contains [pow(rho, 0.0)] with rho = c*r, and the shading
    language leaves pow(0, 0) undefined; so in every state with r = 0
    the evaluation of the amplitude text yields no value. *)
Theorem compiled_amplitude_undefined_at_nucleus (n l m : Z) (phase : R)
    (amp ph : expr) (st : Glsl.state) :
  hydrogenWaveFuncStr laguerre sphericalHarmonics n l m phase = Some (amp, ph) ->
  clamp_l n l = 0%Z ->
  Glsl.sv st Vr = 0 ->
  Glsl.eval st (Pow (rho_str n 1) (IntLit 0)) = None
  /\ Glsl.eval st amp = None.
Proof.
  intros Hc Hl0 Hr.
  assert (Hpow : Glsl.eval st (Pow (rho_str n 1) (IntLit 0)) = None).
  { unfold rho_str. cbn [Glsl.eval Glsl.lift2 Glsl.bind]. rewrite Hr.
    rewrite Rmult_0_r. unfold Glsl.pow.
    destruct (Rlt_dec 0 0) as [H|_]; [lra|].
    destruct (Req_dec_T 0 0) as [_|H]; [|exfalso; apply H; reflexivity].
    destruct (Rlt_dec 0 0) as [H|_]; [lra|]. reflexivity. }
  split; [exact Hpow|].
  assert (Hd : hydrogenWaveFuncStr laguerre sphericalHarmonics n l m phase <> None)
    by (rewrite Hc; discriminate).
  apply hydrogenWaveFuncStr_defined in Hd. destruct Hd as (Hn & Hl & Hd1 & Hd2).
  rewrite hydrogenWaveFuncStr_clamped_eq in Hc.
  pose proof (clamp_m_spec (clamp_l n l) m ltac:(lia)) as Hcm.
  rewrite hydrogenWaveFuncStr_some in Hc by lia.
  injection Hc as <- _. rewrite Hl0.
  cbn [app fold_left]. apply eval_fold_left_Mul_None.
  apply eval_Mul_None_l, eval_Mul_None_r. exact Hpow.
Qed.

End Nucleus.

Lemma compiled_amplitude_undefined_at_nucleus_witness :
  exists amp ph,
    hydrogenWaveFuncStr Math.laguerre Math.sphericalHarmonics 1 0 0 0 = Some (amp, ph)
    /\ Glsl.eval (pointState 0 0 0) amp = None.
Proof.
  destruct (hydrogenWaveFuncStr Math.laguerre Math.sphericalHarmonics 1 0 0 0)
    as [[amp ph]|] eqn:Hc.
  - exists amp, ph. split; [reflexivity|].
    apply (proj2 (compiled_amplitude_undefined_at_nucleus
                    Math.laguerre Math.sphericalHarmonics 1 0 0 0 amp ph
                    (pointState 0 0 0) Hc eq_refl eq_refl)).
  - exfalso. revert Hc. apply hydrogenWaveFuncStr_defined.
    vm_compute. repeat split; discriminate.
Defined.

(* ================================================================= *)
(** ** The statements of one wave at a sample point *)

Lemma cos_theta_range_strict (p : vec3) :
  (vx p <> 0 \/ vy p <> 0) ->
  -1 < vz p / sqrt (Glsl.dot p p) < 1.
Proof.
  intros Hxy.
  pose proof (radius_pos p Hxy) as Hd.
  pose proof (sqrt_lt_R0 _ Hd) as Hs.
  assert (Hlt : Rabs (vz p) < sqrt (Glsl.dot p p)).
  { rewrite <- sqrt_Rsqr_abs. apply sqrt_lt_1_alt. split; [apply Rle_0_sqr|].
    unfold Glsl.dot, Rsqr.
    pose proof (Rle_0_sqr (vx p)) as Hx. pose proof (Rle_0_sqr (vy p)) as Hy.
    unfold Rsqr in *.
    destruct Hxy as [H|H]; pose proof (Rsqr_pos_lt _ H) as Hp; unfold Rsqr in Hp; lra. }
  assert (Habs : Rabs (vz p / sqrt (Glsl.dot p p)) < 1).
  { unfold Rdiv. rewrite Rabs_mult, (Rabs_right (/ _))
      by (apply Rle_ge, Rlt_le, Rinv_0_lt_compat, Hs).
    apply (Rmult_lt_reg_r (sqrt (Glsl.dot p p))); [exact Hs|].
    rewrite Rmult_assoc, Rinv_l, Rmult_1_r, Rmult_1_l by lra. exact Hlt. }
  pose proof (Rle_abs (vz p / sqrt (Glsl.dot p p))) as H1.
  pose proof (Rle_abs (- (vz p / sqrt (Glsl.dot p p)))) as H2.
  rewrite Rabs_Ropp in H2. lra.
Qed.

(** The state after the six coordinate statements of a wave. *)
Lemma exec_coordinates_full st i w amp ph :
  let p := Glsl.vadd (Glsl.vadd (Glsl.vv st Vv_pos)
                        (Glsl.vscale (Glsl.vv st Vn) (Glsl.sv st Vdist)))
                     (V3 0 0 (Q2R (Wave.translation w))) in
  let r := sqrt (Glsl.dot p p) in
  (vx p <> 0 \/ vy p <> 0) ->
  exists st1 phi,
    Glsl.exec st (firstn 6 (waveStmts i w amp ph)) = Some st1
    /\ Glsl.atan2 (vy p) (vx p) = Some phi
    /\ Glsl.vv st1 Vcart_p = p
    /\ Glsl.sv st1 Vr = r
    /\ Glsl.sv st1 Vphi = phi
    /\ Glsl.sv st1 Vcos_theta = vz p / r
    /\ Glsl.sv st1 Vtheta = acos (vz p / r)
    /\ Glsl.sv st1 Vsin_theta = sin (acos (vz p / r))
    /\ Glsl.sv st1 Vtotal_real = Glsl.sv st Vtotal_real
    /\ Glsl.sv st1 Vtotal_imag = Glsl.sv st Vtotal_imag.
Proof.
  intros p r Hxy.
  pose proof (radius_pos p Hxy) as Hd.
  pose proof (sqrt_lt_R0 _ Hd) as Hr. fold r in Hr.
  pose proof (cos_theta_range p Hd) as Hc. fold r in Hc.
  destruct (atan2_defined (vy p) (vx p)) as [phi Hphi]; [tauto|].
  cbn [firstn waveStmts Glsl.exec Glsl.exec1 Glsl.veval Glsl.eval Glsl.bind
       option_map Glsl.vv Glsl.sv Glsl.set_v Glsl.set_s Glsl.vvar_eqb
       Glsl.svar_eqb Glsl.comp Glsl.call].
  fold p.
  destruct (Rlt_dec (Glsl.dot p p) 0); [lra|].
  cbn [Glsl.bind option_map Glsl.vv Glsl.sv Glsl.set_v Glsl.set_s Glsl.vvar_eqb
       Glsl.svar_eqb Glsl.comp Glsl.call].
  rewrite Hphi.
  cbn [Glsl.bind option_map Glsl.vv Glsl.sv Glsl.set_v Glsl.set_s Glsl.vvar_eqb
       Glsl.svar_eqb Glsl.comp Glsl.call].
  fold r.
  destruct (Req_dec_T r 0); [lra|].
  cbn [Glsl.bind option_map Glsl.vv Glsl.sv Glsl.set_v Glsl.set_s Glsl.vvar_eqb
       Glsl.svar_eqb Glsl.comp Glsl.call].
  destruct (Rlt_dec 1 (Rabs (vz p / r))); [lra|].
  cbn [Glsl.bind option_map Glsl.vv Glsl.sv Glsl.set_v Glsl.set_s Glsl.vvar_eqb
       Glsl.svar_eqb Glsl.comp Glsl.call].
  eexists. exists phi. split; [reflexivity|].
  cbn [Glsl.sv Glsl.vv]. repeat split.
Qed.

(** X9: the six coordinate statements of a wave compute proper spherical
    coordinates wherever the sample point (shifted by the wave's
    translation) is off the z axis: r > 0 with r^2 = x^2 + y^2 + z^2,
    r*cos_theta = z, theta in (0, pi), and sin_theta > 0 with
    (r*sin_theta)^2 = x^2 + y^2.  Hence [sign(sin_theta)] is 1 there,
    and the sign factor the compiler emits for odd m never flips. *)
Theorem macro_coordinates_are_spherical (st : Glsl.state) (i : nat) (w : Wave.t)
    (amp ph : expr) :
  let p := Glsl.vadd (Glsl.vadd (Glsl.vv st Vv_pos)
                        (Glsl.vscale (Glsl.vv st Vn) (Glsl.sv st Vdist)))
                     (V3 0 0 (Q2R (Wave.translation w))) in
  (vx p <> 0 \/ vy p <> 0) ->
  exists st1,
    Glsl.exec st (firstn 6 (waveStmts i w amp ph)) = Some st1
    /\ Glsl.vv st1 Vcart_p = p
    /\ 0 < Glsl.sv st1 Vr
    /\ Glsl.sv st1 Vr * Glsl.sv st1 Vr = vx p * vx p + vy p * vy p + vz p * vz p
    /\ Glsl.sv st1 Vr * Glsl.sv st1 Vcos_theta = vz p
    /\ 0 < Glsl.sv st1 Vtheta < PI
    /\ 0 < Glsl.sv st1 Vsin_theta
    /\ (Glsl.sv st1 Vr * Glsl.sv st1 Vsin_theta)
       * (Glsl.sv st1 Vr * Glsl.sv st1 Vsin_theta) = vx p * vx p + vy p * vy p
    /\ Glsl.sign (Glsl.sv st1 Vsin_theta) = 1.
Proof.
  intros p Hxy.
  destruct (exec_coordinates_full st i w amp ph Hxy)
    as (st1 & phi & E & _ & Hp & Hr & _ & Hc & Ht & Hs & _).
  fold p in Hp, Hr, Hc, Ht, Hs.
  pose proof (radius_pos p Hxy) as Hd.
  pose proof (sqrt_lt_R0 _ Hd) as Hr0.
  pose proof (cos_theta_range_strict p Hxy) as Hrange.
  pose proof (acos_bound_lt _ Hrange) as Hth.
  assert (Hsin : 0 < sin (acos (vz p / sqrt (Glsl.dot p p))))
    by (apply sin_gt_0; lra).
  assert (Hrr : sqrt (Glsl.dot p p) * sqrt (Glsl.dot p p) = Glsl.dot p p)
    by (apply sqrt_sqrt; lra).
  exists st1. rewrite Hr, Hc, Ht, Hs.
  split; [exact E|]. split; [exact Hp|]. split; [exact Hr0|].
  split; [rewrite Hrr; reflexivity|].
  split; [field; lra|].
  split; [exact Hth|]. split; [exact Hsin|].
  split.
  - pose proof (sin2_cos2 (acos (vz p / sqrt (Glsl.dot p p)))) as H2.
    rewrite cos_acos in H2 by lra. unfold Rsqr in H2.
    set (s := sin (acos (vz p / sqrt (Glsl.dot p p)))) in *.
    set (r := sqrt (Glsl.dot p p)) in *.
    assert (Hz : r * (vz p / r) = vz p) by (field; lra).
    assert (Hs2 : s * s = 1 - (vz p / r) * (vz p / r)) by lra.
    replace ((r * s) * (r * s)) with (r * r * (s * s)) by ring.
    rewrite Hs2.
    replace (r * r * (1 - vz p / r * (vz p / r)))
      with (r * r - (r * (vz p / r)) * (r * (vz p / r))) by ring.
    rewrite Hz, Hrr. unfold Glsl.dot. ring.
  - unfold Glsl.sign. destruct (Rlt_dec 0 _); [reflexivity | contradiction].
Qed.

Lemma macro_coordinates_are_spherical_witness :
  exists st1,
    Glsl.exec unitXState (firstn 6 (waveStmts 0 firstWave (Lit 0) (Lit 0))) = Some st1
    /\ Glsl.sign (Glsl.sv st1 Vsin_theta) = 1.
Proof.
  destruct (macro_coordinates_are_spherical unitXState 0 firstWave (Lit 0) (Lit 0))
    as (st1 & E & _ & _ & _ & _ & _ & _ & _ & Hs).
  - left. simpl. lra.
  - exists st1. split; assumption.
Defined.

Lemma atan_yx_origin : Glsl.atan_yx 0 0 = None.
Proof.
  unfold Glsl.atan_yx.
  destruct (Rlt_dec 0 0); [lra|]. destruct (Rlt_dec 0 0); [lra|]. reflexivity.
Qed.

Lemma atan2_origin : Glsl.atan2 0 0 = None.
Proof.
  unfold Glsl.atan2. destruct (Rlt_dec (Rabs 0) (Rabs 0)) as [H|_]; [lra|].
  rewrite atan_yx_origin. reflexivity.
Qed.

(** X10: the template's [atan2] has a value exactly off the origin, so
    its branch covers x = 0 with y <> 0 but not x = y = 0.  At a sample
    point on the z axis (after the wave's translation) the statement
    [phi= atan2(cart_p.y, cart_p.x)] therefore has no defined value, and
    neither has the statement list of the wave, whatever its formula. *)
Theorem macro_undefined_on_z_axis :
  (forall y x, Glsl.atan2 y x <> None <-> (y <> 0 \/ x <> 0))
  /\ (forall (st : Glsl.state) (i : nat) (w : Wave.t) (amp ph : expr),
        let p := Glsl.vadd (Glsl.vadd (Glsl.vv st Vv_pos)
                              (Glsl.vscale (Glsl.vv st Vn) (Glsl.sv st Vdist)))
                           (V3 0 0 (Q2R (Wave.translation w))) in
        vx p = 0 -> vy p = 0 ->
        Glsl.exec st (waveStmts i w amp ph) = None).
Proof.
  split.
  - intros y x. split.
    + intros Hd. destruct (Req_dec_T y 0) as [Hy|Hy]; [|left; exact Hy].
      destruct (Req_dec_T x 0) as [Hx|Hx]; [|right; exact Hx].
      exfalso. apply Hd. rewrite Hy, Hx. apply atan2_origin.
    + intros H. destruct (atan2_defined y x H) as [v Hv]. rewrite Hv. discriminate.
  - intros st i w amp ph p Hx Hy.
    cbn [waveStmts Glsl.exec Glsl.exec1 Glsl.veval Glsl.eval Glsl.bind
         option_map Glsl.vv Glsl.sv Glsl.set_v Glsl.set_s Glsl.vvar_eqb
         Glsl.svar_eqb Glsl.comp Glsl.call].
    fold p.
    destruct (Rlt_dec (Glsl.dot p p) 0); [reflexivity|].
    cbn [Glsl.bind option_map Glsl.vv Glsl.sv Glsl.set_v Glsl.set_s Glsl.vvar_eqb
         Glsl.svar_eqb Glsl.comp Glsl.call].
    rewrite Hx, Hy, atan2_origin. reflexivity.
Qed.

Lemma macro_undefined_on_z_axis_witness :
  Glsl.exec (Glsl.mkState (fun _ => 0) (fun _ => V3 0 0 0))
    (waveStmts 0 firstWave (Lit 0) (Lit 0)) = None.
Proof.
  apply (proj2 macro_undefined_on_z_axis); simpl; lra.
Defined.

Section MacroValues.

Variable laguerre : Z -> Z -> nat -> R.
Variable sphericalHarmonics : Z -> Z -> nat -> R.

(** The state after all ten statements of a compiled wave. *)
Lemma exec_waveStmts_values st i w n l m phase hw amp ph :
  createHWaveFunc laguerre sphericalHarmonics n l m phase 1 = Some hw ->
  hydrogenWaveFuncStr laguerre sphericalHarmonics n l m phase = Some (amp, ph) ->
  (exists j, (j < maxHPolyTermCount)%nat /\ laguerre (n - l - 1)%Z (2 * l + 1)%Z j <> 0) ->
  (exists j, (j < maxHPolyTermCount)%nat /\ sphericalHarmonics l m j <> 0) ->
  let p := Glsl.vadd (Glsl.vadd (Glsl.vv st Vv_pos)
                        (Glsl.vscale (Glsl.vv st Vn) (Glsl.sv st Vdist)))
                     (V3 0 0 (Q2R (Wave.translation w))) in
  let r := sqrt (Glsl.dot p p) in
  let theta := acos (vz p / r) in
  (vx p <> 0 \/ vy p <> 0) ->
  exists st' phi,
    Glsl.exec st (waveStmts i w amp ph) = Some st'
    /\ Glsl.atan2 (vy p) (vx p) = Some phi
    /\ Glsl.sv st' (Va i) = brightness n * spec_amplitude hw r theta
    /\ Glsl.sv st' (Vp i) = value_phase hw phi
    /\ Glsl.sv st' Vtotal_real
       = Glsl.sv st Vtotal_real
         + brightness n * spec_amplitude hw r theta * cos (value_phase hw phi)
           * Q2R (Wave.amplitude w)
    /\ Glsl.sv st' Vtotal_imag
       = Glsl.sv st Vtotal_imag
         + brightness n * spec_amplitude hw r theta * sin (value_phase hw phi).
Proof.
  intros Hw Hc HL HY p r theta Hxy.
  destruct (exec_coordinates_full st i w amp ph Hxy)
    as (st1 & phi & E1 & Hphi & _ & Hr & Hph & Hcos & Hth & Hsin & Htr & Hti).
  fold p in Hphi, Hr, Hph, Hcos, Hth, Hsin. fold r in Hr, Hcos, Hth, Hsin.
  fold theta in Hth, Hsin.
  pose proof (radius_pos p Hxy) as Hd.
  pose proof (sqrt_lt_R0 _ Hd) as Hpos. fold r in Hpos.
  pose proof (cos_theta_range_strict p Hxy) as Hrange. fold r in Hrange.
  assert (Hcos' : Glsl.sv st1 Vcos_theta = cos theta).
  { rewrite Hcos. unfold theta. rewrite cos_acos; [reflexivity | lra]. }
  change (waveStmts i w amp ph)
    with (firstn 6 (waveStmts i w amp ph) ++ skipn 6 (waveStmts i w amp ph)).
  rewrite exec_app, E1. cbn [Glsl.bind skipn waveStmts].
  destruct (compiled_is_spec_amplitude laguerre sphericalHarmonics n l m phase hw
              amp ph st1 _ _ _ Hw Hc Hr Hsin Hcos' Hph) as [Ha _];
    [lra | left; exact Hpos | exact HL | exact HY |].
  cbn [Glsl.exec Glsl.exec1]. rewrite Ha. cbn [option_map Glsl.bind].
  set (A := brightness n * spec_amplitude hw r theta) in *.
  set (st2 := Glsl.set_s st1 (Va i) A).
  assert (Hph2 : Glsl.sv st2 Vphi = phi) by (unfold st2; cbn; exact Hph).
  destruct (compiled_is_spec_amplitude laguerre sphericalHarmonics n l m phase hw
              amp ph st2 _ _ _ Hw Hc Hr Hsin Hcos' Hph2)
    as [_ Hp];
    [lra | left; exact Hpos | exact HL | exact HY |].
  rewrite Hp. cbn [option_map Glsl.bind].
  set (P := value_phase hw phi) in *.
  cbn [Glsl.eval Glsl.lift2 Glsl.bind Glsl.call Glsl.sv Glsl.set_s Glsl.svar_eqb
       option_map].
  rewrite !Nat.eqb_refl.
  cbn [Glsl.eval Glsl.lift2 Glsl.bind Glsl.call Glsl.sv Glsl.set_s Glsl.svar_eqb
       option_map].
  eexists. exists phi. split; [reflexivity|]. split; [exact Hphi|].
  unfold st2. cbn [Glsl.sv Glsl.set_s Glsl.svar_eqb]. rewrite ?Nat.eqb_refl.
  rewrite Htr, Hti. repeat split; reflexivity.
Qed.

End MacroValues.

(** X11: what one compiled wave adds to the totals.  For a state that
    [createHWaveFunc] accepts with m >= 0 and n <= 30 (coefficient tables
    as modelled in [Math]), at every sample point off the wave's z axis
    the ten statements run, and they add brightness(n) times the real
    part of [value] at that point, weighted by the wave's amplitude, to
    [total_real], and brightness(n) times its imaginary part, without the
    weight, to [total_imag]; r, theta are the point's spherical
    coordinates and phi is the template's [atan2(y, x)]. *)
Theorem wave_statements_accumulate_value (st : Glsl.state) (i : nat) (w : Wave.t)
    (n l m : Z) (phase : R) (hw : HWaveFunc.t) (amp ph : expr) :
  createHWaveFunc Math.laguerre Math.sphericalHarmonics n l m phase 1 = Some hw ->
  hydrogenWaveFuncStr Math.laguerre Math.sphericalHarmonics n l m phase
    = Some (amp, ph) ->
  (n <= Z.of_nat maxHPolyTermCount)%Z -> (0 <= m)%Z ->
  let p := Glsl.vadd (Glsl.vadd (Glsl.vv st Vv_pos)
                        (Glsl.vscale (Glsl.vv st Vn) (Glsl.sv st Vdist)))
                     (V3 0 0 (Q2R (Wave.translation w))) in
  let r := sqrt (Glsl.dot p p) in
  let theta := acos (vz p / r) in
  (vx p <> 0 \/ vy p <> 0) ->
  exists st' phi,
    Glsl.exec st (waveStmts i w amp ph) = Some st'
    /\ Glsl.atan2 (vy p) (vx p) = Some phi
    /\ Glsl.sv st' Vtotal_real
       = Glsl.sv st Vtotal_real
         + brightness n * Complex.a (value hw r theta phi) * Q2R (Wave.amplitude w)
    /\ Glsl.sv st' Vtotal_imag
       = Glsl.sv st Vtotal_imag + brightness n * Complex.b (value hw r theta phi).
Proof.
  intros Hw Hc Hn Hm p r theta Hxy.
  pose proof (createHWaveFunc_some _ _ _ _ _ _ _ _ Hw) as (Ew & Hn0 & Hl & Hml & Hd & Hd').
  assert (HL : exists j, (j < maxHPolyTermCount)%nat
                 /\ Math.laguerre (n - l - 1) (2 * l + 1) j <> 0).
  { exists 0%nat. split; [unfold maxHPolyTermCount; lia | apply laguerre_constant_term]. }
  assert (HY : exists j, (j < maxHPolyTermCount)%nat
                 /\ Math.sphericalHarmonics l m j <> 0).
  { exists (Z.to_nat l - Z.to_nat (Z.abs m))%nat. split.
    - unfold maxHPolyTermCount in *. lia.
    - apply sphericalHarmonics_leading; lia. }
  destruct (exec_waveStmts_values Math.laguerre Math.sphericalHarmonics
              st i w n l m phase hw amp ph Hw Hc HL HY Hxy)
    as (st' & phi & E & Hphi & _ & _ & Hre & Him).
  fold p in Hphi, Hre, Him. fold r in Hre, Him. fold theta in Hre, Him.
  exists st', phi. split; [exact E|]. split; [exact Hphi|].
  assert (Hm' : (0 <= HWaveFunc.m hw)%Z) by (rewrite Ew; exact Hm).
  rewrite Hre, Him. unfold value. cbn [Complex.a Complex.b].
  rewrite (value_amplitude_nonneg_m hw r theta Hm').
  split; ring.
Qed.

Lemma wave_statements_accumulate_value_witness :
  exists hw amp ph st',
    createHWaveFunc Math.laguerre Math.sphericalHarmonics 1 0 0 0 1 = Some hw
    /\ hydrogenWaveFuncStr Math.laguerre Math.sphericalHarmonics 1 0 0 0
       = Some (amp, ph)
    /\ Glsl.exec unitXState (waveStmts 0 firstWave amp ph) = Some st'.
Proof.
  destruct (createHWaveFunc Math.laguerre Math.sphericalHarmonics 1 0 0 0 1)
    as [hw|] eqn:Hw.
  2:{ exfalso. revert Hw. apply createHWaveFunc_defined.
      vm_compute. repeat split; discriminate. }
  destruct (hydrogenWaveFuncStr Math.laguerre Math.sphericalHarmonics 1 0 0 0)
    as [[amp ph]|] eqn:Hc.
  2:{ exfalso. revert Hc. apply hydrogenWaveFuncStr_defined.
      vm_compute. repeat split; discriminate. }
  destruct (wave_statements_accumulate_value unitXState 0 firstWave 1 0 0 0 hw amp ph
              Hw Hc)
    as (st' & phi & E & _ & _ & Him).
  - unfold maxHPolyTermCount. lia.
  - lia.
  - left. simpl. lra.
  - exists hw, amp, ph, st'. repeat split; try reflexivity; assumption.
Defined.

(* ================================================================= *)
(** ** Shape of the macro CALC_TOTAL_WAVEFUNC *)

Lemma declCount_app x a b : declCount x (a ++ b) = (declCount x a + declCount x b)%nat.
Proof. unfold declCount. rewrite filter_app, length_app. reflexivity. Qed.

Lemma declCount_waveStmts i k w amp ph :
  declCount (Va k) (waveStmts i w amp ph) = (if Nat.eqb i k then 1 else 0)%nat
  /\ declCount (Vp k) (waveStmts i w amp ph) = (if Nat.eqb i k then 1 else 0)%nat.
Proof.
  unfold declCount, waveStmts. cbn [filter Glsl.svar_eqb].
  destruct (Nat.eqb i k); split; reflexivity.
Qed.

Lemma calcTotalWavefunc_shape ws : forall i,
  List.length (calcTotalWavefunc i ws)
  = (10 * List.length (emittedWaves (map fst ws)))%nat
  /\ (forall k,
        let expected :=
          if (k <? i)%nat then 0%nat
          else match nth_error ws (k - i) with
               | Some (w, _) => if skipped w then 0%nat else 1%nat
               | None => 0%nat
               end in
        declCount (Va k) (calcTotalWavefunc i ws) = expected
        /\ declCount (Vp k) (calcTotalWavefunc i ws) = expected).
Proof.
  induction ws as [|[w [amp ph]] ws IH]; intros i.
  - split; [reflexivity|]. intros k expected. unfold expected.
    destruct (Nat.ltb k i); [split; reflexivity|].
    destruct (k - i)%nat; split; reflexivity.
  - destruct (IH (S i)) as [IHlen IHdecl]. split.
    + cbn [calcTotalWavefunc map fst emittedWaves filter].
      rewrite length_app, IHlen. unfold emittedWaves.
      destruct (skipped w); cbn [negb List.length waveStmts app]; lia.
    + intros k expected. cbn [calcTotalWavefunc].
      rewrite !declCount_app.
      destruct (IHdecl k) as [Ha Hp]. rewrite Ha, Hp. clear Ha Hp.
      assert (Hhead : forall x, (x = Va k \/ x = Vp k) ->
                declCount x (if skipped w then [] else waveStmts i w amp ph)
                = if skipped w then 0%nat else if Nat.eqb i k then 1%nat else 0%nat).
      { intros x Hx. destruct (skipped w); [reflexivity|].
        destruct (declCount_waveStmts i k w amp ph) as [H1 H2].
        destruct Hx as [-> | ->]; assumption. }
      rewrite (Hhead (Va k)) by (left; reflexivity).
      rewrite (Hhead (Vp k)) by (right; reflexivity).
      unfold expected. clear expected Hhead.
      destruct (Nat.ltb_spec k i) as [Hlt|Hge].
      * destruct (Nat.ltb_spec k (S i)); [|lia].
        rewrite (proj2 (Nat.eqb_neq i k)) by lia.
        destruct (skipped w); split; reflexivity.
      * destruct (Nat.eqb_spec i k) as [->|Hne].
        -- rewrite Nat.sub_diag. cbn [nth_error].
           destruct (Nat.ltb_spec k (S k)); [|lia].
           destruct (skipped w); split; reflexivity.
        -- destruct (Nat.ltb_spec k (S i)); [lia|].
           replace (k - i)%nat with (S (k - S i)) by lia. cbn [nth_error].
           destruct (skipped w); split; reflexivity.
Qed.

Section MacroShape.

Variable laguerre : Z -> Z -> nat -> R.
Variable sphericalHarmonics : Z -> Z -> nat -> R.

(** What a successful [createVolumeShader] returns. *)
Lemma createVolumeShader_some sample_count complex_color absorption cutoff waves shd :
  createVolumeShader laguerre sphericalHarmonics sample_count complex_color
    absorption cutoff waves = Some shd ->
  exists frags,
    compileWaves laguerre sphericalHarmonics waves = Some frags
    /\ waves <> []
    /\ shd = VolumeShader.mk sample_count (if complex_color then 1 else 0)%Z
               (Q2R absorption) (Q2R cutoff)
               (calcTotalWavefunc 0 (combine waves frags)).
Proof.
  unfold createVolumeShader. intros H.
  destruct waves as [|w ws]; [discriminate|]. cbn [List.length Nat.eqb] in H.
  destruct (compileWaves laguerre sphericalHarmonics (w :: ws)) as [frags|] eqn:Hc;
    [|discriminate].
  injection H as <-. exists frags. repeat split. discriminate.
Qed.

(** X12: the macro holds ten statements for every wave whose amplitude
    exceeds 0.001 and nothing for the others.  The identifiers keep the
    index of the wave in the wave array, so a skipped wave leaves a gap:
    [a_k] and [p_k] are declared exactly once when wave k exists and is
    not skipped, and not at all otherwise.  The four constants are the
    arguments, the flag printed as 1 or 0. *)
Theorem macro_statements_per_emitted_wave
    (sample_count : Z) (complex_color : bool) (absorption cutoff : Q)
    (waves : list Wave.t) (shd : VolumeShader.t) :
  createVolumeShader laguerre sphericalHarmonics sample_count complex_color
    absorption cutoff waves = Some shd ->
  List.length (VolumeShader.CALC_TOTAL_WAVEFUNC shd)
  = (10 * List.length (emittedWaves waves))%nat
  /\ (forall k,
        let expected := match nth_error waves k with
                        | Some w => if skipped w then 0%nat else 1%nat
                        | None => 0%nat
                        end in
        declCount (Va k) (VolumeShader.CALC_TOTAL_WAVEFUNC shd) = expected
        /\ declCount (Vp k) (VolumeShader.CALC_TOTAL_WAVEFUNC shd) = expected)
  /\ VolumeShader.SAMPLE_COUNT shd = sample_count
  /\ VolumeShader.COMPLEX_COLOR shd = (if complex_color then 1 else 0)%Z
  /\ VolumeShader.ABSORPTION_MUL shd = Q2R absorption
  /\ VolumeShader.CUTOFF shd = Q2R cutoff.
Proof.
  intros H.
  destruct (createVolumeShader_some _ _ _ _ _ _ H) as (frags & Hc & _ & ->).
  cbn [VolumeShader.CALC_TOTAL_WAVEFUNC VolumeShader.SAMPLE_COUNT
    VolumeShader.COMPLEX_COLOR VolumeShader.ABSORPTION_MUL VolumeShader.CUTOFF].
  pose proof (compileWaves_length _ _ _ _ Hc) as Hlen.
  destruct (calcTotalWavefunc_shape (combine waves frags) 0) as [Hl Hd].
  rewrite map_fst_combine in Hl by exact Hlen.
  split; [exact Hl|]. split; [|repeat split].
  intros k. specialize (Hd k). cbv zeta in Hd.
  rewrite Nat.sub_0_r in Hd. cbn [Nat.ltb Nat.leb] in Hd.
  assert (E : match nth_error (combine waves frags) k with
              | Some (w, _) => if skipped w then 0%nat else 1%nat
              | None => 0%nat
              end = match nth_error waves k with
                    | Some w => if skipped w then 0%nat else 1%nat
                    | None => 0%nat
                    end).
  { destruct (nth_error waves k) as [w|] eqn:Hk.
    - destruct (nth_error_combine waves frags Hlen k w Hk) as [y Hy].
      rewrite Hy. reflexivity.
    - destruct (nth_error (combine waves frags) k) as [[w y]|] eqn:Hy; [|reflexivity].
      exfalso. apply nth_error_None in Hk.
      assert (Hlt : (k < List.length (combine waves frags))%nat)
        by (apply nth_error_Some; rewrite Hy; discriminate).
      rewrite length_combine in Hlt. lia. }
  rewrite E in Hd. exact Hd.
Qed.

End MacroShape.

Lemma macro_statements_per_emitted_wave_witness :
  exists shd,
    createVolumeShader Math.laguerre Math.sphericalHarmonics 40 false 0 0
      [firstWave; Wave.mk 0 0 1 0 0 0 0] = Some shd
    /\ List.length (VolumeShader.CALC_TOTAL_WAVEFUNC shd)
       = (10 * List.length (emittedWaves [firstWave; Wave.mk 0 0 1 0 0 0 0]))%nat.
Proof.
  destruct (createVolumeShader Math.laguerre Math.sphericalHarmonics 40 false 0 0
              [firstWave; Wave.mk 0 0 1 0 0 0 0]) as [shd|] eqn:H.
  - exists shd. split; [reflexivity|].
    apply (proj1 (macro_statements_per_emitted_wave
                    Math.laguerre Math.sphericalHarmonics _ _ _ _ _ _ H)).
  - exfalso. unfold createVolumeShader in H. cbn [List.length Nat.eqb] in H.
    cbn [compileWaves] in H.
    assert (Hd : hydrogenWaveFuncStr Math.laguerre Math.sphericalHarmonics
                   (Util.to_int 1) (Util.to_int 0) (Util.to_int 0) (Q2R 0) <> None).
    { apply hydrogenWaveFuncStr_defined. vm_compute. repeat split; discriminate. }
    cbn [firstWave Wave.n Wave.l Wave.m Wave.phase] in H.
    destruct (hydrogenWaveFuncStr Math.laguerre Math.sphericalHarmonics
                (Util.to_int 1) (Util.to_int 0) (Util.to_int 0) (Q2R 0));
      [discriminate | apply Hd; reflexivity].
Defined.

(* ================================================================= *)
(** ** The sampling loop of the fragment template *)

Section FragmentFacts.

Import Glsl.








Lemma Rmax_0_nonneg x : 0 <= x -> Rmax 0 x = x.
Proof. intros H. apply Rmax_right. exact H. Qed.

Lemma sampleP_zero_totals CUTOFF : Fragment.sampleP CUTOFF 0 0 = 0.
Proof.
  unfold Fragment.sampleP. cbv zeta. destruct (Rlt_dec _ _); [reflexivity | ring].
Qed.

(** A pass whose P is zero returns the intensity it was given. *)
Lemma sample_dark shd u st i intensity out :
  (VolumeShader.COMPLEX_COLOR shd =? 1)%Z = false ->
  0 <= vx intensity /\ 0 <= vy intensity /\ 0 <= vz intensity ->
  Fragment.sample shd u st i intensity = Some out ->
  snd out = 0 ->
  fst out = intensity.
Proof.
  unfold Fragment.sample, Fragment.emission. cbv zeta. intros Hcc (Hx & Hy & Hz) H HP.
  rewrite Hcc in H.
  destruct (exec _ _) as [st'|]; [|discriminate]. cbn [bind] in H.
  injection H as <-. cbn [fst snd] in HP |- *. rewrite HP.
  destruct intensity as [x y z]. cbn [vx vy vz] in Hx, Hy, Hz.
  unfold Fragment.vmax0, vadd, vscale, vsub. cbn [vx vy vz].
  set (dl := Fragment.u_rayLength u / IZR (VolumeShader.SAMPLE_COUNT shd)).
  set (A := VolumeShader.ABSORPTION_MUL shd).
  set (col := Fragment.u_color u).
  replace (x + (vx col * 0 - x * (0 * A)) * dl) with x by ring.
  replace (y + (vy col * 0 - y * (0 * A)) * dl) with y by ring.
  replace (z + (vz col * 0 - z * (0 * A)) * dl) with z by ring.
  rewrite !Rmax_0_nonneg by assumption. reflexivity.
Qed.

(** With an empty macro every pass has P = 0. *)
Lemma sample_empty_macro shd u st i intensity :
  VolumeShader.CALC_TOTAL_WAVEFUNC shd = [] ->
  (VolumeShader.COMPLEX_COLOR shd =? 1)%Z = false ->
  exists out, Fragment.sample shd u st i intensity = Some out /\ snd out = 0.
Proof.
  intros Hm Hcc. unfold Fragment.sample, Fragment.emission. cbv zeta.
  rewrite Hm, Hcc. cbn [exec bind sv set_s svar_eqb].
  eexists. split; [reflexivity|]. cbn [snd]. apply sampleP_zero_totals.
Qed.

Lemma sampleLoop_empty_macro shd u st k : forall i last_P,
  VolumeShader.CALC_TOTAL_WAVEFUNC shd = [] ->
  (VolumeShader.COMPLEX_COLOR shd =? 1)%Z = false ->
  exists P, Fragment.sampleLoop shd u st k i (V3 0 0 0) last_P = Some (V3 0 0 0, P).
Proof.
  induction k as [|k IH]; intros i last_P Hm Hcc.
  - exists last_P. reflexivity.
  - cbn [Fragment.sampleLoop].
    destruct (sample_empty_macro shd u st i (V3 0 0 0) Hm Hcc) as ([I P] & E & HP).
    assert (HI : I = V3 0 0 0).
    { apply (sample_dark shd u st i (V3 0 0 0) (I, P) Hcc); [cbn; lra | exact E | exact HP]. }
    rewrite E. cbn [bind fst snd]. rewrite HI. apply IH; assumption.
Qed.

Lemma filter_nil_length {A : Type} (f : A -> bool) (l : list A) :
  (forall a, In a l -> f a = false) -> filter f l = [].
Proof.
  induction l as [|a l IH]; intros H; [reflexivity|].
  cbn [filter]. rewrite (H a) by (left; reflexivity).
  apply IH. intros b Hb. apply H. right. exact Hb.
Qed.

(** X14: samples with P = 0 are transparent, and a macro without waves
    gives a dark image.  When COMPLEX_COLOR is not 1, a pass of the loop
    whose P is zero (in particular cut off by CUTOFF) returns the
    non-negative intensity it was given, absorption included.  When
    every wave has amplitude <= 0.001 the macro is empty, every pass has
    P = 0, and the fragment colour is the dither alone, for every sample
    count and every camera ray. *)
Theorem zero_probability_samples_are_transparent :
  (forall shd u st i intensity out,
     (VolumeShader.COMPLEX_COLOR shd =? 1)%Z = false ->
     0 <= vx intensity /\ 0 <= vy intensity /\ 0 <= vz intensity ->
     Fragment.sample shd u st i intensity = Some out ->
     snd out = 0 ->
     fst out = intensity)
  /\ (forall laguerre sphericalHarmonics sample_count absorption cutoff waves shd
             u v_pos v_normal v_uv st0,
        createVolumeShader laguerre sphericalHarmonics sample_count false
          absorption cutoff waves = Some shd ->
        (forall w, In w waves -> skipped w = true) ->
        Fragment.normalize v_normal <> None ->
        let noise :=
          Fragment.rand (fst v_uv * Fragment.u_time u) (snd v_uv * Fragment.u_time u)
          * (15 / 1000) in
        VolumeShader.CALC_TOTAL_WAVEFUNC shd = []
        /\ Fragment.main shd u v_pos v_normal v_uv st0 = Some (V3 noise noise noise)).
Proof.
  split; [exact sample_dark|].
  intros laguerre sphericalHarmonics sc ab cu waves shd u v_pos v_normal v_uv st0
         Hshd Hsk Hn noise.
  destruct (createVolumeShader_some laguerre sphericalHarmonics _ _ _ _ _ _ Hshd)
    as (frags & Hc & _ & ->).
  pose proof (compileWaves_length _ _ _ _ Hc) as Hlen.
  assert (Hm : calcTotalWavefunc 0 (combine waves frags) = []).
  { destruct (calcTotalWavefunc_shape (combine waves frags) 0) as [Hl _].
    rewrite map_fst_combine in Hl by exact Hlen.
    unfold emittedWaves in Hl. rewrite filter_nil_length in Hl.
    - destruct (calcTotalWavefunc 0 (combine waves frags)); [reflexivity | discriminate].
    - intros w Hw. rewrite (Hsk w Hw). reflexivity. }
  cbn [VolumeShader.CALC_TOTAL_WAVEFUNC].
  split; [exact Hm|].
  set (shd := VolumeShader.mk _ _ _ _ _).
  assert (Hm' : VolumeShader.CALC_TOTAL_WAVEFUNC shd = []) by exact Hm.
  assert (Hcc' : (VolumeShader.COMPLEX_COLOR shd =? 1)%Z = false) by reflexivity.
  unfold Fragment.main.
  destruct (Fragment.normalize v_normal) as [n|]; [|exfalso; apply Hn; reflexivity].
  cbn [bind].
  destruct (sampleLoop_empty_macro shd u
              (set_v (set_v st0 Vv_pos v_pos) Vn n)
              (Z.to_nat (VolumeShader.SAMPLE_COUNT shd)) 0%Z 0 Hm' Hcc') as [P E].
  rewrite E. cbn [bind fst]. fold noise. unfold vadd. cbn [vx vy vz].
  rewrite Rplus_0_l. reflexivity.
Qed.

End FragmentFacts.

Lemma zero_probability_samples_are_transparent_witness :
  exists shd,
    createVolumeShader Math.laguerre Math.sphericalHarmonics 40 false 0 0
      [Wave.mk 0 0 1 0 0 0 0] = Some shd
    /\ VolumeShader.CALC_TOTAL_WAVEFUNC shd = [].
Proof.
  destruct (createVolumeShader Math.laguerre Math.sphericalHarmonics 40 false 0 0
              [Wave.mk 0 0 1 0 0 0 0]) as [shd|] eqn:H.
  - exists shd. split; [reflexivity|].
    refine (proj1 (proj2 zero_probability_samples_are_transparent
                     Math.laguerre Math.sphericalHarmonics 40%Z 0%Q 0%Q
                     [Wave.mk 0 0 1 0 0 0 0] shd
                     (Fragment.mkUniforms 0 0 4 (V3 1 1 1)) (V3 0 0 2) (V3 0 0 (-1))
                     (0, 0) unitXState H _ _)).
    + intros w [<- | []]. reflexivity.
    + unfold Fragment.normalize, Glsl.dot. cbn [vx vy vz].
      replace (0 * 0 + 0 * 0 + -1 * -1) with 1 by ring. rewrite sqrt_1.
      destruct (Req_dec_T 1 0); [lra | discriminate].
  - exfalso. unfold createVolumeShader in H. cbn [List.length Nat.eqb] in H.
    cbn [compileWaves Wave.n Wave.l Wave.m Wave.phase] in H.
    assert (Hd : hydrogenWaveFuncStr Math.laguerre Math.sphericalHarmonics
                   (Util.to_int 1) (Util.to_int 0) (Util.to_int 0) (Q2R 0) <> None).
    { apply hydrogenWaveFuncStr_defined. vm_compute. repeat split; discriminate. }
    destruct (hydrogenWaveFuncStr Math.laguerre Math.sphericalHarmonics
                (Util.to_int 1) (Util.to_int 0) (Util.to_int 0) (Q2R 0));
      [discriminate | apply Hd; reflexivity].
Defined.

(* ================================================================= *)
(** ** Reading and writing through slider pointers *)

Section PointerFacts.

Local Open Scope Q_scope.

Lemma field_eq_dec (f g : field) : {f = g} + {f <> g}.
Proof. decide equality; apply Nat.eq_dec. Qed.

Lemma length_waveUpd upd i ws : List.length (waveUpd upd i ws) = List.length ws.
Proof.
  revert i. induction ws as [|w ws IH]; intros [|i]; cbn; try reflexivity.
  rewrite IH. reflexivity.
Qed.

Lemma nth_waveUpd_same upd i ws :
  (i < List.length ws)%nat ->
  nth i (waveUpd upd i ws) Wave.zero = upd (nth i ws Wave.zero).
Proof.
  revert i. induction ws as [|w ws IH]; intros [|i] H; cbn in *; try lia.
  - reflexivity.
  - apply IH. lia.
Qed.

Lemma nth_waveUpd_gen (proj : Wave.t -> Q) upd i j ws :
  (i <> j \/ forall w, proj (upd w) = proj w) ->
  proj (nth j (waveUpd upd i ws) Wave.zero) = proj (nth j ws Wave.zero).
Proof.
  revert i j. induction ws as [|w ws IH]; intros [|i] [|j] H; cbn; try reflexivity.
  - destruct H as [H|H]; [congruence | apply H].
  - apply IH. destruct H as [H|H]; [left; congruence | right; exact H].
Qed.

Lemma getField_setField_same f v p :
  fieldValid f p = true -> getField f (setField f v p) = v.
Proof.
  destruct f; cbn [fieldValid]; intros H; try reflexivity;
    apply Nat.ltb_lt in H;
    unfold getField, setField, waveGet, waveSet;
    cbn [Program.waves Program.set_waves];
    rewrite nth_waveUpd_same by exact H; reflexivity.
Qed.

Lemma getField_setField_other f g v p :
  f <> g -> getField f (setField g v p) = getField f p.
Proof.
  intros H.
  destruct f, g; try reflexivity; try (exfalso; apply H; reflexivity);
    unfold getField, setField, waveGet, waveSet;
    cbn [Program.waves Program.set_waves];
    apply nth_waveUpd_gen;
    first [ right; intros w; reflexivity
          | left; intros E; apply H; rewrite E; reflexivity ].
Qed.

Lemma setField_sliders f v p : Program.sliders (setField f v p) = Program.sliders p.
Proof. destruct f; reflexivity. Qed.

Lemma setField_rot f v p :
  Program.rot (setField f v p) = Program.rot p
  /\ Program.prev_delta (setField f v p) = Program.prev_delta p
  /\ Program.fbo (setField f v p) = Program.fbo p.
Proof. destruct f; repeat split. Qed.

Lemma setField_waves_length f v p :
  List.length (Program.waves (setField f v p)) = List.length (Program.waves p).
Proof.
  destruct f; try reflexivity; unfold setField, waveSet;
    cbn [Program.waves Program.set_waves]; apply length_waveUpd.
Qed.

Lemma fieldValid_length f p q :
  List.length (Program.waves p) = List.length (Program.waves q) ->
  fieldValid f p = fieldValid f q.
Proof. intros H. destruct f; cbn [fieldValid]; rewrite ?H; reflexivity. Qed.

Lemma sameSettings_refl p : sameSettings p p.
Proof. unfold sameSettings. repeat split. Qed.

Lemma sameSettings_trans p q r : sameSettings p q -> sameSettings q r -> sameSettings p r.
Proof.
  unfold sameSettings. intros H1 H2.
  repeat match goal with H : _ /\ _ |- _ => destruct H end.
  repeat split; congruence.
Qed.

Lemma sameSettings_getField f p q : sameSettings p q -> getField f p = getField f q.
Proof.
  unfold sameSettings. intros H.
  repeat match goal with H : _ /\ _ |- _ => destruct H end.
  destruct f; cbn [getField]; unfold waveGet; congruence.
Qed.

Lemma sameSettings_fieldValid f p q : sameSettings p q -> fieldValid f p = fieldValid f q.
Proof.
  intros H. apply fieldValid_length.
  unfold sameSettings in H.
  repeat match goal with H : _ /\ _ |- _ => destruct H end. congruence.
Qed.

Lemma sameSettings_sliders p q : sameSettings p q -> Program.sliders p = Program.sliders q.
Proof. unfold sameSettings. intros H. tauto. Qed.

Lemma sameSettings_waves p q : sameSettings p q -> Program.waves p = Program.waves q.
Proof. unfold sameSettings. intros H. tauto. Qed.

Lemma sameSettings_set_glCalls p c : sameSettings (Program.set_glCalls p c) p.
Proof. unfold sameSettings. repeat split. Qed.

Lemma sameSettings_rotate env p : sameSettings (rotate env p) p.
Proof.
  unfold rotate. destruct (Program.prev_delta p) as [px py].
  destruct (Env.cursorDelta env) as [dx dy].
  cbn [Program.rot Program.set_prev_delta]. destruct (Program.rot p) as [rx ry].
  unfold sameSettings. repeat split.
Qed.

Lemma sameSettings_adjustFbo env p : sameSettings (adjustFbo env p) p.
Proof.
  unfold adjustFbo. cbv zeta.
  destruct (_ || _); [|apply sameSettings_refl].
  unfold sameSettings. repeat split.
Qed.

Lemma getField_advanceClocks f env p :
  getField f (advanceClocks env p)
  = match f with FPhase => Program.phase p + Env.dt env | _ => getField f p end.
Proof. destruct f; reflexivity. Qed.

End PointerFacts.

(* ================================================================= *)
(** ** The slider loop and the tail of frame *)

Section FrameFacts.

Variable laguerre : Z -> Z -> nat -> R.
Variable sphericalHarmonics : Z -> Z -> nat -> R.

Local Open Scope Q_scope.

Lemma recreateShader_some p p' :
  recreateShader laguerre sphericalHarmonics p = Some p' ->
  exists shd,
    createVolumeShader laguerre sphericalHarmonics
      (Util.to_int (Program.sampleCount p)) (Util.to_bool (Program.complexColor p))
      (Program.absorption p) (Program.cutoff p) (Program.waves p) = Some shd
    /\ p' = Program.set_glCalls (Program.set_shader p shd)
              (CreateVolumeShader shd :: Program.glCalls p).
Proof.
  unfold recreateShader. intros H.
  destruct (createVolumeShader _ _ _ _ _ _ _) as [shd|]; [|discriminate].
  injection H as <-. exists shd. split; reflexivity.
Qed.

Lemma sameSettings_recreateShader p p' :
  recreateShader laguerre sphericalHarmonics p = Some p' -> sameSettings p' p.
Proof.
  intros H. apply recreateShader_some in H. destruct H as (shd & _ & ->).
  unfold sameSettings. repeat split.
Qed.

(** [slider_activity] after the loop: set as soon as one row is under
    the anchor position. *)
Lemma sliderLoop_activity env ss : forall i prog act hov p a h,
  sliderLoop laguerre sphericalHarmonics env i ss prog act hov = Some (p, a, h) ->
  a = act || existsb (inside env) (seq i (List.length ss)).
Proof.
  induction ss as [|s ss IH]; intros i prog act hov p a h H.
  - cbn in H. injection H as _ <- _. cbn. rewrite orb_false_r. reflexivity.
  - cbn [sliderLoop] in H.
    destruct (sliderStep laguerre sphericalHarmonics env i s prog act hov)
      as [[[p1 a1] h1]|] eqn:E; [|discriminate].
    apply IH in H. cbn [List.length seq existsb].
    assert (Ha : a1 = act || inside env i).
    { unfold sliderStep in E. fold (inside env i) in E.
      destruct (inside env i).
      - rewrite orb_true_r.
        destruct (Env.lmbDown env).
        + destruct (negb _ && Slider.recompile s).
          * destruct (recreateShader _ _ _); [|discriminate].
            injection E as _ <- _. reflexivity.
          * injection E as _ <- _. reflexivity.
        + cbn in E. injection E as _ <- _. reflexivity.
      - injection E as _ <- _. rewrite orb_false_r. reflexivity. }
    rewrite H, Ha, orb_assoc. reflexivity.
Qed.

Lemma existsb_inside_false env i n :
  (forall k, (k < n)%nat -> inside env (i + k) = false) ->
  existsb (inside env) (seq i n) = false.
Proof.
  revert i. induction n as [|n IH]; intros i H; [reflexivity|].
  cbn [seq existsb]. rewrite <- (Nat.add_0_r i) at 1. rewrite H by lia.
  cbn [orb]. apply IH. intros k Hk. rewrite Nat.add_succ_comm. apply H. lia.
Qed.

Lemma existsb_inside_true env i n k :
  (k < n)%nat -> inside env (i + k) = true ->
  existsb (inside env) (seq i n) = true.
Proof.
  intros Hk Hin. apply existsb_exists. exists (i + k)%nat. split; [|exact Hin].
  apply in_seq. lia.
Qed.

(** [frame] when no slider row is under the anchor position. *)
Lemma frame_outside env prog :
  (forall k, (k < List.length (Program.sliders prog))%nat -> inside env k = false) ->
  frame laguerre sphericalHarmonics env prog
  = Some (adjustFbo env (if Env.lmbDown env
                         then rotate env (advanceClocks env prog)
                         else advanceClocks env prog)).
Proof.
  intros Hout. rewrite frame_unfold.
  destruct (sliderLoop_outside laguerre sphericalHarmonics env (Program.sliders prog)
              0 (advanceClocks env prog) false [] Hout) as [Hp _].
  destruct (sliderLoop _ _ env 0 _ _ false []) as [[[p a] h]|] eqn:E; [|discriminate].
  injection Hp as ->.
  apply sliderLoop_activity in E.
  rewrite existsb_inside_false in E by exact Hout. cbn in E. subst a.
  rewrite andb_true_r. reflexivity.
Qed.

(** [frame] when row [k] is under the anchor position: slider [k] alone
    is stepped, and the camera is left alone. *)
Lemma frame_inside env prog k s :
  nth_error (Program.sliders prog) k = Some s ->
  inside env k = true ->
  frame laguerre sphericalHarmonics env prog
  = option_map (adjustFbo env)
      (progOf (sliderStep laguerre sphericalHarmonics env k s
                 (advanceClocks env prog) false [])).
Proof.
  intros Hk Hin. rewrite frame_unfold.
  destruct (sliderLoop_inside laguerre sphericalHarmonics env (Program.sliders prog)
              0 (advanceClocks env prog) false [] k s Hk Hin) as [Hp _].
  cbn [Nat.add] in Hp. rewrite <- Hp.
  destruct (sliderLoop _ _ env 0 _ _ false []) as [[[p a] h]|] eqn:E; [|reflexivity].
  apply sliderLoop_activity in E.
  rewrite (existsb_inside_true env 0 _ k) in E.
  - cbn in E. subst a. rewrite andb_false_r. reflexivity.
  - apply nth_error_Some. rewrite Hk. discriminate.
  - exact Hin.
Qed.

(** The step of the slider under the pointer. *)
Lemma sliderStep_edit env k s p act hov :
  inside env k = true ->
  progOf (sliderStep laguerre sphericalHarmonics env k s p act hov)
  = if Env.lmbDown env then
      let new_value := Slider.coordToValue s (fst (Env.cursorPos env)) in
      let p1 := setField (Slider.value s) new_value p in
      if negb (Qeq_bool new_value (getField (Slider.value s) p)) && Slider.recompile s
      then recreateShader laguerre sphericalHarmonics
             (Program.set_glCalls p1 (DestroyGlShaderProgram :: Program.glCalls p1))
      else Some p1
    else Some p.
Proof.
  intros Hin. unfold sliderStep. fold (inside env k). rewrite Hin.
  destruct (Env.lmbDown env); [|reflexivity].
  cbv zeta. destruct (negb _ && Slider.recompile s); [|reflexivity].
  destruct (recreateShader _ _ _); reflexivity.
Qed.

(** Whatever [frame] does, the settings other than the one field a
    dragged slider writes are those of the program with its clocks
    advanced. *)
Lemma frame_settings env prog prog' :
  frame laguerre sphericalHarmonics env prog = Some prog' ->
  sameSettings prog' (advanceClocks env prog)
  \/ (Env.lmbDown env = true
      /\ exists k s,
           nth_error (Program.sliders prog) k = Some s /\ inside env k = true
           /\ sameSettings prog'
                (setField (Slider.value s)
                   (Slider.coordToValue s (fst (Env.cursorPos env)))
                   (advanceClocks env prog))).
Proof.
  intros H.
  destruct (inside_cases env (Program.sliders prog) 0) as [Hout | (k & s & Hk & Hin)].
  - left. rewrite frame_outside in H by exact Hout. injection H as <-.
    eapply sameSettings_trans; [apply sameSettings_adjustFbo|].
    destruct (Env.lmbDown env); [apply sameSettings_rotate | apply sameSettings_refl].
  - cbn [Nat.add] in Hin. rewrite (frame_inside env prog k s Hk Hin) in H.
    rewrite sliderStep_edit in H by exact Hin.
    destruct (Env.lmbDown env) eqn:Hdown.
    + right. split; [reflexivity|]. exists k, s. split; [exact Hk|]. split; [exact Hin|].
      cbv zeta in H.
      destruct (negb _ && Slider.recompile s).
      * destruct (recreateShader _ _ _) as [p2|] eqn:E; [|discriminate].
        cbn [option_map] in H. injection H as <-.
        eapply sameSettings_trans; [apply sameSettings_adjustFbo|].
        eapply sameSettings_trans; [apply (sameSettings_recreateShader _ _ E)|].
        apply sameSettings_set_glCalls.
      * cbn [option_map] in H. injection H as <-. apply sameSettings_adjustFbo.
    + left. cbn [option_map] in H. injection H as <-. apply sameSettings_adjustFbo.
Qed.

End FrameFacts.

(* ================================================================= *)
(** ** frame: button up, dragging, camera and framebuffer *)

Section FrameRules.

Variable laguerre : Z -> Z -> nat -> R.
Variable sphericalHarmonics : Z -> Z -> nat -> R.

Local Open Scope Q_scope.

(** The slider loop touches neither the framebuffer nor the camera. *)
Lemma sliderStep_statics env i s prog act hov p a h :
  sliderStep laguerre sphericalHarmonics env i s prog act hov = Some (p, a, h) ->
  Program.fbo p = Program.fbo prog /\ Program.rot p = Program.rot prog
  /\ Program.prev_delta p = Program.prev_delta prog.
Proof.
  unfold sliderStep.
  destruct (Slider.pointInside _ _ _).
  - destruct (Env.lmbDown env).
    + cbv zeta.
      pose proof (setField_rot (Slider.value s)
                    (Slider.coordToValue s (fst (Env.cursorPos env))) prog)
        as (R1 & R2 & R3).
      destruct (negb _ && Slider.recompile s).
      * destruct (recreateShader _ _ _) as [p2|] eqn:E; [|discriminate].
        apply recreateShader_some in E. destruct E as (shd & _ & ->).
        intros H. injection H as <- _ _. cbn. rewrite R1, R2, R3. repeat split.
      * intros H. injection H as <- _ _. rewrite R1, R2, R3. repeat split.
    + cbn. intros H. injection H as <- _ _. repeat split.
  - intros H. injection H as <- _ _. repeat split.
Qed.

Lemma sliderLoop_statics env ss : forall i prog act hov p a h,
  sliderLoop laguerre sphericalHarmonics env i ss prog act hov = Some (p, a, h) ->
  Program.fbo p = Program.fbo prog /\ Program.rot p = Program.rot prog
  /\ Program.prev_delta p = Program.prev_delta prog.
Proof.
  induction ss as [|s ss IH]; intros i prog act hov p a h H.
  - cbn in H. injection H as <- _ _. repeat split.
  - cbn [sliderLoop] in H.
    destruct (sliderStep laguerre sphericalHarmonics env i s prog act hov)
      as [[[p1 a1] h1]|] eqn:E; [|discriminate].
    apply sliderStep_statics in E. apply IH in H.
    destruct E as (E1 & E2 & E3), H as (H1 & H2 & H3).
    repeat split; congruence.
Qed.

Lemma adjustFbo_statics env p :
  Program.rot (adjustFbo env p) = Program.rot p
  /\ Program.prev_delta (adjustFbo env p) = Program.prev_delta p.
Proof. unfold adjustFbo. cbv zeta. destruct (_ || _); split; reflexivity. Qed.

Lemma rotate_fbo env p : Program.fbo (rotate env p) = Program.fbo p.
Proof.
  unfold rotate. destruct (Program.prev_delta p) as [px py].
  destruct (Env.cursorDelta env) as [dx dy].
  cbn [Program.rot Program.set_prev_delta]. destruct (Program.rot p) as [rx ry].
  reflexivity.
Qed.

(** X17: a frame with the button up only advances the two clocks and
    re-checks the framebuffer.  It cannot fail, it writes no slider
    value, leaves the shader and the camera alone, and equals
    [adjustFbo] applied to the program with [time] and [phase] advanced
    by the frame time, wherever the pointer is. *)
Theorem frame_with_button_up (env : Env.t) (prog : Program.t) :
  Env.lmbDown env = false ->
  frame laguerre sphericalHarmonics env prog
  = Some (adjustFbo env (advanceClocks env prog))
  /\ (forall prog',
        frame laguerre sphericalHarmonics env prog = Some prog' ->
        Program.shader prog' = Program.shader prog
        /\ Program.rot prog' = Program.rot prog
        /\ Program.waves prog' = Program.waves prog
        /\ forall f, getField f prog'
                     = match f with
                       | FPhase => Program.phase prog + Env.dt env
                       | _ => getField f prog
                       end).
Proof.
  intros Hup.
  assert (E : frame laguerre sphericalHarmonics env prog
              = Some (adjustFbo env (advanceClocks env prog))).
  { rewrite frame_unfold.
    destruct (sliderLoop_button_up laguerre sphericalHarmonics env
                (Program.sliders prog) Hup 0%nat (advanceClocks env prog) false [])
      as (a & h & ->).
    rewrite Hup. reflexivity. }
  split; [exact E|].
  intros prog' H. rewrite E in H. injection H as <-.
  pose proof (sameSettings_adjustFbo env (advanceClocks env prog)) as Hs.
  destruct (adjustFbo_keeps env (advanceClocks env prog)) as (_ & _ & Hsh & _).
  destruct (adjustFbo_statics env (advanceClocks env prog)) as (Hr & _).
  split; [rewrite Hsh; reflexivity|]. split; [rewrite Hr; reflexivity|].
  split; [rewrite (sameSettings_waves _ _ Hs); reflexivity|].
  intros f. rewrite (sameSettings_getField f _ _ Hs). apply getField_advanceClocks.
Qed.

(** A successful frame in which slider [k] is dragged. *)
Lemma frame_drag env prog prog' k s :
  frame laguerre sphericalHarmonics env prog = Some prog' ->
  Env.lmbDown env = true ->
  nth_error (Program.sliders prog) k = Some s ->
  inside env k = true ->
  sameSettings prog'
    (setField (Slider.value s) (Slider.coordToValue s (fst (Env.cursorPos env)))
       (advanceClocks env prog))
  /\ Program.rot prog' = Program.rot prog
  /\ Program.prev_delta prog' = Program.prev_delta prog.
Proof.
  intros H Hdown Hk Hin.
  rewrite (frame_inside laguerre sphericalHarmonics env prog k s Hk Hin) in H.
  destruct (sliderStep laguerre sphericalHarmonics env k s (advanceClocks env prog)
              false []) as [[[p2 a2] h2]|] eqn:E; [|discriminate].
  cbn [progOf option_map fst] in H. injection H as <-.
  pose proof (sliderStep_statics _ _ _ _ _ _ _ _ _ E) as (_ & R2 & R3).
  destruct (adjustFbo_statics env p2) as (A1 & A2).
  split; [|split; [rewrite A1, R2; reflexivity | rewrite A2, R3; reflexivity]].
  eapply sameSettings_trans; [apply sameSettings_adjustFbo|].
  assert (Ep : progOf (sliderStep laguerre sphericalHarmonics env k s
                         (advanceClocks env prog) false []) = Some p2)
    by (rewrite E; reflexivity).
  rewrite sliderStep_edit in Ep by exact Hin. rewrite Hdown in Ep. cbv zeta in Ep.
  destruct (negb _ && Slider.recompile s).
  - eapply sameSettings_trans;
      [apply (sameSettings_recreateShader laguerre sphericalHarmonics _ _ Ep)|].
    apply sameSettings_set_glCalls.
  - injection Ep as <-. apply sameSettings_refl.
Qed.

(** X18: dragging writes exactly one field.  When the button is down
    and row k is under the anchor position, a successful frame stores
    [coordToValue] of the cursor's x in the field slider k points to;
    every other field is as after advancing the clocks, the slider list
    is unchanged and the camera does not move. *)
Theorem dragged_slider_writes_its_field (env : Env.t) (prog prog' : Program.t)
    (k : nat) (s : Slider.t) :
  frame laguerre sphericalHarmonics env prog = Some prog' ->
  Env.lmbDown env = true ->
  nth_error (Program.sliders prog) k = Some s ->
  inside env k = true ->
  fieldValid (Slider.value s) prog = true ->
  getField (Slider.value s) prog' = Slider.coordToValue s (fst (Env.cursorPos env))
  /\ (forall f, f <> Slider.value s ->
        getField f prog'
        = match f with
          | FPhase => Program.phase prog + Env.dt env
          | _ => getField f prog
          end)
  /\ Program.sliders prog' = Program.sliders prog
  /\ Program.rot prog' = Program.rot prog
  /\ Program.prev_delta prog' = Program.prev_delta prog.
Proof.
  intros H Hdown Hk Hin Hv.
  destruct (frame_drag env prog prog' k s H Hdown Hk Hin) as (Hs & Hr & Hp).
  assert (Hv' : fieldValid (Slider.value s) (advanceClocks env prog) = true)
    by (rewrite <- Hv; apply fieldValid_length; reflexivity).
  split; [|split; [|split; [|split]]].
  - rewrite (sameSettings_getField _ _ _ Hs). apply getField_setField_same. exact Hv'.
  - intros f Hf. rewrite (sameSettings_getField _ _ _ Hs).
    rewrite getField_setField_other by exact Hf. apply getField_advanceClocks.
  - rewrite (sameSettings_sliders _ _ Hs), setField_sliders. reflexivity.
  - exact Hr.
  - exact Hp.
Qed.

Lemma rotate_result env p :
  let sd := (fst (Program.prev_delta p) * (1 # 2) + fst (Env.cursorDelta env) * (1 # 2),
             snd (Program.prev_delta p) * (1 # 2) + snd (Env.cursorDelta env) * (1 # 2)) in
  Program.prev_delta (rotate env p) = sd
  /\ Program.rot (rotate env p)
     = (fst (Program.rot p) + fst sd * 2,
        Util.CLAMP (snd (Program.rot p) + snd sd * 2) (- tau / 4) (tau / 4)).
Proof.
  unfold rotate. destruct (Program.prev_delta p) as [px py].
  destruct (Env.cursorDelta env) as [dx dy].
  cbn [Program.rot Program.set_prev_delta]. destruct (Program.rot p) as [rx ry].
  cbn [fst snd]. split; reflexivity.
Qed.

(** X19: the camera turns only when the button is down and no slider
    row is under the anchor position.  Then the pointer delta is
    averaged with the previous one, twice the average is added to the
    two angles, and the second angle is clamped to a quarter turn either
    way.  In every other successful frame both statics keep their
    values; so the second angle, once within a quarter turn, stays
    there. *)
Theorem camera_turns_only_off_the_panel (env : Env.t) (prog prog' : Program.t) :
  frame laguerre sphericalHarmonics env prog = Some prog' ->
  ((Env.lmbDown env = false
    \/ exists k, (k < List.length (Program.sliders prog))%nat /\ inside env k = true) ->
   Program.rot prog' = Program.rot prog
   /\ Program.prev_delta prog' = Program.prev_delta prog)
  /\ (Env.lmbDown env = true ->
      (forall k, (k < List.length (Program.sliders prog))%nat -> inside env k = false) ->
      let sd :=
        (fst (Program.prev_delta prog) * (1 # 2) + fst (Env.cursorDelta env) * (1 # 2),
         snd (Program.prev_delta prog) * (1 # 2) + snd (Env.cursorDelta env) * (1 # 2)) in
      Program.prev_delta prog' = sd
      /\ Program.rot prog'
         = (fst (Program.rot prog) + fst sd * 2,
            Util.CLAMP (snd (Program.rot prog) + snd sd * 2) (- tau / 4) (tau / 4)))
  /\ (- tau / 4 <= snd (Program.rot prog) <= tau / 4 ->
      - tau / 4 <= snd (Program.rot prog') <= tau / 4).
Proof.
  intros H.
  assert (Hcases :
    (Program.rot prog' = Program.rot prog
     /\ Program.prev_delta prog' = Program.prev_delta prog
     /\ (Env.lmbDown env = false
         \/ exists k, (k < List.length (Program.sliders prog))%nat
                      /\ inside env k = true))
    \/ (Program.rot prog' = Program.rot (rotate env (advanceClocks env prog))
        /\ Program.prev_delta prog'
           = Program.prev_delta (rotate env (advanceClocks env prog))
        /\ Env.lmbDown env = true
        /\ forall k, (k < List.length (Program.sliders prog))%nat ->
                     inside env k = false)).
  { destruct (inside_cases env (Program.sliders prog) 0) as [Hout | (k & s & Hk & Hin)].
    - rewrite frame_outside in H by exact Hout. injection H as <-.
      destruct (Env.lmbDown env) eqn:Hdown.
      + right. destruct (adjustFbo_statics env (rotate env (advanceClocks env prog)))
          as [A1 A2].
        repeat split; assumption.
      + left. destruct (adjustFbo_statics env (advanceClocks env prog)) as [A1 A2].
        split; [exact A1|]. split; [exact A2|]. left. reflexivity.
    - left. cbn [Nat.add] in Hin.
      assert (Hlen : (k < List.length (Program.sliders prog))%nat)
        by (apply nth_error_Some; rewrite Hk; discriminate).
      rewrite (frame_inside laguerre sphericalHarmonics env prog k s Hk Hin) in H.
      destruct (sliderStep laguerre sphericalHarmonics env k s (advanceClocks env prog)
                  false []) as [[[p2 a2] h2]|] eqn:E; [|discriminate].
      cbn [progOf option_map fst] in H. injection H as <-.
      pose proof (sliderStep_statics _ _ _ _ _ _ _ _ _ E) as (_ & R2 & R3).
      destruct (adjustFbo_statics env p2) as (A1 & A2).
      split; [rewrite A1, R2; reflexivity|].
      split; [rewrite A2, R3; reflexivity|].
      right. exists k. split; assumption. }
  split; [|split].
  - intros Hno. destruct Hcases as [(R1 & R2 & _) | (_ & _ & Hdown & Hout)].
    + split; assumption.
    + exfalso. destruct Hno as [Hup | (k & Hk & Hin)]; [congruence|].
      rewrite (Hout k Hk) in Hin. discriminate.
  - intros Hdown Hout sd.
    destruct Hcases as [(_ & _ & [Hup | (k & Hk & Hin)]) | (R1 & R2 & _)].
    + congruence.
    + rewrite (Hout k Hk) in Hin. discriminate.
    + destruct (rotate_result env (advanceClocks env prog)) as [P1 P2].
      rewrite R1, R2. split; [exact P1 | exact P2].
  - intros Hrange. destruct Hcases as [(R1 & _) | (R1 & _)].
    + rewrite R1. exact Hrange.
    + destruct (rotate_result env (advanceClocks env prog)) as [_ P2].
      rewrite R1, P2. cbn [snd]. apply CLAMP_bounds.
      unfold tau. apply Qle_bool_iff. reflexivity.
Qed.

Lemma adjustFbo_result env p :
  Program.fbo (adjustFbo env p)
  = VolumeFbo.mk (scaleReso (Env.winSize env) (Program.resoMul p))
                 (negb (Qle_bool (Program.filtering p) (5 # 10)))
  /\ ((Program.fbo p
       = VolumeFbo.mk (scaleReso (Env.winSize env) (Program.resoMul p))
                      (negb (Qle_bool (Program.filtering p) (5 # 10)))
       /\ adjustFbo env p = p)
      \/ (Program.fbo p
          <> VolumeFbo.mk (scaleReso (Env.winSize env) (Program.resoMul p))
                          (negb (Qle_bool (Program.filtering p) (5 # 10)))
          /\ Program.glCalls (adjustFbo env p)
             = CreateFbo (scaleReso (Env.winSize env) (Program.resoMul p))
                         (negb (Qle_bool (Program.filtering p) (5 # 10)))
               :: DestroyFbo :: Program.glCalls p)).
Proof.
  unfold adjustFbo. cbv zeta.
  set (reso := scaleReso (Env.winSize env) (Program.resoMul p)).
  set (flt := negb (Qle_bool (Program.filtering p) (5 # 10))).
  destruct (Program.fbo p) as [[rx ry] cf] eqn:Ef.
  cbn [VolumeFbo.reso VolumeFbo.filtering fst snd].
  destruct (Z.eqb_spec (fst reso) rx) as [E1|E1];
    destruct (Z.eqb_spec (snd reso) ry) as [E2|E2];
    (destruct (Bool.eqb flt cf) eqn:E3;
       [apply eqb_prop in E3 | apply eqb_false_iff in E3]); cbn [andb negb orb].
  1:{ assert (E : VolumeFbo.mk (rx, ry) cf = VolumeFbo.mk reso flt).
      { destruct reso as [a b]. cbn [fst snd] in E1, E2. subst. reflexivity. }
      split; [rewrite Ef; exact E|]. left. split; [exact E | reflexivity]. }
  all: split; [reflexivity|]; right; split; [|reflexivity];
    intros E;
    assert (Er : reso = (rx, ry)) by congruence;
    assert (Ec : flt = cf) by congruence;
    first [ exact (E3 Ec)
          | apply E1; rewrite Er; reflexivity
          | apply E2; rewrite Er; reflexivity ].
Qed.

(** The GL calls of a successful frame: those of the slider loop, then
    those of the framebuffer check. *)
Lemma frame_decompose env prog prog' :
  frame laguerre sphericalHarmonics env prog = Some prog' ->
  exists q,
    prog' = adjustFbo env q
    /\ Program.fbo q = Program.fbo prog
    /\ Program.glCalls q
       = (if recompileTriggered env (advanceClocks env prog) 0 (Program.sliders prog)
          then [CreateVolumeShader (Program.shader q); DestroyGlShaderProgram]
          else []) ++ Program.glCalls prog.
Proof.
  rewrite frame_unfold. intros H.
  pose proof (sliderLoop_summary laguerre sphericalHarmonics env
                (advanceClocks env prog) (Program.sliders prog)) as Hs.
  cbv zeta in Hs.
  destruct (sliderLoop _ _ env 0 _ _ false []) as [[[p a] h]|] eqn:E; [|discriminate].
  injection H as <-.
  destruct Hs as (G & _).
  pose proof (sliderLoop_statics _ _ _ _ _ _ _ _ _ E) as (F & _).
  exists (if Env.lmbDown env && negb a then rotate env p else p).
  split; [reflexivity|].
  destruct (Env.lmbDown env && negb a).
  - destruct (rotate_keeps env p) as (K1 & K2 & _).
    rewrite rotate_fbo, K1, K2. split; [exact F | exact G].
  - split; [exact F | exact G].
Qed.



End FrameRules.

(* ================================================================= *)
(** ** Float comparison and the arguments of createVolumeShader *)

Section ValueFacts.

Local Open Scope Q_scope.

Lemma to_int_floor v :
  Util.to_int v = if Qle_bool 0 v then Qfloor v else (- Qfloor (- v))%Z.
Proof.
  destruct v as [n d]. unfold Util.to_int, Qle_bool, Qfloor, Qopp.
  cbn [Qnum Qden]. rewrite Z.mul_1_r. cbn [Z.mul].
  destruct (Z.leb_spec 0 n) as [Hn|Hn].
  - apply Z.quot_div_nonneg; lia.
  - rewrite <- (Z.opp_involutive n) at 1.
    rewrite Z.quot_opp_l by lia.
    rewrite Z.quot_div_nonneg by lia. reflexivity.
Qed.

Lemma Qle_bool_comp_r a v w : v == w -> Qle_bool a v = Qle_bool a w.
Proof.
  intros E. destruct (Qle_bool a v) eqn:H1, (Qle_bool a w) eqn:H2; try reflexivity.
  - apply Qle_bool_iff in H1. rewrite E in H1. apply Qle_bool_iff in H1. congruence.
  - apply Qle_bool_iff in H2. rewrite <- E in H2. apply Qle_bool_iff in H2. congruence.
Qed.

Lemma Qle_bool_comp_l a v w : v == w -> Qle_bool v a = Qle_bool w a.
Proof.
  intros E. destruct (Qle_bool v a) eqn:H1, (Qle_bool w a) eqn:H2; try reflexivity.
  - apply Qle_bool_iff in H1. rewrite E in H1. apply Qle_bool_iff in H1. congruence.
  - apply Qle_bool_iff in H2. rewrite <- E in H2. apply Qle_bool_iff in H2. congruence.
Qed.

Lemma to_int_comp v w : v == w -> Util.to_int v = Util.to_int w.
Proof.
  intros E. rewrite !to_int_floor, (Qle_bool_comp_r 0 v w E).
  rewrite (Qfloor_comp v w E).
  assert (E' : - v == - w) by (rewrite E; reflexivity).
  rewrite (Qfloor_comp _ _ E'). reflexivity.
Qed.

Lemma to_bool_comp v w : v == w -> Util.to_bool v = Util.to_bool w.
Proof.
  intros E. unfold Util.to_bool. f_equal.
  destruct (Qeq_bool v 0) eqn:H1, (Qeq_bool w 0) eqn:H2; try reflexivity.
  - apply Qeq_bool_iff in H1. rewrite E in H1. apply Qeq_bool_iff in H1. congruence.
  - apply Qeq_bool_iff in H2. rewrite <- E in H2. apply Qeq_bool_iff in H2. congruence.
Qed.

Lemma to_int_bounds v :
  (0 <= v -> (0 <= Util.to_int v)%Z)
  /\ (1 <= v -> (1 <= Util.to_int v)%Z)
  /\ (forall k : Z, (0 <= k)%Z -> v <= inject_Z k -> (Util.to_int v <= k)%Z).
Proof.
  rewrite to_int_floor. split; [|split].
  - intros H. rewrite (proj2 (Qle_bool_iff 0 v) H).
    change 0%Z with (Qfloor 0). apply Qfloor_resp_le. exact H.
  - intros H.
    assert (H0 : 0 <= v) by (eapply Qle_trans; [|exact H]; discriminate).
    rewrite (proj2 (Qle_bool_iff 0 v) H0).
    change 1%Z with (Qfloor 1). apply Qfloor_resp_le. exact H.
  - intros k Hk H. destruct (Qle_bool 0 v) eqn:E.
    + rewrite <- (Qfloor_Z k). apply Qfloor_resp_le. exact H.
    + assert (Hneg : ~ 0 <= v) by (intros C; apply Qle_bool_iff in C; congruence).
      apply Qnot_le_lt in Hneg.
      assert (H1 : 0 <= - v) by lra.
      pose proof (Qfloor_resp_le _ _ H1) as H2. change (Qfloor 0) with 0%Z in H2. lia.
Qed.

Lemma waveEq_refl w : waveEq w w.
Proof. unfold waveEq. repeat split; reflexivity. Qed.

Lemma waveUpd_waveEq upd i ws :
  (forall w, nth_error ws i = Some w -> waveEq (upd w) w) ->
  Forall2 waveEq (waveUpd upd i ws) ws.
Proof.
  revert i. induction ws as [|w ws IH]; intros [|i] H; cbn [waveUpd].
  - constructor.
  - constructor.
  - constructor; [apply H; reflexivity|].
    clear. induction ws; constructor; [apply waveEq_refl | assumption].
  - constructor; [apply waveEq_refl|]. apply IH. intros w' Hw'. apply H. exact Hw'.
Qed.

Lemma In_waveUpd upd i ws w' :
  In w' (waveUpd upd i ws) ->
  In w' ws \/ exists w, nth_error ws i = Some w /\ w' = upd w.
Proof.
  revert i. induction ws as [|w ws IH]; intros [|i] H; cbn [waveUpd] in H.
  - destruct H.
  - destruct H.
  - destruct H as [<- | H]; [right; exists w; split; reflexivity | left; right; exact H].
  - destruct H as [<- | H]; [left; left; reflexivity|].
    destruct (IH i H) as [Hin | (w0 & Hn & ->)].
    + left. right. exact Hin.
    + right. exists w0. split; [exact Hn | reflexivity].
Qed.

Lemma waveUpd_nil_iff upd i ws : waveUpd upd i ws = [] <-> ws = [].
Proof.
  split.
  - intros H. apply (f_equal (@List.length _)) in H. rewrite length_waveUpd in H.
    destruct ws; [reflexivity | discriminate].
  - intros ->. destruct i; reflexivity.
Qed.

Lemma NoDup_map_In_inj {A B : Type} (f : A -> B) (l : list A) x y :
  NoDup (map f l) -> In x l -> In y l -> f x = f y -> x = y.
Proof.
  induction l as [|a l IH]; intros Hnd Hx Hy E; [destruct Hx|].
  cbn [map] in Hnd. inversion Hnd as [|? ? Hnot Hnd']. subst.
  destruct Hx as [<- | Hx], Hy as [<- | Hy].
  - reflexivity.
  - exfalso. apply Hnot. rewrite E. apply in_map. exact Hy.
  - exfalso. apply Hnot. rewrite <- E. apply in_map. exact Hx.
  - apply IH; assumption.
Qed.

Lemma coordToValue_in_range (s : Slider.t) (x : Q) :
  boundsRoundInward s = true -> Slider.min s <= Slider.max s ->
  Slider.min s <= Slider.coordToValue s x <= Slider.max s.
Proof.
  intros Hb Hle.
  apply andb_prop in Hb. destruct Hb as [H1 H2].
  apply Qle_bool_iff in H1, H2.
  destruct (coordToValue_between_rounded_bounds s x Hle) as [G1 G2].
  split; [apply (Qle_trans _ _ _ H1 G1) | apply (Qle_trans _ _ _ G2 H2)].
Qed.

End ValueFacts.

Section ShaderArguments.

Variable laguerre : Z -> Z -> nat -> R.
Variable sphericalHarmonics : Z -> Z -> nat -> R.

Local Open Scope Q_scope.

Lemma compileWaves_waveEq ws ws' :
  Forall2 waveEq ws ws' ->
  compileWaves laguerre sphericalHarmonics ws
  = compileWaves laguerre sphericalHarmonics ws'.
Proof.
  induction 1 as [|w w' ws ws' Hw _ IH]; [reflexivity|].
  cbn [compileWaves]. destruct Hw as (_ & Hp & Hn & Hl & Hm & _).
  rewrite (to_int_comp _ _ Hn), (to_int_comp _ _ Hl), (to_int_comp _ _ Hm),
          (Qeq_eqR _ _ Hp), IH.
  reflexivity.
Qed.

Lemma calcTotalWavefunc_waveEq ws ws' :
  Forall2 waveEq ws ws' ->
  forall fs i,
    calcTotalWavefunc i (combine ws fs) = calcTotalWavefunc i (combine ws' fs).
Proof.
  induction 1 as [|w w' ws ws' Hw _ IH]; intros fs i; [reflexivity|].
  destruct fs as [|[amp ph] fs]; [reflexivity|].
  cbn [combine calcTotalWavefunc]. rewrite IH.
  destruct Hw as (Ha & _ & _ & _ & _ & Ht).
  unfold skipped. rewrite (Qle_bool_comp_l _ _ _ Ha).
  unfold waveStmts. rewrite (Qeq_eqR _ _ Ha), (Qeq_eqR _ _ Ht). reflexivity.
Qed.

Lemma createVolumeShader_comp sc cc ab ab' cu cu' ws ws' :
  ab == ab' -> cu == cu' -> Forall2 waveEq ws ws' ->
  createVolumeShader laguerre sphericalHarmonics sc cc ab cu ws
  = createVolumeShader laguerre sphericalHarmonics sc cc ab' cu' ws'.
Proof.
  intros Ha Hc Hw. unfold createVolumeShader.
  rewrite (Forall2_length Hw), (compileWaves_waveEq _ _ Hw).
  rewrite (Qeq_eqR _ _ Ha), (Qeq_eqR _ _ Hc).
  destruct (Nat.eqb _ 0); [reflexivity|].
  destruct (compileWaves _ _ ws'); [|reflexivity].
  rewrite (calcTotalWavefunc_waveEq _ _ Hw). reflexivity.
Qed.

Lemma Forall2_waveEq_refl ws : Forall2 waveEq ws ws.
Proof. induction ws; constructor; [apply waveEq_refl | assumption]. Qed.

Lemma requestedShader_sameSettings p q :
  sameSettings p q ->
  requestedShader laguerre sphericalHarmonics p
  = requestedShader laguerre sphericalHarmonics q.
Proof.
  unfold sameSettings, requestedShader. intros H.
  repeat match goal with H : _ /\ _ |- _ => destruct H end.
  congruence.
Qed.

(** Overwriting a field with a value that compares equal to the old one
    does not change what [createVolumeShader] would return. *)
Lemma requestedShader_setField_equal f v p :
  v == getField f p ->
  requestedShader laguerre sphericalHarmonics (setField f v p)
  = requestedShader laguerre sphericalHarmonics p.
Proof.
  intros E. unfold requestedShader.
  destruct f; cbn [getField] in E; try reflexivity;
    try (unfold setField, waveSet, waveGet in *;
         cbn [Program.sampleCount Program.complexColor Program.absorption
              Program.cutoff Program.waves Program.set_waves];
         apply createVolumeShader_comp; try reflexivity;
         apply waveUpd_waveEq; intros w Hw;
         rewrite (nth_error_nth _ _ Wave.zero Hw) in E;
         unfold waveEq; cbn [Wave.amplitude Wave.phase Wave.n Wave.l Wave.m
                             Wave.translation];
         repeat split; try reflexivity; exact E).
  - cbn [setField Program.sampleCount Program.set_sampleCount Program.complexColor
         Program.absorption Program.cutoff Program.waves].
    rewrite (to_int_comp _ _ E). reflexivity.
  - cbn [setField Program.sampleCount Program.set_complexColor Program.complexColor
         Program.absorption Program.cutoff Program.waves].
    rewrite (to_bool_comp _ _ E). reflexivity.
  - cbn [setField Program.sampleCount Program.set_absorption Program.complexColor
         Program.absorption Program.cutoff Program.waves].
    apply createVolumeShader_comp; [exact E | reflexivity | apply Forall2_waveEq_refl].
  - cbn [setField Program.sampleCount Program.set_cutoff Program.complexColor
         Program.absorption Program.cutoff Program.waves].
    apply createVolumeShader_comp; [reflexivity | exact E | apply Forall2_waveEq_refl].
Qed.

(** Writing a field that is no argument of [createVolumeShader]. *)
Lemma requestedShader_setField_other f v p :
  shaderInput f = false ->
  requestedShader laguerre sphericalHarmonics (setField f v p)
  = requestedShader laguerre sphericalHarmonics p.
Proof. destruct f; cbn [shaderInput]; intros H; try discriminate; reflexivity. Qed.

Lemma wavesCompile_requestedShader p :
  wavesCompile p -> requestedShader laguerre sphericalHarmonics p <> None.
Proof.
  intros [Hne Hall]. unfold requestedShader, createVolumeShader.
  destruct (Program.waves p) as [|w0 ws0] eqn:Ew; [exfalso; apply Hne; reflexivity|].
  cbn [List.length Nat.eqb].
  assert (Hc : compileWaves laguerre sphericalHarmonics (w0 :: ws0) <> None).
  { clear Hne Ew. generalize dependent (w0 :: ws0). intros ws.
    induction ws as [|w ws IH]; intros Hall; [discriminate|].
    cbn [compileWaves].
    destruct (Hall w (or_introl eq_refl)) as [[Hn1 Hn2] Hl].
    assert (Hd : hydrogenWaveFuncStr laguerre sphericalHarmonics
                   (Util.to_int (Wave.n w)) (Util.to_int (Wave.l w))
                   (Util.to_int (Wave.m w)) (Q2R (Wave.phase w)) <> None).
    { apply hydrogenWaveFuncStr_defined.
      destruct (to_int_bounds (Wave.n w)) as (_ & B1 & B2).
      destruct (to_int_bounds (Wave.l w)) as (B0 & _ & _).
      specialize (B1 Hn1). specialize (B2 29%Z ltac:(lia) Hn2). specialize (B0 Hl).
      pose proof (clamp_l_nonneg (Util.to_int (Wave.n w)) (Util.to_int (Wave.l w))
                    ltac:(lia) B0) as Hc.
      unfold maxHPolyTermCount. lia. }
    destruct (hydrogenWaveFuncStr _ _ _ _ _ _); [|exfalso; apply Hd; reflexivity].
    assert (Hrest : compileWaves laguerre sphericalHarmonics ws <> None).
    { apply IH. intros w' Hw'. apply Hall. right. exact Hw'. }
    destruct (compileWaves _ _ ws); [discriminate | exfalso; apply Hrest; reflexivity]. }
  destruct (compileWaves _ _ (w0 :: ws0)); [discriminate | exfalso; apply Hc; reflexivity].
Qed.

Lemma wavesCompile_sameSettings p q :
  sameSettings p q -> wavesCompile q -> wavesCompile p.
Proof.
  intros Hs [H1 H2]. unfold wavesCompile.
  rewrite (sameSettings_waves _ _ Hs). split; assumption.
Qed.

Lemma wavesCompile_setField f v p :
  wavesCompile p -> compilableValue f v -> wavesCompile (setField f v p).
Proof.
  intros [Hne Hall] Hv.
  destruct f; try (split; assumption);
    unfold wavesCompile, setField, waveSet;
    cbn [Program.waves Program.set_waves];
    (split; [rewrite waveUpd_nil_iff; exact Hne|]);
    intros w' Hw'; apply In_waveUpd in Hw';
    (destruct Hw' as [Hin | (w & Hn & ->)]; [apply Hall; exact Hin|]);
    apply nth_error_In in Hn; specialize (Hall w Hn);
    cbn [Wave.n Wave.l compilableValue] in *; tauto.
Qed.

End ShaderArguments.

(* ================================================================= *)
(** ** addWave and init *)

Section Setup.

Variable laguerre : Z -> Z -> nat -> R.
Variable sphericalHarmonics : Z -> Z -> nat -> R.

Local Open Scope Q_scope.

Lemma pushAll_spec {A : Type} (capacity : nat) (xs : list A) : forall arr,
  (List.length arr <= capacity)%nat ->
  pushAll capacity arr xs
  = if (List.length arr + List.length xs <=? capacity)%nat
    then Some (arr ++ xs) else None.
Proof.
  induction xs as [|x xs IH]; intros arr Hlen.
  - cbn [pushAll List.length]. rewrite Nat.add_0_r, app_nil_r.
    rewrite (proj2 (Nat.leb_le _ _) Hlen). reflexivity.
  - cbn [pushAll List.length]. unfold push.
    destruct (Nat.ltb_spec (List.length arr) capacity) as [Hlt|Hge].
    + rewrite IH by (rewrite length_app; cbn; lia).
      rewrite length_app. cbn [List.length].
      replace (List.length arr + 1 + List.length xs)%nat
        with (List.length arr + S (List.length xs))%nat by lia.
      rewrite <- app_assoc. reflexivity.
    + destruct (Nat.leb_spec (List.length arr + S (List.length xs)) capacity);
        [lia | reflexivity].
Qed.

(** [addWave], in closed form. *)
Lemma addWave_spec prog :
  (List.length (Program.sliders prog) <= Program_maxSliders)%nat ->
  addWave prog
  = if (List.length (Program.waves prog) <? Program_maxWaves)%nat
       && (List.length (Program.sliders prog) + 6 <=? Program_maxSliders)%nat
    then Some (Program.set_sliders
                 (Program.set_waves prog
                    (Program.waves prog
                     ++ [Wave.mk (if Nat.eqb (List.length (Program.waves prog)) 0
                                  then 1 else 0) 0 1 0 0 0 0]))
                 (Program.sliders prog
                  ++ waveSliders (List.length (Program.waves prog))))
    else None.
Proof.
  intros Hlen. unfold addWave, push. cbv zeta.
  cbn [Wave.phase Wave.n Wave.l Wave.m Wave.translation Wave.particle].
  destruct (Nat.ltb_spec (List.length (Program.waves prog)) Program_maxWaves)
    as [Hw|Hw]; cbn [andb]; [|reflexivity].
  cbn [Program.sliders Program.set_waves].
  rewrite pushAll_spec by exact Hlen.
  rewrite length_app. cbn [List.length waveSliders].
  replace (List.length (Program.waves prog) + 1 - 1)%nat
    with (List.length (Program.waves prog)) by lia.
  destruct (Nat.leb_spec (List.length (Program.sliders prog) + 6) Program_maxSliders);
    [|reflexivity].
  destruct (Nat.eqb (List.length (Program.waves prog)) 0); reflexivity.
Qed.

Lemma waveSliders_fields k s :
  In s (waveSliders k) ->
  In (Slider.value s)
     [FWaveAmplitude k; FWavePhase k; FWaveN k; FWaveL k; FWaveM k; FWaveTranslation k]
  /\ Slider.recompile s = true /\ shaderInput (Slider.value s) = true.
Proof.
  unfold waveSliders. intros H.
  repeat (destruct H as [<- | H];
          [cbn [Slider.value Slider.recompile shaderInput In];
           split; [tauto | split; reflexivity]|]).
  destruct H.
Qed.

Lemma waveSliders_NoDup k : NoDup (map Slider.value (waveSliders k)).
Proof.
  cbn [waveSliders map Slider.value].
  repeat (constructor; [cbn [In]; intros H; intuition discriminate|]).
  constructor.
Qed.

Lemma fieldValid_wave_index f p :
  In f [FWaveAmplitude (List.length (Program.waves p));
        FWavePhase (List.length (Program.waves p));
        FWaveN (List.length (Program.waves p));
        FWaveL (List.length (Program.waves p));
        FWaveM (List.length (Program.waves p));
        FWaveTranslation (List.length (Program.waves p))] ->
  fieldValid f p = false.
Proof.
  cbn [In]. intros H.
  repeat (destruct H as [<- | H]; [cbn [fieldValid]; apply Nat.ltb_irrefl|]).
  destruct H.
Qed.

(** X15: [addWave] appends one wave and six sliders bound to it.  It
    succeeds exactly when there is room for a wave (fewer than 2) and
    for six sliders (at most 26 so far).  The new wave has n = 1, all
    other members zero except the amplitude, which is 1 for the first
    wave and 0 for any later one.  The six sliders point to the new
    wave, which no older valid slider does, all carry the recompile
    flag, and all other sliders and waves keep their place. *)
Theorem addWave_appends_wave_and_sliders (prog : Program.t) :
  (List.length (Program.sliders prog) <= Program_maxSliders)%nat ->
  (addWave prog <> None
   <-> (List.length (Program.waves prog) < Program_maxWaves)%nat
       /\ (List.length (Program.sliders prog) + 6 <= Program_maxSliders)%nat)
  /\ (forall prog',
        addWave prog = Some prog' ->
        Program.waves prog'
        = Program.waves prog
          ++ [Wave.mk (if Nat.eqb (List.length (Program.waves prog)) 0 then 1 else 0)
                      0 1 0 0 0 0]
        /\ Program.sliders prog'
           = Program.sliders prog ++ waveSliders (List.length (Program.waves prog))
        /\ (forall s, In s (waveSliders (List.length (Program.waves prog))) ->
              fieldValid (Slider.value s) prog' = true
              /\ fieldValid (Slider.value s) prog = false
              /\ Slider.recompile s = true)
        /\ (slidersWellBound prog -> slidersWellBound prog')
        /\ (shaderInputsFlagged prog -> shaderInputsFlagged prog')).
Proof.
  intros Hlen. rewrite (addWave_spec prog Hlen).
  destruct (Nat.ltb_spec (List.length (Program.waves prog)) Program_maxWaves) as [Hw|Hw];
    destruct (Nat.leb_spec (List.length (Program.sliders prog) + 6) Program_maxSliders)
      as [Hs|Hs]; cbn [andb];
    (split; [split; [intros H; try (exfalso; apply H; reflexivity); split; assumption
                    | intros [H1 H2]; try lia; discriminate]|]);
    intros prog' H; try discriminate.
  injection H as <-.
  cbn [Program.waves Program.sliders Program.set_waves Program.set_sliders].
  split; [reflexivity|]. split; [reflexivity|].
  assert (Hnew : forall s, In s (waveSliders (List.length (Program.waves prog))) ->
            fieldValid (Slider.value s)
              (Program.set_sliders
                 (Program.set_waves prog
                    (Program.waves prog
                     ++ [Wave.mk (if Nat.eqb (List.length (Program.waves prog)) 0
                                  then 1 else 0) 0 1 0 0 0 0]))
                 (Program.sliders prog
                  ++ waveSliders (List.length (Program.waves prog)))) = true
            /\ fieldValid (Slider.value s) prog = false
            /\ Slider.recompile s = true).
  { intros s Hin. destruct (waveSliders_fields _ s Hin) as (Hf & Hr & _).
    split; [|split; [apply fieldValid_wave_index; exact Hf | exact Hr]].
    cbn [In] in Hf.
    repeat (destruct Hf as [<- | Hf];
            [cbn [fieldValid Program.waves Program.set_waves Program.set_sliders];
             rewrite length_app; cbn [List.length]; apply Nat.ltb_lt; lia|]).
    destruct Hf. }
  split; [exact Hnew|]. split.
  - intros [Hnd Hval]. split.
    + cbn [Program.sliders Program.set_sliders]. rewrite map_app.
      apply NoDup_app; [exact Hnd | apply waveSliders_NoDup|].
      intros f Hf1 Hf2.
      apply in_map_iff in Hf1. destruct Hf1 as (s1 & <- & Hs1).
      apply in_map_iff in Hf2. destruct Hf2 as (s2 & E & Hs2).
      destruct (Hnew s2 Hs2) as (_ & Hinv & _).
      rewrite E, (Hval s1 Hs1) in Hinv. discriminate.
    + cbn [Program.sliders Program.set_sliders]. intros s Hin.
      apply in_app_or in Hin. destruct Hin as [Hin|Hin].
      * specialize (Hval s Hin).
        destruct (Slider.value s); cbn [fieldValid] in *; try reflexivity;
          cbn [Program.waves Program.set_waves Program.set_sliders];
          rewrite length_app; cbn [List.length];
          apply Nat.ltb_lt in Hval; apply Nat.ltb_lt; lia.
      * apply Hnew. exact Hin.
  - intros Hfl s Hin Hsh. cbn [Program.sliders Program.set_sliders] in Hin.
    apply in_app_or in Hin. destruct Hin as [Hin|Hin].
    + apply Hfl; assumption.
    + apply (waveSliders_fields _ s Hin).
Qed.

End Setup.

Section InitFacts.

Variable laguerre : Z -> Z -> nat -> R.
Variable sphericalHarmonics : Z -> Z -> nat -> R.

Local Open Scope Q_scope.

(** The program that [init] returns, member by member. *)
Lemma init_exact env :
  exists amp ph,
    hydrogenWaveFuncStr laguerre sphericalHarmonics 1 0 0 (Q2R 0) = Some (amp, ph)
    /\ init laguerre sphericalHarmonics env
       = Some (initialProgram (Env.winSize env) amp ph).
Proof.
  destruct (hydrogenWaveFuncStr laguerre sphericalHarmonics 1 0 0 (Q2R 0))
    as [[amp ph]|] eqn:E.
  2:{ exfalso. revert E. apply hydrogenWaveFuncStr_defined.
      vm_compute. intuition discriminate. }
  exists amp, ph. split; [reflexivity|].
  unfold init. cbn -[recreateShader createFbo scaleReso Qle_bool].
  unfold recreateShader, createVolumeShader.
  cbn [Program.waves Program.sampleCount Program.complexColor Program.absorption
       Program.cutoff Program.set_sliders Program.set_waves List.length Nat.eqb
       compileWaves Wave.n Wave.l Wave.m Wave.phase].
  change (Util.to_int 1) with 1%Z. change (Util.to_int 0) with 0%Z.
  rewrite E. reflexivity.
Qed.

Lemma initialProgram_sliders ws amp ph s :
  In s (Program.sliders (initialProgram ws amp ph)) ->
  In s (default_sliders ++ waveSliders 0) \/ In s (default_sliders ++ waveSliders 1).
Proof.
  cbn [initialProgram Program.sliders]. intros H.
  rewrite app_assoc in H. apply in_app_or in H. destruct H as [H|H].
  - left. exact H.
  - right. apply in_or_app. right. exact H.
Qed.

Lemma initialProgram_invariant ws amp ph :
  hydrogenWaveFuncStr laguerre sphericalHarmonics 1 0 0 (Q2R 0) = Some (amp, ph) ->
  programInvariant laguerre sphericalHarmonics (initialProgram ws amp ph).
Proof.
  intros E. unfold programInvariant.
  split; [|split; [|split; [|split; [|split]]]].
  - split.
    + cbn [initialProgram Program.sliders default_sliders waveSliders app map
           Slider.value].
      repeat (constructor; [cbn [In]; intros H; intuition discriminate|]).
      constructor.
    + intros s Hin.
      assert (Hall : forallb (fun s => fieldValid (Slider.value s)
                                         (initialProgram ws amp ph))
                       (Program.sliders (initialProgram ws amp ph)) = true)
        by reflexivity.
      rewrite forallb_forall in Hall. apply Hall. exact Hin.
  - intros s Hin.
    assert (Hall : forallb (fun s => boundsRoundInward s
                                     && Qle_bool (Slider.min s) (Slider.max s))
                     (Program.sliders (initialProgram ws amp ph)) = true)
      by reflexivity.
    rewrite forallb_forall in Hall. specialize (Hall s Hin).
    apply andb_prop in Hall. destruct Hall as [H1 H2].
    split; [exact H1 | apply Qle_bool_iff; exact H2].
  - intros s Hin Hsh.
    assert (Hall : forallb (fun s => implb (shaderInput (Slider.value s))
                                           (Slider.recompile s))
                     (Program.sliders (initialProgram ws amp ph)) = true)
      by reflexivity.
    rewrite forallb_forall in Hall. specialize (Hall s Hin).
    rewrite Hsh in Hall. exact Hall.
  - intros s Hin.
    cbn [initialProgram Program.sliders default_sliders waveSliders app In] in Hin.
    repeat (destruct Hin as [<- | Hin];
            [cbn [Slider.value Slider.min Slider.max];
             try exact I; try (split; discriminate); discriminate|]).
    destruct Hin.
  - split; [discriminate|].
    cbn [initialProgram Program.waves In]. intros w [<- | [<- | []]];
      cbn [firstWave secondWave Wave.n Wave.l]; repeat split; discriminate.
  - unfold shaderInSync, requestedShader, createVolumeShader.
    cbn [initialProgram Program.waves Program.sampleCount Program.complexColor
         Program.absorption Program.cutoff Program.shader List.length Nat.eqb
         compileWaves firstWave secondWave Wave.n Wave.l Wave.m Wave.phase].
    change (Util.to_int 1) with 1%Z. change (Util.to_int 0) with 0%Z.
    rewrite E. reflexivity.
Qed.

Lemma initialProgram_valuesInRange ws amp ph :
  valuesInRange (initialProgram ws amp ph).
Proof.
  intros s Hin.
  assert (Hall : forallb (fun s =>
                    Qle_bool (Slider.min s)
                             (getField (Slider.value s) (initialProgram ws amp ph))
                    && Qle_bool (getField (Slider.value s) (initialProgram ws amp ph))
                                (Slider.max s))
                   (Program.sliders (initialProgram ws amp ph)) = true)
    by reflexivity.
  rewrite forallb_forall in Hall. specialize (Hall s Hin).
  apply andb_prop in Hall. destruct Hall as [H1 H2].
  apply Qle_bool_iff in H1, H2. split; [exact H1 | intros _; exact H2].
Qed.

End InitFacts.

(* ================================================================= *)
(** ** Invariants of the frame loop *)

Section FrameInvariants.

Variable laguerre : Z -> Z -> nat -> R.
Variable sphericalHarmonics : Z -> Z -> nat -> R.

Local Open Scope Q_scope.

Lemma frame_sliders_waves env prog prog' :
  frame laguerre sphericalHarmonics env prog = Some prog' ->
  Program.sliders prog' = Program.sliders prog
  /\ List.length (Program.waves prog') = List.length (Program.waves prog).
Proof.
  intros H.
  destruct (frame_settings laguerre sphericalHarmonics env prog prog' H)
    as [Hs | (_ & k & s & _ & _ & Hs)].
  - rewrite (sameSettings_sliders _ _ Hs), (sameSettings_waves _ _ Hs).
    split; reflexivity.
  - rewrite (sameSettings_sliders _ _ Hs), (sameSettings_waves _ _ Hs).
    rewrite setField_sliders, setField_waves_length. split; reflexivity.
Qed.

Lemma recreateShader_requested p :
  recreateShader laguerre sphericalHarmonics p
  = match requestedShader laguerre sphericalHarmonics p with
    | None => None
    | Some shd =>
        Some (Program.set_glCalls (Program.set_shader p shd)
                (CreateVolumeShader shd :: Program.glCalls p))
    end.
Proof. reflexivity. Qed.

(** The value a slider computes keeps the waves compilable. *)
Lemma slider_value_compilable prog s x :
  slidersRoundInward prog -> quantumSlidersSafe prog ->
  In s (Program.sliders prog) ->
  compilableValue (Slider.value s) (Slider.coordToValue s x).
Proof.
  intros Hri Hq Hin.
  destruct (Hri s Hin) as [Hb Hle].
  pose proof (coordToValue_in_range s x Hb Hle) as [H1 H2].
  specialize (Hq s Hin).
  destruct (Slider.value s); cbn [compilableValue]; try exact I.
  - destruct Hq as [Q1 Q2]. split; eapply Qle_trans; eassumption.
  - eapply Qle_trans; eassumption.
Qed.

(** No assertion fires in a frame of a program whose waves compile and
    whose sliders keep them compilable. *)
Lemma frame_total env prog :
  slidersRoundInward prog -> quantumSlidersSafe prog -> wavesCompile prog ->
  exists prog', frame laguerre sphericalHarmonics env prog = Some prog'.
Proof.
  intros Hri Hq Hw.
  destruct (inside_cases env (Program.sliders prog) 0) as [Hout | (k & s & Hk & Hin)].
  - rewrite frame_outside by exact Hout. eauto.
  - cbn [Nat.add] in Hin.
    rewrite (frame_inside laguerre sphericalHarmonics env prog k s Hk Hin).
    rewrite sliderStep_edit by exact Hin.
    destruct (Env.lmbDown env); [|cbn; eauto].
    cbv zeta. destruct (negb _ && Slider.recompile s); [|cbn; eauto].
    rewrite recreateShader_requested.
    set (p1 := setField (Slider.value s)
                 (Slider.coordToValue s (fst (Env.cursorPos env)))
                 (advanceClocks env prog)).
    assert (Hc : wavesCompile p1).
    { apply wavesCompile_setField; [exact Hw|].
      apply (slider_value_compilable prog); try assumption.
      apply (nth_error_In _ _ Hk). }
    pose proof (wavesCompile_requestedShader laguerre sphericalHarmonics p1 Hc) as Hne.
    change (requestedShader laguerre sphericalHarmonics
              (Program.set_glCalls p1 (DestroyGlShaderProgram :: Program.glCalls p1)))
      with (requestedShader laguerre sphericalHarmonics p1).
    destruct (requestedShader laguerre sphericalHarmonics p1);
      [cbn; eauto | exfalso; apply Hne; reflexivity].
Qed.

Lemma frame_shader env prog prog' :
  frame laguerre sphericalHarmonics env prog = Some prog' ->
  shaderInputsFlagged prog ->
  shaderInSync laguerre sphericalHarmonics prog ->
  shaderInSync laguerre sphericalHarmonics prog'.
Proof.
  intros H Hfl Hsync. unfold shaderInSync in *.
  assert (Hclock : requestedShader laguerre sphericalHarmonics (advanceClocks env prog)
                   = requestedShader laguerre sphericalHarmonics prog) by reflexivity.
  destruct (inside_cases env (Program.sliders prog) 0) as [Hout | (k & s & Hk & Hin)].
  - rewrite frame_outside in H by exact Hout. injection H as <-.
    destruct (frame_tail_keeps env (Env.lmbDown env) (advanceClocks env prog))
      as (_ & _ & Hsh & _).
    cbv zeta in Hsh. rewrite Hsh.
    rewrite (requestedShader_sameSettings laguerre sphericalHarmonics _
               (advanceClocks env prog)).
    + rewrite Hclock. exact Hsync.
    + eapply sameSettings_trans; [apply sameSettings_adjustFbo|].
      destruct (Env.lmbDown env); [apply sameSettings_rotate | apply sameSettings_refl].
  - cbn [Nat.add] in Hin.
    rewrite (frame_inside laguerre sphericalHarmonics env prog k s Hk Hin) in H.
    rewrite sliderStep_edit in H by exact Hin.
    assert (Hadj : forall p2,
              requestedShader laguerre sphericalHarmonics p2 = Some (Program.shader p2) ->
              requestedShader laguerre sphericalHarmonics (adjustFbo env p2)
              = Some (Program.shader (adjustFbo env p2))).
    { intros p2 H2. destruct (adjustFbo_keeps env p2) as (_ & _ & Hsh & _).
      rewrite Hsh, <- H2.
      apply requestedShader_sameSettings, sameSettings_adjustFbo. }
    destruct (Env.lmbDown env).
    + cbv zeta in H.
      set (nv := Slider.coordToValue s (fst (Env.cursorPos env))) in *.
      set (p0 := advanceClocks env prog) in *.
      destruct (negb (Qeq_bool nv (getField (Slider.value s) p0))
                && Slider.recompile s) eqn:Ec.
      * rewrite recreateShader_requested in H.
        change (requestedShader laguerre sphericalHarmonics
                  (Program.set_glCalls (setField (Slider.value s) nv p0)
                     (DestroyGlShaderProgram
                      :: Program.glCalls (setField (Slider.value s) nv p0))))
          with (requestedShader laguerre sphericalHarmonics
                  (setField (Slider.value s) nv p0)) in H.
        destruct (requestedShader laguerre sphericalHarmonics
                    (setField (Slider.value s) nv p0)) as [shd|] eqn:Er;
          [|discriminate].
        cbn [option_map] in H. injection H as <-. apply Hadj.
        cbn [Program.shader Program.set_glCalls Program.set_shader].
        rewrite <- Er. reflexivity.
      * cbn [option_map] in H. injection H as <-. apply Hadj.
        rewrite setField_shader.
        change (Program.shader p0) with (Program.shader prog). rewrite <- Hsync, <- Hclock.
        fold p0.
        apply andb_false_iff in Ec. destruct Ec as [Ec|Ec].
        -- apply negb_false_iff, Qeq_bool_iff in Ec.
           apply requestedShader_setField_equal. exact Ec.
        -- apply requestedShader_setField_other.
           destruct (shaderInput (Slider.value s)) eqn:Esh; [|reflexivity].
           rewrite (Hfl s (nth_error_In _ _ Hk) Esh) in Ec. discriminate.
    + cbn [option_map] in H. injection H as <-. apply Hadj.
      change (Program.shader (advanceClocks env prog)) with (Program.shader prog).
      rewrite Hclock. exact Hsync.
Qed.

Lemma frame_wavesCompile env prog prog' :
  frame laguerre sphericalHarmonics env prog = Some prog' ->
  slidersRoundInward prog -> quantumSlidersSafe prog -> wavesCompile prog ->
  wavesCompile prog'.
Proof.
  intros H Hri Hq Hw.
  destruct (frame_settings laguerre sphericalHarmonics env prog prog' H)
    as [Hs | (_ & k & s & Hk & _ & Hs)].
  - apply (wavesCompile_sameSettings _ _ Hs). exact Hw.
  - apply (wavesCompile_sameSettings _ _ Hs).
    apply wavesCompile_setField; [exact Hw|].
    apply (slider_value_compilable prog); try assumption.
    apply (nth_error_In _ _ Hk).
Qed.

Lemma frame_invariant env prog prog' :
  frame laguerre sphericalHarmonics env prog = Some prog' ->
  programInvariant laguerre sphericalHarmonics prog ->
  programInvariant laguerre sphericalHarmonics prog'.
Proof.
  intros H (Hwb & Hri & Hfl & Hq & Hw & Hsync).
  destruct (frame_sliders_waves env prog prog' H) as [Hss Hlen].
  unfold programInvariant, slidersWellBound, slidersRoundInward,
         shaderInputsFlagged, quantumSlidersSafe.
  rewrite Hss.
  split; [|split; [|split; [|split; [|split]]]].
  - destruct Hwb as [Hnd Hval]. split; [exact Hnd|].
    intros s Hin. rewrite (fieldValid_length _ prog' prog Hlen). apply Hval. exact Hin.
  - exact Hri.
  - exact Hfl.
  - exact Hq.
  - apply (frame_wavesCompile env prog prog' H); assumption.
  - apply (frame_shader env prog prog' H); assumption.
Qed.

Lemma frames_invariant envs : forall prog prog',
  frames laguerre sphericalHarmonics envs prog = Some prog' ->
  programInvariant laguerre sphericalHarmonics prog ->
  programInvariant laguerre sphericalHarmonics prog'.
Proof.
  induction envs as [|env envs IH]; intros prog prog' H Hinv.
  - cbn in H. injection H as <-. exact Hinv.
  - cbn [frames] in H.
    destruct (frame laguerre sphericalHarmonics env prog) as [p1|] eqn:E; [|discriminate].
    apply (IH p1 prog' H). apply (frame_invariant env prog p1 E Hinv).
Qed.

Lemma frames_total envs : forall prog,
  programInvariant laguerre sphericalHarmonics prog ->
  exists prog', frames laguerre sphericalHarmonics envs prog = Some prog'.
Proof.
  induction envs as [|env envs IH]; intros prog Hinv.
  - exists prog. reflexivity.
  - destruct Hinv as (Hwb & Hri & Hfl & Hq & Hw & Hsync).
    destruct (frame_total env prog Hri Hq Hw) as [p1 E].
    cbn [frames]. rewrite E. apply IH.
    apply (frame_invariant env prog p1 E).
    exact (conj Hwb (conj Hri (conj Hfl (conj Hq (conj Hw Hsync))))).
Qed.

Lemma frame_valuesInRange env prog prog' :
  frame laguerre sphericalHarmonics env prog = Some prog' ->
  slidersWellBound prog -> slidersRoundInward prog ->
  0 <= Env.dt env ->
  valuesInRange prog -> valuesInRange prog'.
Proof.
  intros H [Hnd Hval] Hri Hdt Hin.
  destruct (frame_sliders_waves env prog prog' H) as [Hss _].
  assert (Hclock : forall s, In s (Program.sliders prog) ->
            Slider.min s <= getField (Slider.value s) (advanceClocks env prog)
            /\ (Slider.value s <> FPhase ->
                getField (Slider.value s) (advanceClocks env prog) <= Slider.max s)).
  { intros s Hs. destruct (Hin s Hs) as [H1 H2].
    rewrite getField_advanceClocks.
    destruct (Slider.value s) eqn:Ef; try (split; [exact H1 | exact H2]).
    cbn [getField] in H1. split; [lra | intros C; exfalso; apply C; reflexivity]. }
  unfold valuesInRange. rewrite Hss. intros s Hs.
  destruct (frame_settings laguerre sphericalHarmonics env prog prog' H)
    as [Hset | (_ & k & sk & Hk & _ & Hset)];
    rewrite (sameSettings_getField _ _ _ Hset).
  - apply Hclock. exact Hs.
  - pose proof (nth_error_In _ _ Hk) as Hsk.
    destruct (field_eq_dec (Slider.value s) (Slider.value sk)) as [E|E].
    + assert (Es : s = sk) by (apply (NoDup_map_In_inj _ _ _ _ Hnd Hs Hsk E)).
      subst sk. rewrite getField_setField_same
        by (rewrite <- (Hval s Hs); apply fieldValid_length; reflexivity).
      destruct (Hri s Hs) as [Hb Hle].
      pose proof (coordToValue_in_range s (fst (Env.cursorPos env)) Hb Hle) as [C1 C2].
      split; [exact C1 | intros _; exact C2].
    + rewrite getField_setField_other by exact E. apply Hclock. exact Hs.
Qed.

End FrameInvariants.

(* ================================================================= *)
(** ** The whole run: init, frames, quit *)

Section WholeRun.

Variable laguerre : Z -> Z -> nat -> R.
Variable sphericalHarmonics : Z -> Z -> nat -> R.

Local Open Scope Q_scope.

(** X16: [init] always runs through, and its result is the same for
    every environment up to the framebuffer size.  No capacity is
    exceeded and no assertion fires, whatever the coefficient routines
    write; the program has 23 sliders and two waves with n = 1,
    amplitudes 1 and 0; the macro of the first shader consists of the
    ten statements of wave 0 alone; and the invariant of the frame loop
    holds, with every slider value inside its range. *)
Theorem init_builds_the_initial_program (env : Env.t) :
  exists amp ph,
    hydrogenWaveFuncStr laguerre sphericalHarmonics 1 0 0 (Q2R 0) = Some (amp, ph)
    /\ init laguerre sphericalHarmonics env
       = Some (initialProgram (Env.winSize env) amp ph)
    /\ List.length (Program.sliders (initialProgram (Env.winSize env) amp ph)) = 23%nat
    /\ Program.waves (initialProgram (Env.winSize env) amp ph)
       = [Wave.mk 1 0 1 0 0 0 0; Wave.mk 0 0 1 0 0 0 0]
    /\ VolumeShader.CALC_TOTAL_WAVEFUNC
         (Program.shader (initialProgram (Env.winSize env) amp ph))
       = waveStmts 0 (Wave.mk 1 0 1 0 0 0 0) amp ph
    /\ programInvariant laguerre sphericalHarmonics
         (initialProgram (Env.winSize env) amp ph)
    /\ valuesInRange (initialProgram (Env.winSize env) amp ph).
Proof.
  destruct (init_exact laguerre sphericalHarmonics env) as (amp & ph & E & Hi).
  exists amp, ph.
  split; [exact E|]. split; [exact Hi|].
  split; [reflexivity|]. split; [reflexivity|]. split; [reflexivity|].
  split; [apply initialProgram_invariant; exact E | apply initialProgram_valuesInRange].
Qed.

(** X21: the shader always reflects the settings.  If every slider
    bound to an argument of [createVolumeShader] carries the recompile
    flag, a successful frame maintains that [prog.shader] is the shader
    [createVolumeShader] returns for the current sample count, colour
    mode, absorption, cutoff and waves: [frame] skips the recompilation
    only when the written value compares equal to the old one or the
    field is no argument.  [init] establishes this, so it holds after
    any number of frames. *)
Theorem shader_follows_settings :
  (forall env prog prog',
     frame laguerre sphericalHarmonics env prog = Some prog' ->
     shaderInputsFlagged prog ->
     shaderInSync laguerre sphericalHarmonics prog ->
     shaderInSync laguerre sphericalHarmonics prog')
  /\ (forall env0 envs p0 p,
        init laguerre sphericalHarmonics env0 = Some p0 ->
        frames laguerre sphericalHarmonics envs p0 = Some p ->
        shaderInputsFlagged p /\ shaderInSync laguerre sphericalHarmonics p).
Proof.
  split.
  - intros env prog prog' H Hfl Hs. apply (frame_shader laguerre sphericalHarmonics env prog prog' H Hfl Hs).
  - intros env0 envs p0 p Hi Hf.
    destruct (init_exact laguerre sphericalHarmonics env0) as (amp & ph & E & Hi').
    rewrite Hi' in Hi. injection Hi as <-.
    pose proof (initialProgram_invariant laguerre sphericalHarmonics
                  (Env.winSize env0) amp ph E) as Hinv.
    pose proof (frames_invariant laguerre sphericalHarmonics envs _ _ Hf Hinv) as (_ & _ & Hfl & _ & _ & Hs).
    split; assumption.
Qed.

(** X22: holding the pointer still recompiles at most once.  After a
    successful frame, a second frame with the same environment finds
    the dragged slider's field already equal to the value it computes:
    it triggers no recompilation, cannot fail, and leaves the shader as
    it is.  (Sliders with the recompile flag must point into the
    program and not to the clock [prog.phase], which moves between
    frames.) *)
Theorem steady_pointer_recompiles_once (env : Env.t) (prog p1 : Program.t) :
  frame laguerre sphericalHarmonics env prog = Some p1 ->
  (forall s, In s (Program.sliders prog) -> Slider.recompile s = true ->
             Slider.value s <> FPhase /\ fieldValid (Slider.value s) prog = true) ->
  recompileTriggered env (advanceClocks env p1) 0 (Program.sliders p1) = false
  /\ exists p2,
       frame laguerre sphericalHarmonics env p1 = Some p2
       /\ Program.shader p2 = Program.shader p1
       /\ countCreate (Program.glCalls p2) = countCreate (Program.glCalls p1)
       /\ countDestroy (Program.glCalls p2) = countDestroy (Program.glCalls p1).
Proof.
  intros H Hflag.
  destruct (frame_sliders_waves laguerre sphericalHarmonics env prog p1 H) as [Hss _].
  assert (Htrig : recompileTriggered env (advanceClocks env p1) 0 (Program.sliders p1)
                  = false).
  { destruct (recompileTriggered env (advanceClocks env p1) 0 (Program.sliders p1))
      eqn:Et; [|reflexivity].
    exfalso. apply (recompileTriggered_iff laguerre sphericalHarmonics) in Et.
    destruct Et as (Hdown & i & s & Hi & Hin & Hrec & Hne).
    rewrite Hss in Hi.
    destruct (Hflag s (nth_error_In _ _ Hi) Hrec) as [Hph Hval].
    destruct (frame_drag laguerre sphericalHarmonics env prog p1 i s H Hdown Hi Hin) as (Hset & _).
    apply Hne. rewrite getField_advanceClocks.
    assert (E : getField (Slider.value s) p1
                = Slider.coordToValue s (fst (Env.cursorPos env))).
    { rewrite (sameSettings_getField _ _ _ Hset). apply getField_setField_same.
      rewrite <- Hval. apply fieldValid_length. reflexivity. }
    rewrite <- E. clear E Hval Hset Hne.
    destruct (Slider.value s); try reflexivity.
    exfalso. apply Hph. reflexivity. }
  split; [exact Htrig|].
  rewrite frame_unfold.
  pose proof (sliderLoop_summary laguerre sphericalHarmonics env
                (advanceClocks env p1) (Program.sliders p1)) as Hs.
  cbv zeta in Hs. rewrite Htrig in Hs.
  destruct (sliderLoop _ _ env 0 _ _ false []) as [[[p a] h]|]; [|discriminate].
  destruct Hs as (G & Hsh & _).
  eexists. split; [reflexivity|].
  destruct (frame_tail_keeps env (Env.lmbDown env && negb a) p) as (F1 & F2 & F3 & _).
  cbv zeta in F1, F2, F3. rewrite F1, F2, F3, G, (Hsh eq_refl).
  repeat split.
Qed.

Lemma frames_valuesInRange envs : forall prog prog',
  frames laguerre sphericalHarmonics envs prog = Some prog' ->
  (forall env, In env envs -> 0 <= Env.dt env) ->
  programInvariant laguerre sphericalHarmonics prog ->
  valuesInRange prog -> valuesInRange prog'.
Proof.
  induction envs as [|env envs IH]; intros prog prog' H Hdt Hinv Hr.
  - cbn in H. injection H as <-. exact Hr.
  - cbn [frames] in H.
    destruct (frame laguerre sphericalHarmonics env prog) as [p1|] eqn:E; [|discriminate].
    apply (IH p1 prog' H).
    + intros e He. apply Hdt. right. exact He.
    + apply (frame_invariant laguerre sphericalHarmonics env prog p1 E Hinv).
    + destruct Hinv as (Hwb & Hri & _).
      apply (frame_valuesInRange laguerre sphericalHarmonics env prog p1 E Hwb Hri); [|exact Hr].
      apply Hdt. left. reflexivity.
Qed.

Lemma fraction_in_unit_interval s cur :
  Slider.min s < Slider.max s -> Slider.min s <= cur ->
  0 <= Slider.fraction s cur <= 1.
Proof.
  intros Hlt Hc. unfold Slider.fraction. cbv zeta.
  set (f := (cur - Slider.min s) / (Slider.max s - Slider.min s)).
  assert (Hf : 0 <= f).
  { unfold f. apply Qle_shift_div_l; lra. }
  destruct (Qlt_le_dec f 1) as [H|H]; split; try lra; apply Qlt_le_weak; exact H.
Qed.

(** X23: the slider bars never leave the panel.  A successful frame
    with a non-negative frame time keeps every bound value at or above
    its slider's min (and, for every field but the clock, at or below
    its max), provided the sliders point to distinct fields and their
    bounds round inward.  Hence after [init] and any number of such
    frames the width of every slider bar is between 0 and
    [sliderWidth], so the rectangle drawn for slider i lies inside row i
    of the panel background. *)
Theorem slider_bars_stay_inside_the_panel :
  (forall env prog prog',
     frame laguerre sphericalHarmonics env prog = Some prog' ->
     slidersWellBound prog -> slidersRoundInward prog ->
     0 <= Env.dt env ->
     valuesInRange prog -> valuesInRange prog')
  /\ (forall env0 envs p0 p i s,
        init laguerre sphericalHarmonics env0 = Some p0 ->
        frames laguerre sphericalHarmonics envs p0 = Some p ->
        (forall env, In env envs -> 0 <= Env.dt env) ->
        nth_error (Program.sliders p) i = Some s ->
        valuesInRange p
        /\ 0 <= Slider.fraction s (getField (Slider.value s) p) <= 1
        /\ fst (fst (sliderBar i s p)) = - (1)
        /\ - (1) <= fst (snd (sliderBar i s p)) <= Slider.sliderWidth - 1
        /\ snd (fst (sliderBar i s p)) = Slider.bottom i
        /\ snd (snd (sliderBar i s p)) = Slider.top i
        /\ snd (fst (panelBackground (List.length (Program.sliders p))))
           <= Slider.bottom i).
Proof.
  split.
  - intros env prog prog' H Hwb Hri Hdt Hr.
    apply (frame_valuesInRange laguerre sphericalHarmonics env prog prog' H Hwb Hri Hdt Hr).
  - intros env0 envs p0 p i s Hi Hf Hdt Hn.
    destruct (init_exact laguerre sphericalHarmonics env0) as (amp & ph & E & Hi').
    rewrite Hi' in Hi. injection Hi as <-.
    pose proof (initialProgram_invariant laguerre sphericalHarmonics
                  (Env.winSize env0) amp ph E) as Hinv.
    pose proof (frames_valuesInRange envs _ _ Hf Hdt Hinv
                  (initialProgram_valuesInRange (Env.winSize env0) amp ph)) as Hr.
    assert (Hss : Program.sliders p
                  = Program.sliders (initialProgram (Env.winSize env0) amp ph)).
    { clear - Hf. revert Hf. generalize (initialProgram (Env.winSize env0) amp ph).
      induction envs as [|env envs IH]; intros q Hf.
      - cbn in Hf. injection Hf as <-. reflexivity.
      - cbn [frames] in Hf.
        destruct (frame laguerre sphericalHarmonics env q) as [q1|] eqn:Eq;
          [|discriminate].
        rewrite (IH q1 Hf). apply (frame_sliders_waves laguerre sphericalHarmonics env q q1 Eq). }
    pose proof (nth_error_In _ _ Hn) as Hin.
    assert (Hlt : Slider.min s < Slider.max s).
    { rewrite Hss in Hin.
      assert (Hall : forallb (fun s => negb (Qle_bool (Slider.max s) (Slider.min s)))
                       (Program.sliders (initialProgram (Env.winSize env0) amp ph))
                     = true) by reflexivity.
      rewrite forallb_forall in Hall. specialize (Hall s Hin).
      apply negb_true_iff in Hall. apply Qnot_le_lt. intros C.
      apply Qle_bool_iff in C. congruence. }
    destruct (Hr s Hin) as [Hmin _].
    pose proof (fraction_in_unit_interval s _ Hlt Hmin) as [F0 F1].
    split; [exact Hr|]. split; [split; assumption|].
    unfold sliderBar, panelBackground. cbv zeta. cbn [fst snd].
    split; [reflexivity|]. split.
    { unfold Slider.sliderWidth in *. split; nra. }
    split; [reflexivity|]. split; [reflexivity|].
    assert (Hlen : (S i <= List.length (Program.sliders p))%nat)
      by (apply nth_error_Some; rewrite Hn; discriminate).
    unfold Slider.bottom. apply (top_antitone (S i) _ Hlen).
Qed.

Lemma main_total env0 envs :
  exists p, main laguerre sphericalHarmonics env0 envs = Some p.
Proof.
  unfold main.
  destruct (init_exact laguerre sphericalHarmonics env0) as (amp & ph & E & Hi).
  rewrite Hi.
  destruct (frames_total laguerre sphericalHarmonics envs _
              (initialProgram_invariant laguerre sphericalHarmonics
                 (Env.winSize env0) amp ph E)) as [p Hp].
  rewrite Hp. cbn [option_map]. eauto.
Qed.


End WholeRun.

(* ================================================================= *)
(** ** GL objects over the run *)

Section GlBalance.

Variable laguerre : Z -> Z -> nat -> R.
Variable sphericalHarmonics : Z -> Z -> nat -> R.

Lemma count_app (f : GlEvent -> bool) (a b : list GlEvent) :
  List.length (filter f (a ++ b))
  = (List.length (filter f a) + List.length (filter f b))%nat.
Proof. rewrite filter_app, length_app. reflexivity. Qed.

(** In a successful frame each kind of GL object is destroyed as often
    as it is created. *)
Lemma frame_balance env prog prog' :
  frame laguerre sphericalHarmonics env prog = Some prog' ->
  (countCreate (Program.glCalls prog') + countDestroy (Program.glCalls prog)
   = countCreate (Program.glCalls prog) + countDestroy (Program.glCalls prog'))%nat
  /\ (countCreateFbo (Program.glCalls prog') + countDestroyFbo (Program.glCalls prog)
      = countCreateFbo (Program.glCalls prog)
        + countDestroyFbo (Program.glCalls prog'))%nat.
Proof.
  intros H. destruct (frame_decompose laguerre sphericalHarmonics env prog prog' H)
    as (q & -> & _ & Hg).
  destruct (adjustFbo_keeps env q) as (K1 & K2 & _).
  rewrite K1, K2.
  assert (Hq : (countCreate (Program.glCalls q) + countDestroy (Program.glCalls prog)
                = countCreate (Program.glCalls prog) + countDestroy (Program.glCalls q))%nat
               /\ countCreateFbo (Program.glCalls q) = countCreateFbo (Program.glCalls prog)
               /\ countDestroyFbo (Program.glCalls q)
                  = countDestroyFbo (Program.glCalls prog)).
  { rewrite Hg. unfold countCreate, countDestroy, countCreateFbo, countDestroyFbo.
    rewrite !count_app.
    destruct (recompileTriggered _ _ _ _); cbn [filter List.length]; lia. }
  destruct Hq as (Q1 & Q2 & Q3). split; [exact Q1|].
  destruct (adjustFbo_result env q) as [_ [[_ ->] | [_ Hc]]].
  - rewrite Q2, Q3. lia.
  - rewrite Hc. unfold countCreateFbo, countDestroyFbo in *.
    cbn [filter List.length]. lia.
Qed.

Lemma frames_balance envs : forall prog prog',
  frames laguerre sphericalHarmonics envs prog = Some prog' ->
  (countCreate (Program.glCalls prog') + countDestroy (Program.glCalls prog)
   = countCreate (Program.glCalls prog) + countDestroy (Program.glCalls prog'))%nat
  /\ (countCreateFbo (Program.glCalls prog') + countDestroyFbo (Program.glCalls prog)
      = countCreateFbo (Program.glCalls prog)
        + countDestroyFbo (Program.glCalls prog'))%nat.
Proof.
  induction envs as [|env envs IH]; intros prog prog' H.
  - cbn in H. injection H as <-. split; lia.
  - cbn [frames] in H.
    destruct (frame laguerre sphericalHarmonics env prog) as [p1|] eqn:E; [|discriminate].
    destruct (frame_balance env prog p1 E) as [A1 A2].
    destruct (IH p1 prog' H) as [B1 B2]. split; lia.
Qed.

Lemma main_some env0 envs p :
  main laguerre sphericalHarmonics env0 envs = Some p ->
  exists p0 p1,
    init laguerre sphericalHarmonics env0 = Some p0
    /\ frames laguerre sphericalHarmonics envs p0 = Some p1
    /\ p = quit p1.
Proof.
  unfold main.
  destruct (init laguerre sphericalHarmonics env0) as [p0|]; [|discriminate].
  destruct (frames laguerre sphericalHarmonics envs p0) as [p1|] eqn:Hf; [|discriminate].
  cbn [option_map]. intros H. injection H as <-. exists p0, p1.
  split; [reflexivity|]. split; [exact Hf | reflexivity].
Qed.

Lemma initialProgram_counts ws amp ph :
  countCreate (Program.glCalls (initialProgram ws amp ph)) = 1%nat
  /\ countDestroy (Program.glCalls (initialProgram ws amp ph)) = 0%nat
  /\ countCreateFbo (Program.glCalls (initialProgram ws amp ph)) = 1%nat
  /\ countDestroyFbo (Program.glCalls (initialProgram ws amp ph)) = 0%nat.
Proof. repeat split; reflexivity. Qed.

Lemma quit_counts p :
  countCreate (Program.glCalls (quit p)) = countCreate (Program.glCalls p)
  /\ countDestroy (Program.glCalls (quit p)) = S (countDestroy (Program.glCalls p))
  /\ countCreateFbo (Program.glCalls (quit p)) = countCreateFbo (Program.glCalls p)
  /\ countDestroyFbo (Program.glCalls (quit p)) = S (countDestroyFbo (Program.glCalls p)).
Proof. repeat split; reflexivity. Qed.

(** X24: GL objects are created and destroyed in pairs.  [frame]
    destroys the volume shader before each recompilation and the
    framebuffer before each re-creation, so between [init] and [quit]
    exactly one volume shader and one framebuffer exist; [quit] destroys
    both, and at the end of [main] every created volume shader and
    framebuffer has been destroyed. *)
Theorem gl_objects_are_paired :
  (forall env0 envs p0 p,
     init laguerre sphericalHarmonics env0 = Some p0 ->
     frames laguerre sphericalHarmonics envs p0 = Some p ->
     countCreate (Program.glCalls p) = S (countDestroy (Program.glCalls p))
     /\ countCreateFbo (Program.glCalls p) = S (countDestroyFbo (Program.glCalls p)))
  /\ (forall env0 envs p,
        main laguerre sphericalHarmonics env0 envs = Some p ->
        countCreate (Program.glCalls p) = countDestroy (Program.glCalls p)
        /\ countCreateFbo (Program.glCalls p) = countDestroyFbo (Program.glCalls p)).
Proof.
  assert (Hrun : forall env0 envs p0 p,
     init laguerre sphericalHarmonics env0 = Some p0 ->
     frames laguerre sphericalHarmonics envs p0 = Some p ->
     countCreate (Program.glCalls p) = S (countDestroy (Program.glCalls p))
     /\ countCreateFbo (Program.glCalls p) = S (countDestroyFbo (Program.glCalls p))).
  { intros env0 envs p0 p Hi Hf.
    destruct (init_exact laguerre sphericalHarmonics env0) as (amp & ph & _ & Hi').
    rewrite Hi' in Hi. injection Hi as <-.
    destruct (frames_balance envs _ _ Hf) as [B1 B2].
    destruct (initialProgram_counts (Env.winSize env0) amp ph) as (C1 & C2 & C3 & C4).
    rewrite C1, C2 in B1. rewrite C3, C4 in B2.
    split; lia. }
  split; [exact Hrun|].
  intros env0 envs p H.
  destruct (main_some env0 envs p H) as (p0 & p1 & Hi & Hf & ->).
  destruct (Hrun env0 envs p0 p1 Hi Hf) as [R1 R2].
  destruct (quit_counts p1) as (Q1 & Q2 & Q3 & Q4).
  rewrite Q1, Q2, Q3, Q4. split; lia.
Qed.

End GlBalance.

(* ================================================================= *)
(** ** interferenceIntegral *)

Section Loops.

Local Open Scope Q_scope.





End Loops.


(* ================================================================= *)
(** ** The camera of the draw pass *)

Section Camera.

Import Glsl.

Lemma sqrt_eq_1 x : x = 1 -> sqrt x = 1.
Proof. intros ->. apply sqrt_1. Qed.

(** X26: the camera looks at the nucleus from the distance set by the
    "Distance" slider.  For every rotation the three rotation columns
    of [transform] are orthonormal; the camera position [v_pos] lies
    at distance |distance| from the origin; the interpolated [v_normal]
    at a point a of the quad has squared length a.x^2 + a.y^2 + 1, so
    [normalize(v_normal)] is defined for every fragment; and on the
    central ray (a = 0) the sample at dist = distance, half of
    [u_rayLength], is the origin itself. *)
Theorem camera_looks_at_the_nucleus (prog : Program.t) :
  let m := transform prog in
  let r := Q2R (Program.distance prog) in
  (dot (Vertex.column m 0) (Vertex.column m 0) = 1
   /\ dot (Vertex.column m 1) (Vertex.column m 1) = 1
   /\ dot (Vertex.column m 2) (Vertex.column m 2) = 1
   /\ dot (Vertex.column m 0) (Vertex.column m 1) = 0
   /\ dot (Vertex.column m 0) (Vertex.column m 2) = 0
   /\ dot (Vertex.column m 1) (Vertex.column m 2) = 0)
  /\ (forall a_pos,
        fst (Vertex.main m a_pos) = vscale (Vertex.column m 2) r
        /\ dot (fst (Vertex.main m a_pos)) (fst (Vertex.main m a_pos)) = r * r
        /\ dot (snd (Vertex.main m a_pos)) (snd (Vertex.main m a_pos))
           = fst a_pos * fst a_pos + snd a_pos * snd a_pos + 1
        /\ Fragment.normalize (snd (Vertex.main m a_pos)) <> None)
  /\ (exists n,
        Fragment.normalize (snd (Vertex.main m (0, 0))) = Some n
        /\ dot n n = 1
        /\ rayLength prog / 2 = r
        /\ vadd (fst (Vertex.main m (0, 0))) (vscale n r) = V3 0 0 0).
Proof.
  intros m r.
  set (s1 := sin (Q2R (fst (Program.rot prog)))).
  set (s2 := sin (Q2R (snd (Program.rot prog)))).
  set (c1 := cos (Q2R (fst (Program.rot prog)))).
  set (c2 := cos (Q2R (snd (Program.rot prog)))).
  assert (H1 : s1 * s1 + c1 * c1 = 1).
  { pose proof (sin2_cos2 (Q2R (fst (Program.rot prog)))) as H.
    unfold Rsqr in H. exact H. }
  assert (H2 : s2 * s2 + c2 * c2 = 1).
  { pose proof (sin2_cos2 (Q2R (snd (Program.rot prog)))) as H.
    unfold Rsqr in H. exact H. }
  assert (C0 : Vertex.column m 0 = V3 c1 0 s1) by reflexivity.
  assert (C1 : Vertex.column m 1 = V3 (- s1 * s2) c2 (c1 * s2)) by reflexivity.
  assert (C2 : Vertex.column m 2 = V3 (- c2 * s1) (- s2) (c2 * c1)) by reflexivity.
  assert (C3 : Vertex.column m 3 = V3 (- c2 * s1 * r) (- s2 * r) (c2 * c1 * r))
    by reflexivity.
  assert (E00 : dot (V3 c1 0 s1) (V3 c1 0 s1) = 1)
    by (unfold dot; cbn [vx vy vz]; nra).
  assert (E11 : dot (V3 (- s1 * s2) c2 (c1 * s2)) (V3 (- s1 * s2) c2 (c1 * s2)) = 1).
  { unfold dot. cbn [vx vy vz].
    replace (- s1 * s2 * (- s1 * s2) + c2 * c2 + c1 * s2 * (c1 * s2))
      with ((s1 * s1 + c1 * c1) * (s2 * s2) + c2 * c2) by ring.
    rewrite H1. lra. }
  assert (E22 : dot (V3 (- c2 * s1) (- s2) (c2 * c1)) (V3 (- c2 * s1) (- s2) (c2 * c1)) = 1).
  { unfold dot. cbn [vx vy vz].
    replace (- c2 * s1 * (- c2 * s1) + - s2 * - s2 + c2 * c1 * (c2 * c1))
      with ((s1 * s1 + c1 * c1) * (c2 * c2) + s2 * s2) by ring.
    rewrite H1. lra. }
  assert (E01 : dot (V3 c1 0 s1) (V3 (- s1 * s2) c2 (c1 * s2)) = 0)
    by (unfold dot; cbn [vx vy vz]; ring).
  assert (E02 : dot (V3 c1 0 s1) (V3 (- c2 * s1) (- s2) (c2 * c1)) = 0)
    by (unfold dot; cbn [vx vy vz]; ring).
  assert (E12 : dot (V3 (- s1 * s2) c2 (c1 * s2)) (V3 (- c2 * s1) (- s2) (c2 * c1)) = 0).
  { unfold dot. cbn [vx vy vz].
    replace (- s1 * s2 * (- c2 * s1) + c2 * - s2 + c1 * s2 * (c2 * c1))
      with (((s1 * s1 + c1 * c1) - 1) * (s2 * c2)) by ring.
    rewrite H1. ring. }
  assert (Hnormal : forall a_pos,
            dot (snd (Vertex.main m a_pos)) (snd (Vertex.main m a_pos))
            = fst a_pos * fst a_pos + snd a_pos * snd a_pos + 1).
  { intros [ax ay]. unfold Vertex.main, Vertex.mulMat3. cbv zeta. cbn [fst snd].
    rewrite C0, C1, C2. unfold dot, vadd, vscale in *. cbn [vx vy vz] in *.
    replace ((c1 * ax + - s1 * s2 * ay + - c2 * s1 * -1)
             * (c1 * ax + - s1 * s2 * ay + - c2 * s1 * -1)
             + (0 * ax + c2 * ay + - s2 * -1) * (0 * ax + c2 * ay + - s2 * -1)
             + (s1 * ax + c1 * s2 * ay + c2 * c1 * -1)
               * (s1 * ax + c1 * s2 * ay + c2 * c1 * -1))
      with (ax * ax * (c1 * c1 + 0 * 0 + s1 * s1)
            + ay * ay * (- s1 * s2 * (- s1 * s2) + c2 * c2 + c1 * s2 * (c1 * s2))
            + (- c2 * s1 * (- c2 * s1) + - s2 * - s2 + c2 * c1 * (c2 * c1))
            + 2 * ax * ay * (c1 * (- s1 * s2) + 0 * c2 + s1 * (c1 * s2))
            - 2 * ax * (c1 * (- c2 * s1) + 0 * - s2 + s1 * (c2 * c1))
            - 2 * ay * (- s1 * s2 * (- c2 * s1) + c2 * - s2 + c1 * s2 * (c2 * c1)))
      by ring.
    rewrite E00, E11, E22, E01, E02, E12. ring. }
  assert (Hpos : forall a_pos,
            fst (Vertex.main m a_pos) = vscale (Vertex.column m 2) r).
  { intros a_pos. unfold Vertex.main, Vertex.mulVec4. cbv zeta. cbn [fst].
    rewrite C0, C1, C2, C3. unfold vadd, vscale. cbn [vx vy vz].
    f_equal; ring. }
  split; [|split].
  - rewrite C0, C1, C2. repeat split; assumption.
  - intros a_pos. split; [apply Hpos|]. split; [|split; [apply Hnormal|]].
    + rewrite Hpos, C2. unfold dot, vscale in *. cbn [vx vy vz] in *.
      replace (- c2 * s1 * r * (- c2 * s1 * r) + - s2 * r * (- s2 * r)
               + c2 * c1 * r * (c2 * c1 * r))
        with (r * r * (- c2 * s1 * (- c2 * s1) + - s2 * - s2 + c2 * c1 * (c2 * c1)))
        by ring.
      rewrite E22. ring.
    + unfold Fragment.normalize. rewrite Hnormal.
      destruct (Req_dec_T _ 0) as [E|_]; [|discriminate].
      exfalso. apply sqrt_eq_0 in E; nra.
  - assert (Hn0 : dot (snd (Vertex.main m (0, 0))) (snd (Vertex.main m (0, 0))) = 1).
    { rewrite Hnormal. cbn [fst snd]. ring. }
    exists (vscale (snd (Vertex.main m (0, 0))) (/ 1)).
    split; [|split; [|split]].
    + unfold Fragment.normalize. rewrite Hn0, sqrt_1.
      destruct (Req_dec_T 1 0); [lra | reflexivity].
    + revert Hn0. generalize (snd (Vertex.main m (0, 0))). intros v Hv.
      unfold dot, vscale in *. cbn [vx vy vz].
      replace (vx v * / 1 * (vx v * / 1) + vy v * / 1 * (vy v * / 1)
               + vz v * / 1 * (vz v * / 1))
        with (vx v * vx v + vy v * vy v + vz v * vz v) by (field; lra).
      exact Hv.
    + unfold rayLength. fold r. field.
    + rewrite Hpos. unfold Vertex.main, Vertex.mulMat3. cbv zeta. cbn [fst snd].
      rewrite C0, C1, C2. unfold vadd, vscale. cbn [vx vy vz].
      f_equal; field.
Qed.

End Camera.

(* ================================================================= *)
(** ** Instances on the program that init builds *)

Section Instances.

Local Open Scope Q_scope.


Lemma initialProgram_flagged_fields ws amp ph s :
  In s (Program.sliders (initialProgram ws amp ph)) ->
  Slider.recompile s = true ->
  Slider.value s <> FPhase
  /\ fieldValid (Slider.value s) (initialProgram ws amp ph) = true.
Proof.
  intros Hin Hrec.
  assert (Hall : forallb (fun s => implb (Slider.recompile s)
                                     (match Slider.value s with
                                      | FPhase => false
                                      | _ => true
                                      end
                                      && fieldValid (Slider.value s)
                                           (initialProgram ws amp ph)))
                   (Program.sliders (initialProgram ws amp ph)) = true)
    by reflexivity.
  rewrite forallb_forall in Hall. specialize (Hall s Hin).
  rewrite Hrec in Hall. cbn [implb] in Hall.
  apply andb_prop in Hall. destruct Hall as [H1 H2].
  split; [|exact H2]. intros E. rewrite E in H1. discriminate.
Qed.

(** A frame of the initial program, for any environment. *)
Lemma initial_frame env :
  exists amp ph p1,
    hydrogenWaveFuncStr Math.laguerre Math.sphericalHarmonics 1 0 0 (Q2R 0)
    = Some (amp, ph)
    /\ frame Math.laguerre Math.sphericalHarmonics env
         (initialProgram (800, 600)%Z amp ph) = Some p1.
Proof.
  destruct (init_exact Math.laguerre Math.sphericalHarmonics idleEnv)
    as (amp & ph & E & _).
  destruct (initialProgram_invariant Math.laguerre Math.sphericalHarmonics
              (800, 600)%Z amp ph E) as (_ & Hri & _ & Hq & Hw & _).
  destruct (frame_total Math.laguerre Math.sphericalHarmonics env _ Hri Hq Hw)
    as [p1 Hp1].
  exists amp, ph, p1. split; assumption.
Qed.

Lemma frame_with_button_up_witness :
  frame Math.laguerre Math.sphericalHarmonics idleEnv demoProgram
  = Some (adjustFbo idleEnv (advanceClocks idleEnv demoProgram)).
Proof.
  apply (proj1 (frame_with_button_up Math.laguerre Math.sphericalHarmonics
                  idleEnv demoProgram eq_refl)).
Defined.

Lemma dragged_slider_writes_its_field_witness :
  exists amp ph p1,
    frame Math.laguerre Math.sphericalHarmonics dragSamplesEnv
      (initialProgram (800, 600)%Z amp ph) = Some p1
    /\ getField FSampleCount p1
       = Slider.coordToValue (Slider.mk "Samples" 5 150 FSampleCount 0 true) (-9 # 10).
Proof.
  destruct (initial_frame dragSamplesEnv) as (amp & ph & p1 & _ & Hp1).
  exists amp, ph, p1. split; [exact Hp1|].
  apply (proj1 (dragged_slider_writes_its_field Math.laguerre Math.sphericalHarmonics
                  dragSamplesEnv _ p1 1%nat
                  (Slider.mk "Samples" 5 150 FSampleCount 0 true)
                  Hp1 eq_refl eq_refl eq_refl eq_refl)).
Defined.

Lemma camera_turns_only_off_the_panel_witness :
  exists amp ph p1,
    frame Math.laguerre Math.sphericalHarmonics dragCameraEnv
      (initialProgram (800, 600)%Z amp ph) = Some p1
    /\ - tau / 4 <= snd (Program.rot p1) <= tau / 4.
Proof.
  destruct (initial_frame dragCameraEnv) as (amp & ph & p1 & _ & Hp1).
  exists amp, ph, p1. split; [exact Hp1|].
  apply (proj2 (proj2 (camera_turns_only_off_the_panel
                         Math.laguerre Math.sphericalHarmonics
                         dragCameraEnv _ p1 Hp1))).
  split; apply Qle_bool_iff; reflexivity.
Defined.


Lemma shader_follows_settings_witness :
  exists amp ph p1,
    frame Math.laguerre Math.sphericalHarmonics dragSamplesEnv
      (initialProgram (800, 600)%Z amp ph) = Some p1
    /\ shaderInSync Math.laguerre Math.sphericalHarmonics p1.
Proof.
  destruct (initial_frame dragSamplesEnv) as (amp & ph & p1 & E & Hp1).
  exists amp, ph, p1. split; [exact Hp1|].
  destruct (initialProgram_invariant Math.laguerre Math.sphericalHarmonics
              (800, 600)%Z amp ph E) as (_ & _ & Hfl & _ & _ & Hs).
  apply (proj1 (shader_follows_settings Math.laguerre Math.sphericalHarmonics)
           dragSamplesEnv _ p1 Hp1 Hfl Hs).
Defined.

Lemma steady_pointer_recompiles_once_witness :
  exists amp ph p1 p2,
    frame Math.laguerre Math.sphericalHarmonics dragSamplesEnv
      (initialProgram (800, 600)%Z amp ph) = Some p1
    /\ frame Math.laguerre Math.sphericalHarmonics dragSamplesEnv p1 = Some p2
    /\ Program.shader p2 = Program.shader p1.
Proof.
  destruct (initial_frame dragSamplesEnv) as (amp & ph & p1 & _ & Hp1).
  destruct (steady_pointer_recompiles_once Math.laguerre Math.sphericalHarmonics
              dragSamplesEnv _ p1 Hp1
              (initialProgram_flagged_fields (800, 600)%Z amp ph))
    as (_ & p2 & Hp2 & Hsh & _).
  exists amp, ph, p1, p2. repeat split; assumption.
Defined.

Lemma slider_bars_stay_inside_the_panel_witness :
  exists amp ph p1,
    frame Math.laguerre Math.sphericalHarmonics dragSamplesEnv
      (initialProgram (800, 600)%Z amp ph) = Some p1
    /\ valuesInRange p1.
Proof.
  destruct (initial_frame dragSamplesEnv) as (amp & ph & p1 & E & Hp1).
  exists amp, ph, p1. split; [exact Hp1|].
  destruct (initialProgram_invariant Math.laguerre Math.sphericalHarmonics
              (800, 600)%Z amp ph E) as (Hwb & Hri & _).
  apply (proj1 (slider_bars_stay_inside_the_panel Math.laguerre Math.sphericalHarmonics)
           dragSamplesEnv _ p1 Hp1 Hwb Hri).
  - discriminate.
  - apply initialProgram_valuesInRange.
Defined.


Lemma gl_objects_are_paired_witness :
  exists p,
    main Math.laguerre Math.sphericalHarmonics idleEnv [dragSamplesEnv; idleEnv]
    = Some p
    /\ countCreate (Program.glCalls p) = countDestroy (Program.glCalls p).
Proof.
  destruct (main_total Math.laguerre Math.sphericalHarmonics idleEnv
              [dragSamplesEnv; idleEnv]) as [p Hp].
  exists p. split; [exact Hp|].
  apply (proj2 (gl_objects_are_paired Math.laguerre Math.sphericalHarmonics)
           idleEnv [dragSamplesEnv; idleEnv] p Hp).
Defined.

Lemma addWave_appends_wave_and_sliders_witness : addWave demoProgram <> None.
Proof.
  assert (Hlen : (List.length (Program.sliders demoProgram) <= Program_maxSliders)%nat)
    by (apply Nat.leb_le; reflexivity).
  apply (proj2 (proj1 (addWave_appends_wave_and_sliders demoProgram Hlen))).
  split; [apply Nat.ltb_lt | apply Nat.leb_le]; reflexivity.
Defined.

End Instances.
